(** * Event Hub to OCI Streaming forwarder: batching engine

    A shallow embedding of the batching core of
    [function/EventHubsNamespaceToOCIStreaming/eventhub_to_oci/__init__.py]
    (module [Function] below) and of [scripts/eventhub_consumer.py]
    (module [Consumer] below), with the properties of the size estimator,
    the bounded sender, the buffer and the two processing loops. *)

From Stdlib Require Import ZArith NArith List Bool Lia.
Import ListNotations.

Local Open Scope Z_scope.

(** ** Python values *)

(** A [str] is its sequence of code points, a [bytes] object its sequence
    of byte values.  Integers are unbounded, hence [Z]. *)
Definition str := list N.
Definition bytes := list N.

Definition len {A : Type} (l : list A) : Z := Z.of_nat (length l).

(** The exceptions that travel through the modelled code.
    [OtherException] stands for any other subclass of [Exception], such
    as what the streaming client raises out of [put_messages] (service,
    network or authentication failure) or a configuration error. *)
Inductive exn : Type :=
| UnicodeEncodeError
| UnicodeDecodeError
| OtherException (tag : N).

Inductive result (A : Type) : Type :=
| Ok (a : A)
| Raise (e : exn).
Arguments Ok {A} a.
Arguments Raise {A} e.

Module Exc.
Definition bind {A B : Type} (r : result A) (k : A -> result B) : result B :=
  match r with
  | Ok a => k a
  | Raise e => Raise e
  end.

(** A comprehension [[f x for x in xs]]: elements are evaluated left to
    right and the first exception aborts the whole comprehension. *)
Fixpoint mapM {A B : Type} (f : A -> result B) (xs : list A) : result (list B) :=
  match xs with
  | [] => Ok []
  | x :: xs' =>
      bind (f x) (fun y => bind (mapM f xs') (fun ys => Ok (y :: ys)))
  end.
End Exc.

(** [sum(...)]: Python adds from the left, starting at 0. *)
Definition sum (xs : list Z) : Z := fold_left Z.add xs 0.

(** ** [str.encode('utf-8')] and [bytes.decode('utf-8')] *)

Definition in_range (lo hi b : N) : bool := ((lo <=? b) && (b <=? hi))%N.

Definition is_surrogate (c : N) : bool := in_range 0xD800 0xDFFF c.

(** One code point to its UTF-8 bytes; a surrogate makes the strict
    encoder raise.  Code points of a [str] never exceed 0x10FFFF. *)
Definition encode_char (c : N) : result bytes :=
  (if c <? 0x80 then Ok [c]
   else if c <? 0x800 then Ok [0xC0 + c / 64; 0x80 + c mod 64]
   else if c <? 0x10000 then
     if is_surrogate c then Raise UnicodeEncodeError
     else Ok [0xE0 + c / 4096; 0x80 + (c / 64) mod 64; 0x80 + c mod 64]
   else Ok [0xF0 + c / 262144; 0x80 + (c / 4096) mod 64;
            0x80 + (c / 64) mod 64; 0x80 + c mod 64])%N.

Definition encode (s : str) : result bytes :=
  Exc.bind (Exc.mapM encode_char s) (fun chunks => Ok (concat chunks)).

Definition is_cont (b : N) : bool := in_range 0x80 0xBF b.

(** Bounds of the second byte of a multi-byte sequence, by lead byte:
    they exclude overlong forms, surrogates and values above 0x10FFFF. *)
Definition second_lo (b0 : N) : N :=
  (if b0 =? 0xE0 then 0xA0 else if b0 =? 0xF0 then 0x90 else 0x80)%N.
Definition second_hi (b0 : N) : N :=
  (if b0 =? 0xED then 0x9F else if b0 =? 0xF4 then 0x8F else 0xBF)%N.

Fixpoint decode (bs : bytes) : result str :=
  match bs with
  | [] => Ok []
  | b0 :: r0 =>
      if (b0 <? 0x80)%N then
        Exc.bind (decode r0) (fun s => Ok (b0 :: s))
      else if in_range 0xC2 0xDF b0 then
        match r0 with
        | b1 :: r1 =>
            if is_cont b1 then
              Exc.bind (decode r1)
                (fun s => Ok (((b0 - 0xC0) * 64 + (b1 - 0x80))%N :: s))
            else Raise UnicodeDecodeError
        | _ => Raise UnicodeDecodeError
        end
      else if in_range 0xE0 0xEF b0 then
        match r0 with
        | b1 :: b2 :: r2 =>
            if in_range (second_lo b0) (second_hi b0) b1 && is_cont b2 then
              Exc.bind (decode r2)
                (fun s => Ok (((b0 - 0xE0) * 4096 + (b1 - 0x80) * 64
                               + (b2 - 0x80))%N :: s))
            else Raise UnicodeDecodeError
        | _ => Raise UnicodeDecodeError
        end
      else if in_range 0xF0 0xF4 b0 then
        match r0 with
        | b1 :: b2 :: b3 :: r3 =>
            if in_range (second_lo b0) (second_hi b0) b1
               && is_cont b2 && is_cont b3 then
              Exc.bind (decode r3)
                (fun s => Ok (((b0 - 0xF0) * 262144 + (b1 - 0x80) * 4096
                               + (b2 - 0x80) * 64 + (b3 - 0x80))%N :: s))
            else Raise UnicodeDecodeError
        | _ => Raise UnicodeDecodeError
        end
      else Raise UnicodeDecodeError
  end.

(** [str.isspace()]: non-empty and made of whitespace code points only. *)
Definition is_whitespace (c : N) : bool :=
  in_range 0x09 0x0D c || in_range 0x1C 0x20 c
  || (c =? 0x85)%N || (c =? 0xA0)%N || (c =? 0x1680)%N
  || in_range 0x2000 0x200A c || (c =? 0x2028)%N || (c =? 0x2029)%N
  || (c =? 0x202F)%N || (c =? 0x205F)%N || (c =? 0x3000)%N.

Definition isspace (s : str) : bool :=
  match s with
  | [] => false
  | _ => forallb is_whitespace s
  end.

(** ** [base64.b64encode] *)

(** The standard alphabet, as character codes. *)
Definition b64char (i : N) : N :=
  (if i <? 26 then 65 + i
   else if i <? 52 then 97 + (i - 26)
   else if i <? 62 then 48 + (i - 52)
   else if i =? 62 then 43
   else 47)%N.

Definition b64pad : N := 61%N.

Fixpoint b64encode (bs : bytes) : bytes :=
  match bs with
  | [] => []
  | [a] =>
      [b64char (N.shiftr a 2); b64char (N.shiftl (N.land a 3) 4);
       b64pad; b64pad]
  | [a; b] =>
      [b64char (N.shiftr a 2);
       b64char (N.lor (N.shiftl (N.land a 3) 4) (N.shiftr b 4));
       b64char (N.shiftl (N.land b 15) 2);
       b64pad]
  | a :: b :: c :: rest =>
      b64char (N.shiftr a 2)
      :: b64char (N.lor (N.shiftl (N.land a 3) 4) (N.shiftr b 4))
      :: b64char (N.lor (N.shiftl (N.land b 15) 2) (N.shiftr c 6))
      :: b64char (N.land c 63)
      :: b64encode rest
  end.

(** ** [OciStreamSender.estimate_batch_bytes]

    [sum(len(b64encode(m.encode('utf-8'))) for m in messages)
       + len(messages) * 50].  The two source files define it with the
    same text. *)
Definition PER_MESSAGE_OVERHEAD : Z := 50.

Definition encoded_len (m : str) : result Z :=
  Exc.bind (encode m) (fun b => Ok (len (b64encode b))).

Definition estimate_batch_bytes (messages : list str) : result Z :=
  Exc.bind (Exc.mapM encoded_len messages)
    (fun lens => Ok (sum lens + len messages * PER_MESSAGE_OVERHEAD)).

(** ** Mutable state with exceptions

    A computation reads and updates a state and either returns or raises;
    what it wrote before raising stays written, as with Python objects. *)
Definition M (S A : Type) : Type := S -> result A * S.

Module St.
Definition ret {S A : Type} (a : A) : M S A := fun s => (Ok a, s).

Definition bind {S A B : Type} (m : M S A) (k : A -> M S B) : M S B :=
  fun s =>
    match m s with
    | (Ok a, s') => k a s'
    | (Raise e, s') => (Raise e, s')
    end.

Definition lift {S A : Type} (r : result A) : M S A := fun s => (r, s).

Definition get {S : Type} : M S S := fun s => (Ok s, s).

Definition modify {S : Type} (f : S -> S) : M S unit := fun s => (Ok tt, f s).

(** [try: m  except Exception: handler]. *)
Definition try_except {S A : Type} (m : M S A) (handler : exn -> M S A) : M S A :=
  fun s =>
    match m s with
    | (Ok a, s') => (Ok a, s')
    | (Raise e, s') => handler e s'
    end.

(** Run a computation on the second, resp. first, component of a pair. *)
Definition on_snd {X S A : Type} (m : M S A) : M (X * S) A :=
  fun xs => let '(r, s') := m (snd xs) in (r, (fst xs, s')).

Definition on_fst {X S A : Type} (m : M X A) : M (X * S) A :=
  fun xs => let '(r, x') := m (fst xs) in (r, (x', snd xs)).

(** Run a computation that owns a local object created at [x]; the
    object is handed back on return and dropped when the frame unwinds. *)
Definition with_local {X S A : Type} (x : X) (m : M (X * S) A) : M S (A * X) :=
  fun s =>
    match m (x, s) with
    | (Ok a, (x', s')) => (Ok (a, x'), s')
    | (Raise e, (_, s')) => (Raise e, s')
    end.

(** [for x in xs: v = body(v, x)]. *)
Fixpoint for_each {S A V : Type} (body : V -> A -> M S V) (xs : list A) (v : V)
  : M S V :=
  match xs with
  | [] => ret v
  | x :: xs' => bind (body v x) (for_each body xs')
  end.
End St.

Declare Scope monad_scope.
Delimit Scope monad_scope with monad.
Notation "x <- c ;; k" := (St.bind c (fun x => k))
  (at level 61, c at next level, right associativity) : monad_scope.
Notation "' pat <- c ;; k" := (St.bind c (fun x => match x with pat => k end))
  (at level 61, pat pattern, c at next level, right associativity) : monad_scope.
Notation "c ;; k" := (St.bind c (fun _ => k))
  (at level 61, right associativity) : monad_scope.

(** ** The sink and the observable world *)

(** The streaming client: [put_messages] takes the entry values of one
    request and either raises or answers with one error flag per returned
    entry ([resp.data.entries or []], [true] when the entry carries an
    error).  The client may keep any state of its own. *)
Class SinkAdapter : Type := {
  Sink : Type;
  put_messages : Sink -> list str -> result (list bool) * Sink
}.

(** One call of [put_messages]: the payloads of the batch it was made for
    and what the client answered. *)
Record Call : Type := {
  payloads_of : list str;
  reply : result (list bool)
}.

(** Console lines of the drain script, by kind. *)
Inductive Output : Type :=
| WouldSend (count : Z)
| Flushed (s b f : Z).

Record World `{SinkAdapter} : Type := {
  sink : Sink;
  calls : list Call;
  console : list Output
}.

Definition dispatched `{SinkAdapter} (w : World) : list (list str) :=
  map payloads_of (calls w).

(** [client.put_messages(stream_ocid, req)]: the call is recorded, then
    the client's answer is returned or its exception raised. *)
Definition client_put_messages `{SinkAdapter} (payloads entries : list str)
  : M World (list bool) :=
  fun w =>
    let '(r, k) := put_messages (sink w) entries in
    (r, {| sink := k;
           calls := calls w ++ [{| payloads_of := payloads; reply := r |}];
           console := console w |}).

(** [b64encode(p.encode('utf-8')).decode('utf-8')], the value of one
    [PutMessagesDetailsEntry]. *)
Definition entry_value (p : str) : result str :=
  Exc.bind (encode p) (fun b => decode (b64encode b)).

(** The loop over [resp.data.entries] counting [(sent, failed)]. *)
Definition count_entries (entries : list bool) : Z * Z :=
  fold_left
    (fun sf (error : bool) =>
       if error then (fst sf, snd sf + 1) else (fst sf + 1, snd sf))
    entries (0, 0).

(** Local variables of the packing loop. *)
Record Packing : Type := {
  total_sent : Z;
  total_failed : Z;
  nbatches : Z;
  batch : list str
}.

(** ** More of Python's [str] *)

(** [s[:k]]: a negative [k] counts from the end. *)
Definition slice_to (s : str) (k : Z) : str :=
  if k <? 0 then firstn (Z.to_nat (len s + k)) s else firstn (Z.to_nat k) s.

(** [s.startswith(prefix)] and [needle in hay]. *)
Fixpoint starts_with (prefix s : str) : bool :=
  match prefix, s with
  | [], _ => true
  | _ :: _, [] => false
  | p :: prefix', c :: s' => (p =? c)%N && starts_with prefix' s'
  end.

Fixpoint contains (needle hay : str) : bool :=
  starts_with needle hay
  || match hay with
     | [] => false
     | _ :: hay' => contains needle hay'
     end.

(** [s.split(sep)] for a separator of one code point: never an empty
    list, [[""]] for the empty string. *)
Fixpoint split_on (sep : N) (s : str) : list str :=
  match s with
  | [] => [[]]
  | c :: s' =>
      if (c =? sep)%N then [] :: split_on sep s'
      else match split_on sep s' with
           | field :: fields => (c :: field) :: fields
           | [] => [[c]]
           end
  end.

(** [s.lstrip()], [s.rstrip()] and [s.strip()], which take whitespace off. *)
Fixpoint lstrip (s : str) : str :=
  match s with
  | [] => []
  | c :: s' => if is_whitespace c then lstrip s' else s
  end.

Definition rstrip (s : str) : str := rev (lstrip (rev s)).

Definition strip (s : str) : str := rstrip (lstrip s).

(** ** More of the state monad *)

(** [try: m  finally: cleanup]: the cleanup always runs; what it raises
    replaces the outcome of [m]. *)
Definition try_finally {S A : Type} (m : M S A) (cleanup : M S unit) : M S A :=
  fun s =>
    match m s with
    | (r, s') =>
        match cleanup s' with
        | (Ok _, s'') => (r, s'')
        | (Raise e, s'') => (Raise e, s'')
        end
    end.

(** Run a computation on a part of the state. *)
Definition zoom {S T A : Type} (part : S -> T) (put : T -> S -> S) (m : M T A) : M S A :=
  fun s => let '(r, t') := m (part s) in (r, put t' s).

(** ** Application settings *)

(** The names the code looks up with [os.getenv]. *)
Inductive Setting : Type :=
| EventHubsConnectionString
| MessageEndpoint
| OCI_MESSAGE_ENDPOINT
| StreamOcid
| OCI_STREAM_OCID
| EventHubNamesCsv.

(** [os.getenv]: [None] for a name that is not set. *)
Definition Environ : Type := Setting -> option str.

(** [a or b] on values that are [None] or a [str]: [a] when it is a
    non-empty string, [b] otherwise. *)
Definition py_or (a b : option str) : option str :=
  match a with
  | Some (_ :: _) => a
  | _ => b
  end.

(** The [RuntimeError]s of [validate_env], by message. *)
Definition MissingStreamSettings : exn := OtherException 1.
Definition StreamPoolOcid : exn := OtherException 2.
Definition MissingConnectionString : exn := OtherException 3.

(** The text ["streampool"]. *)
Definition streampool : str := [115; 116; 114; 101; 97; 109; 112; 111; 111; 108]%N.

(** ** Events of a subscription and their checkpoints *)

(** An event as the subscription delivers it.  The code only calls
    [event.body_as_str(encoding="utf-8")] on it, once: the field is what
    that call gives, the text of the body or the exception raised for a
    body that is not text. *)
Record EventData : Type := { body_as_str : result str }.

(** The checkpoint store behind [partition_context]: [update_checkpoint]
    may keep any state and may raise. *)
Class PartitionContext : Type := {
  Checkpoints : Type;
  update_checkpoint : Checkpoints -> EventData -> result unit * Checkpoints
}.

(** The store, and the attempts made on it with their outcomes. *)
Record Checkpointing `{PartitionContext} : Type := {
  store : Checkpoints;
  attempts : list (EventData * result unit)
}.

(** [partition_context.update_checkpoint(event)]. *)
Definition checkpoint `{PartitionContext} (event : EventData) : M Checkpointing unit :=
  fun k =>
    let '(r, st) := update_checkpoint (store k) event in
    (r, {| store := st; attempts := attempts k ++ [(event, r)] |}).


(** * The trigger-driven function (bounded-batch mode) *)
Module Function.
Section WithSink.
Context `{SinkAdapter}.
Local Open Scope monad_scope.

(** [OciStreamSender.send_batch]. *)
Definition send_batch (payloads : list str) : M World (Z * Z) :=
  match payloads with
  | [] => St.ret (0, 0)
  | _ :: _ =>
      entries <- St.lift (Exc.mapM entry_value payloads) ;;
      resp <- client_put_messages payloads entries ;;
      St.ret (count_entries resp)
  end.

(** The body of [for p in payloads] in [send_with_limits]; the test is
    [len(candidate) > max_count or estimate_batch_bytes(candidate) >
    max_bytes], whose right operand is evaluated only when the left one
    is false. *)
Definition pack_step (max_bytes max_count : Z) (v : Packing) (p : str)
  : M World Packing :=
  let candidate := batch v ++ [p] in
  over <- (if len candidate >? max_count then St.ret true
           else est <- St.lift (estimate_batch_bytes candidate) ;;
                St.ret (est >? max_bytes)) ;;
  if (over : bool) then
    sf <- send_batch (batch v) ;;
    St.ret {| total_sent := total_sent v + fst sf;
              total_failed := total_failed v + snd sf;
              nbatches := nbatches v + 1;
              batch := [p] |}
  else
    St.ret {| total_sent := total_sent v;
              total_failed := total_failed v;
              nbatches := nbatches v;
              batch := candidate |}.

(** [if batch: ...] after the loop. *)
Definition pack_finish (v : Packing) : M World (Z * Z * Z) :=
  match batch v with
  | [] => St.ret (total_sent v, total_failed v, nbatches v)
  | _ :: _ =>
      sf <- send_batch (batch v) ;;
      St.ret (total_sent v + fst sf, total_failed v + snd sf, nbatches v + 1)
  end.

(** [OciStreamSender.send_with_limits]: returns
    [(total_sent, total_failed, batches)]. *)
Definition send_with_limits (payloads : list str) (max_bytes max_count : Z)
  : M World (Z * Z * Z) :=
  v <- St.for_each (pack_step max_bytes max_count) payloads
         {| total_sent := 0; total_failed := 0; nbatches := 0; batch := [] |} ;;
  pack_finish v.

(** [HubBuffer]: the limits and the mutable fields. *)
Record HubBuffer : Type := {
  max_count : Z;
  max_bytes : Z;
  buf : list str;
  sent : Z;
  failed : Z;
  batches : Z
}.

(** [HubBuffer.__init__]. *)
Definition new_HubBuffer (max_count max_bytes : Z) : HubBuffer :=
  {| max_count := max_count; max_bytes := max_bytes;
     buf := []; sent := 0; failed := 0; batches := 0 |}.

Definition set_buf (b : list str) (h : HubBuffer) : HubBuffer :=
  {| max_count := max_count h; max_bytes := max_bytes h; buf := b;
     sent := sent h; failed := failed h; batches := batches h |}.
Definition add_sent (s : Z) (h : HubBuffer) : HubBuffer :=
  {| max_count := max_count h; max_bytes := max_bytes h; buf := buf h;
     sent := sent h + s; failed := failed h; batches := batches h |}.
Definition add_failed (f : Z) (h : HubBuffer) : HubBuffer :=
  {| max_count := max_count h; max_bytes := max_bytes h; buf := buf h;
     sent := sent h; failed := failed h + f; batches := batches h |}.
Definition add_batches (b : Z) (h : HubBuffer) : HubBuffer :=
  {| max_count := max_count h; max_bytes := max_bytes h; buf := buf h;
     sent := sent h; failed := failed h; batches := batches h + b |}.

(** The methods run on the object and the world. *)
Definition Obj : Type := (HubBuffer * World)%type.

Definition self : M Obj HubBuffer := St.on_fst St.get.
Definition update (f : HubBuffer -> HubBuffer) : M Obj unit :=
  St.on_fst (St.modify f).

(** [force or len(self.buf) >= self.max_count
      or estimate_batch_bytes(self.buf) >= self.max_bytes]. *)
Definition flush_due (force : bool) (h : HubBuffer) : result bool :=
  if force then Ok true
  else if len (buf h) >=? max_count h then Ok true
  else Exc.bind (estimate_batch_bytes (buf h))
         (fun est => Ok (est >=? max_bytes h)).

(** [HubBuffer._flush_if_needed]. *)
Definition _flush_if_needed (force : bool) : M Obj unit :=
  h <- self ;;
  match buf h with
  | [] => St.ret tt
  | _ :: _ =>
      due <- St.lift (flush_due force h) ;;
      if (due : bool) then
        sfb <- St.on_snd (send_with_limits (buf h) (max_bytes h) (max_count h)) ;;
        update (add_sent (fst (fst sfb))) ;;
        update (add_failed (snd (fst sfb))) ;;
        update (add_batches (snd sfb)) ;;
        update (set_buf [])
      else St.ret tt
  end.

(** [HubBuffer.add]. *)
Definition add (payload : str) : M Obj unit :=
  update (fun h => set_buf (buf h ++ [payload]) h) ;;
  _flush_if_needed false.

(** [HubBuffer.flush]. *)
Definition flush : M Obj unit := _flush_if_needed true.

(** An event as the trigger delivers it; only its body is read. *)
Record EventHubEvent : Type := { get_body : bytes }.

(** [processed_count] and [error_count] of [main]. *)
Record Counters : Type := { processed_count : Z; error_count : Z }.

Definition incr_processed (c : Counters) : Counters :=
  {| processed_count := processed_count c + 1; error_count := error_count c |}.
Definition incr_error (c : Counters) : Counters :=
  {| processed_count := processed_count c; error_count := error_count c + 1 |}.

(** The body of [for i, event in enumerate(events)] in [main]: both
    [except] clauses count one error and go on. *)
Definition process_event (event : EventHubEvent) : M (Counters * Obj) unit :=
  St.try_except
    (body <- St.lift (decode (get_body event)) ;;
     match body with
     | [] => St.ret tt
     | _ :: _ =>
         if isspace body then St.ret tt
         else
           St.on_snd (add body) ;;
           St.on_fst (St.modify incr_processed)
     end)
    (fun _ => St.on_fst (St.modify incr_error)).

(** What [main] needs from its surroundings: whether the OCI SDK was
    imported, and the outcome of validating the settings and building
    the sender, which yields [(max_batch_count, max_batch_bytes)]. *)
Record Settings : Type := {
  OCI_SDK_OK : bool;
  configure : result (Z * Z)
}.

(** How an invocation ends when it does not raise; [Complete] carries
    the figures of the closing log record
    [processed=.., sent=.., failed=.., batches=..]. *)
Inductive Outcome : Type :=
| NoEvents
| SdkMissing
| Complete (processed sent failed batches : Z).

(** [main]: the outer [except] logs and re-raises. *)
Definition main (env : Settings) (events : list EventHubEvent) : M World Outcome :=
  if len events =? 0 then St.ret NoEvents
  else if negb (OCI_SDK_OK env) then St.ret SdkMissing
  else
    limits <- St.lift (configure env) ;;
    r <- St.with_local (new_HubBuffer (fst limits) (snd limits))
           (St.with_local {| processed_count := 0; error_count := 0 |}
              (St.for_each (fun _ e => process_event e) events tt ;;
               St.on_snd flush)) ;;
    let buffer := snd r in
    let counters := snd (fst r) in
    St.ret (Complete (processed_count counters)
                     (sent buffer)
                     (failed buffer + error_count counters)
                     (batches buffer)).

(** ["***"] and ["...***"]. *)
Definition STARS : str := [42; 42; 42]%N.
Definition DOTS_STARS : str := [46; 46; 46; 42; 42; 42]%N.

(** [mask]. *)
Definition mask (value : str) (keep : Z) : str :=
match value with
| [] => []
| _ :: _ =>
    if len value <=? keep then STARS
    else slice_to value keep ++ DOTS_STARS
end.

(** [validate_env]: the endpoint and the stream OCID, or a
  [RuntimeError]. *)
Definition validate_env (getenv : Environ) : result (str * str) :=
let endpoint := py_or (getenv MessageEndpoint) (getenv OCI_MESSAGE_ENDPOINT) in
let stream_ocid := py_or (getenv StreamOcid) (getenv OCI_STREAM_OCID) in
match endpoint, stream_ocid with
| Some (e :: ndpoint), Some (s :: tream) =>
    if contains streampool (s :: tream) then Raise StreamPoolOcid
    else Ok (e :: ndpoint, s :: tream)
| _, _ => Raise MissingStreamSettings
end.

End WithSink.
End Function.

(** * The standalone drain script (continuous-drain mode) *)
Module Consumer.
Section WithSink.
Context `{SinkAdapter}.
Local Open Scope monad_scope.

(** The sender object; the script runs without one in log-only mode. *)
Inductive OciStreamSender : Type := StreamSender.

(** [OciStreamSender.send_batch]. *)
Definition send_batch (payloads : list str) : M World (Z * Z) :=
  match payloads with
  | [] => St.ret (0, 0)
  | _ :: _ =>
      entries <- St.lift (Exc.mapM entry_value payloads) ;;
      results <- client_put_messages payloads entries ;;
      St.ret (count_entries results)
  end.

Definition pack_step (max_bytes max_count : Z) (v : Packing) (p : str)
  : M World Packing :=
  let candidate := batch v ++ [p] in
  over <- (if len candidate >? max_count then St.ret true
           else est <- St.lift (estimate_batch_bytes candidate) ;;
                St.ret (est >? max_bytes)) ;;
  if (over : bool) then
    sf <- send_batch (batch v) ;;
    St.ret {| total_sent := total_sent v + fst sf;
              total_failed := total_failed v + snd sf;
              nbatches := nbatches v + 1;
              batch := [p] |}
  else
    St.ret {| total_sent := total_sent v;
              total_failed := total_failed v;
              nbatches := nbatches v;
              batch := candidate |}.

Definition pack_finish (v : Packing) : M World (Z * Z * Z) :=
  match batch v with
  | [] => St.ret (total_sent v, total_failed v, nbatches v)
  | _ :: _ =>
      sf <- send_batch (batch v) ;;
      St.ret (total_sent v + fst sf, total_failed v + snd sf, nbatches v + 1)
  end.

(** [OciStreamSender.send_with_size_limit]. *)
Definition send_with_size_limit (payloads : list str) (max_bytes max_count : Z)
  : M World (Z * Z * Z) :=
  v <- St.for_each (pack_step max_bytes max_count) payloads
         {| total_sent := 0; total_failed := 0; nbatches := 0; batch := [] |} ;;
  pack_finish v.

(** [EventHubDrainer]: the fields the buffering code reads and writes. *)
Record EventHubDrainer : Type := {
  oci_sender : option OciStreamSender;
  max_batch_bytes : Z;
  max_batch_count : Z;
  _buffer : list str;
  messages_processed : Z;
  messages_sent : Z;
  messages_failed : Z;
  batches : Z
}.

Definition clear_buffer (d : EventHubDrainer) : EventHubDrainer :=
  {| oci_sender := oci_sender d; max_batch_bytes := max_batch_bytes d;
     max_batch_count := max_batch_count d; _buffer := [];
     messages_processed := messages_processed d;
     messages_sent := messages_sent d;
     messages_failed := messages_failed d; batches := batches d |}.
Definition add_sent (s : Z) (d : EventHubDrainer) : EventHubDrainer :=
  {| oci_sender := oci_sender d; max_batch_bytes := max_batch_bytes d;
     max_batch_count := max_batch_count d; _buffer := _buffer d;
     messages_processed := messages_processed d;
     messages_sent := messages_sent d + s;
     messages_failed := messages_failed d; batches := batches d |}.
Definition add_failed (f : Z) (d : EventHubDrainer) : EventHubDrainer :=
  {| oci_sender := oci_sender d; max_batch_bytes := max_batch_bytes d;
     max_batch_count := max_batch_count d; _buffer := _buffer d;
     messages_processed := messages_processed d;
     messages_sent := messages_sent d;
     messages_failed := messages_failed d + f; batches := batches d |}.
Definition add_batches (b : Z) (d : EventHubDrainer) : EventHubDrainer :=
  {| oci_sender := oci_sender d; max_batch_bytes := max_batch_bytes d;
     max_batch_count := max_batch_count d; _buffer := _buffer d;
     messages_processed := messages_processed d;
     messages_sent := messages_sent d;
     messages_failed := messages_failed d; batches := batches d + b |}.

Definition Obj : Type := (EventHubDrainer * World)%type.

Definition self : M Obj EventHubDrainer := St.on_fst St.get.
Definition update (f : EventHubDrainer -> EventHubDrainer) : M Obj unit :=
  St.on_fst (St.modify f).

(** [print(...)]. *)
Definition print (line : Output) : M Obj unit :=
  St.on_snd (St.modify (fun w =>
    {| sink := sink w; calls := calls w; console := console w ++ [line] |})).

(** The block both sending branches share: copy the buffer, clear it,
    send the copy, add up the totals, report. *)
Definition send_buffer : M Obj unit :=
  d <- self ;;
  let to_send := _buffer d in
  update clear_buffer ;;
  sfb <- St.on_snd (send_with_size_limit to_send (max_batch_bytes d)
                      (max_batch_count d)) ;;
  update (add_sent (fst (fst sfb))) ;;
  update (add_failed (snd (fst sfb))) ;;
  update (add_batches (snd sfb)) ;;
  print (Flushed (fst (fst sfb)) (snd sfb) (snd (fst sfb))).

(** [EventHubDrainer._flush_if_needed]. *)
Definition _flush_if_needed (force : bool) : M Obj unit :=
  d <- self ;;
  match oci_sender d with
  | None =>
      match force, _buffer d with
      | true, _ :: _ =>
          print (WouldSend (len (_buffer d))) ;;
          update clear_buffer
      | _, _ => St.ret tt
      end
  | Some _ =>
      match _buffer d with
      | [] => St.ret tt
      | _ :: _ =>
          if force then send_buffer
          else
            est <- St.lift (estimate_batch_bytes (_buffer d)) ;;
            if (len (_buffer d) >=? max_batch_count d)
               || (est >=? max_batch_bytes d)
            then send_buffer
            else St.ret tt
      end
  end.

Context `{PartitionContext}.

Definition add_processed (d : EventHubDrainer) : EventHubDrainer :=
  {| oci_sender := oci_sender d; max_batch_bytes := max_batch_bytes d;
     max_batch_count := max_batch_count d; _buffer := _buffer d;
     messages_processed := messages_processed d + 1;
     messages_sent := messages_sent d;
     messages_failed := messages_failed d; batches := batches d |}.
Definition append_buffer (body : str) (d : EventHubDrainer) : EventHubDrainer :=
  {| oci_sender := oci_sender d; max_batch_bytes := max_batch_bytes d;
     max_batch_count := max_batch_count d; _buffer := _buffer d ++ [body];
     messages_processed := messages_processed d;
     messages_sent := messages_sent d;
     messages_failed := messages_failed d; batches := batches d |}.

(** The lines [on_event] and [drain] print, by kind: the progress line,
    the error line, the configuration block, and the closing block with
    its headline and totals (the sink's totals when there is a sender). *)
Inductive Notice : Type :=
| Progress (processed sent failed : Z)
| ErrorProcessing (e : exn)
| Configuration (max_count max_bytes : Z) (oci_enabled : bool)
| Summary (consumed : bool) (processed : Z) (sink_totals : option (Z * Z * Z)).

(** What a receiving drainer has besides the buffering fields:
    [_last_event_ts], the lines it printed itself, and the partition's
    checkpoints. *)
Record Session : Type := {
  _last_event_ts : Z;
  notices : list Notice;
  partition_context : Checkpointing
}.

Definition set_last_event_ts (now : Z) (x : Session) : Session :=
  {| _last_event_ts := now; notices := notices x;
     partition_context := partition_context x |}.

Definition Receiving : Type := (Session * Obj)%type.

Definition notice (line : Notice) : M Receiving unit :=
  St.on_fst (St.modify (fun x =>
    {| _last_event_ts := _last_event_ts x; notices := notices x ++ [line];
       partition_context := partition_context x |})).

(** [partition_context.update_checkpoint(event)]. *)
Definition partition_update_checkpoint (event : EventData) : M Receiving unit :=
  St.on_fst (zoom partition_context
               (fun k x => {| _last_event_ts := _last_event_ts x;
                              notices := notices x;
                              partition_context := k |})
               (checkpoint event)).

(** [EventHubDrainer.on_event]; [now] is what [time.time()] reads. *)
Definition on_event (now : Z) (event : option EventData) : M Receiving unit :=
  match event with
  | None => St.ret tt
  | Some event =>
      St.try_except
        (body <- St.lift (body_as_str event) ;;
         St.on_fst (St.modify (set_last_event_ts now)) ;;
         St.on_snd (update add_processed) ;;
         St.on_snd (update (append_buffer body)) ;;
         St.on_snd (_flush_if_needed false) ;;
         partition_update_checkpoint event ;;
         d <- St.on_snd self ;;
         if messages_processed d mod 100 =? 0
         then notice (Progress (messages_processed d) (messages_sent d)
                               (messages_failed d))
         else St.ret tt)
        (fun e =>
           notice (ErrorProcessing e) ;;
           St.try_except (partition_update_checkpoint event) (fun _ => St.ret tt))
  end.

(** What [client.receive] does with the callbacks: it hands [on_event]
    the events, or [None] when the wait passed without one, one after
    the other, each at some reading of the clock; in the end it returns
    (the client was closed) or raises. *)
Record Reception : Type := {
  deliveries : list (Z * option EventData);
  ending : result unit
}.

Definition receive (r : Reception) : M Receiving unit :=
  St.for_each (fun _ d => on_event (fst d) (snd d)) (deliveries r) tt ;;
  St.lift (ending r).

(** [EventHubDrainer.drain]. *)
Definition drain (r : Reception) : M Receiving unit :=
  d <- St.on_snd self ;;
  notice (Configuration (max_batch_count d) (max_batch_bytes d)
            (match oci_sender d with Some _ => true | None => false end)) ;;
  try_finally (receive r)
    (St.on_snd (_flush_if_needed true) ;;
     d <- St.on_snd self ;;
     notice (Summary (0 <? messages_processed d) (messages_processed d)
               (match oci_sender d with
                | Some _ => Some (messages_sent d, messages_failed d, batches d)
                | None => None
                end))).

End WithSink.
End Consumer.

(** * The timer-driven function *)

(** Its [OciStreamSender] and [HubBuffer] are, line for line, those of
    the trigger-driven function; the definitions of [Function] stand for
    both. *)
Module Timer.

(** [get_eventhub_list]. *)
Definition get_eventhub_list (getenv : Environ) : list str :=
  let csv := match getenv EventHubNamesCsv with Some v => v | None => [] end in
  flat_map (fun h => match strip h with
                     | [] => []
                     | c :: s => [strip h]
                     end)
           (split_on 44 csv).

(** [validate_env]. *)
Definition validate_env (getenv : Environ) : result (str * str * list str) :=
  match getenv EventHubsConnectionString with
  | Some (_ :: _) =>
      let endpoint := py_or (getenv MessageEndpoint) (getenv OCI_MESSAGE_ENDPOINT) in
      let stream_ocid := py_or (getenv StreamOcid) (getenv OCI_STREAM_OCID) in
      match endpoint, stream_ocid with
      | Some (e :: ndpoint), Some (s :: tream) =>
          Ok (e :: ndpoint, s :: tream, get_eventhub_list getenv)
      | _, _ => Raise MissingStreamSettings
      end
  | _ => Raise MissingConnectionString
  end.

Section WithSink.
Context `{SinkAdapter} `{PartitionContext}.
Local Open Scope monad_scope.

(** The variables of [process_eventhub] that [on_event] closes over. *)
Record Locals : Type := {
  buffer : Function.HubBuffer;
  last_event_ts : Z
}.

(** They live beside the sink and the partition's checkpoints. *)
Definition Frame : Type := (Locals * (World * Checkpointing))%type.

(** Methods of [buffer]. *)
Definition on_buffer {A : Type} (m : M Function.Obj A) : M Frame A :=
  zoom (fun s : Frame => (buffer (fst s), fst (snd s)))
       (fun o s => ({| buffer := fst o; last_event_ts := last_event_ts (fst s) |},
                    (snd o, snd (snd s))))
       m.

Definition set_last_event_ts (now : Z) : M Frame unit :=
  St.on_fst (St.modify (fun l => {| buffer := buffer l; last_event_ts := now |})).

(** [partition_context.update_checkpoint(event)] in its own
    [try: ... except Exception: pass]. *)
Definition try_update_checkpoint (event : EventData) : M Frame unit :=
  St.try_except (St.on_snd (St.on_snd (checkpoint event))) (fun _ => St.ret tt).

(** [on_event] of [process_eventhub]; [now] is what [time.time()] reads. *)
Definition on_event (now : Z) (event : option EventData) : M Frame unit :=
  match event with
  | None => St.ret tt
  | Some event =>
      St.try_except
        (body <- St.lift (body_as_str event) ;;
         on_buffer (Function.add body) ;;
         set_last_event_ts now ;;
         try_update_checkpoint event)
        (fun _ => try_update_checkpoint event)
  end.

(** An Event Hub as [process_eventhub] meets it: whether a client can be
    made for it, the clock when it starts, and what [client.receive] does
    with the callbacks: it hands [on_event] the events, or [None] when
    the wait passed without one, one after the other, each at some
    reading of the clock, and in the end returns or raises. *)
Record Hub : Type := {
  from_connection_string : result unit;
  started : Z;
  deliveries : list (Z * option EventData);
  ending : result unit
}.

Definition receive (hub : Hub) : M Frame unit :=
  St.for_each (fun _ d => on_event (fst d) (snd d)) (deliveries hub) tt ;;
  St.lift (ending hub).

(** [process_eventhub]. *)
Definition process_eventhub (EH_SDK_OK : bool) (hub : Hub)
           (max_batch_count max_batch_bytes : Z) : M (World * Checkpointing) unit :=
  if negb EH_SDK_OK then St.ret tt
  else
    St.lift (from_connection_string hub) ;;
    St.with_local
      {| buffer := Function.new_HubBuffer max_batch_count max_batch_bytes;
         last_event_ts := started hub |}
      (try_finally (receive hub) (on_buffer Function.flush)) ;;
    St.ret tt.

(** What [main] needs from its surroundings: whether the two SDKs were
    imported, the application settings, the outcome of building the
    sender and reading the limits once the settings are valid, which
    yields [(max_batch_count, max_batch_bytes)], and the Event Hub behind
    each name. *)
Record Runtime : Type := {
  EH_SDK_OK : bool;
  OCI_SDK_OK : bool;
  getenv : Environ;
  configure : str -> str -> result (Z * Z);
  hub_named : str -> Hub
}.

(** [main]: the [except] logs the exception and lets the run end. *)
Definition main (env : Runtime) : M (World * Checkpointing) unit :=
  if negb (EH_SDK_OK env && OCI_SDK_OK env) then St.ret tt
  else
    St.try_except
      (settings <- St.lift (validate_env (getenv env)) ;;
       let '(endpoint, stream_ocid, hubs) := settings in
       limits <- St.lift (configure env endpoint stream_ocid) ;;
       match hubs with
       | [] => St.ret tt
       | _ :: _ =>
           St.for_each
             (fun _ hub =>
                process_eventhub (EH_SDK_OK env) (hub_named env hub)
                  (fst limits) (snd limits))
             hubs tt
       end)
      (fun _ => St.ret tt).
End WithSink.
End Timer.

(** * Vocabulary of the statements

    Predicates and measures the theorems are stated with; none of them
    is part of the program. *)

(** A payload is UTF-8 text when the strict encoder accepts it: no code
    point is a surrogate.  Every [str] that [decode] returns is such. *)
Definition encodable (s : str) : bool :=
  forallb (fun c => negb (is_surrogate c)) s.

(** [n / 3] rounded up. *)
Definition ceil3 (n : Z) : Z := (n + 2) / 3.


(** A sink that always answers. *)
Definition never_raises `{SinkAdapter} : Prop :=
  forall (k : Sink) (entries : list str),
    exists flags, fst (put_messages k entries) = Ok flags.

(** [w'] is [w] after exactly the calls [cs], in that order. *)
Definition Trace `{SinkAdapter} (w w' : World) (cs : list Call) : Prop :=
  calls w' = calls w ++ cs /\ console w' = console w.

(** The per-entry flags the sink returned over some calls, and how many
    of them report success, resp. an error. *)
Definition answered (cs : list Call) : list bool :=
  flat_map (fun c => match reply c with Ok flags => flags | Raise _ => [] end) cs.
Definition accepted (cs : list Call) : Z := len (filter negb (answered cs)).
Definition rejected (cs : list Call) : Z := len (filter (fun e : bool => e) (answered cs)).

(** A batch within both limits. *)
Definition fits (max_bytes max_count : Z) (b : list str) : Prop :=
  len b <= max_count /\
  exists n, estimate_batch_bytes b = Ok n /\ n <= max_bytes.

(** A payload whose own estimate exceeds the byte limit. *)
Definition oversized (max_bytes : Z) (p : str) : Prop :=
  exists n, estimate_batch_bytes [p] = Ok n /\ max_bytes < n.

(** Within the limits, or too short to be split further. *)
Definition tidy (max_bytes max_count : Z) (b : list str) : Prop :=
  fits max_bytes max_count b \/ (length b <= 1)%nat.

(** Greedy packing: no batch could have taken the first payload of the
    batch that follows it. *)
Fixpoint greedy (max_bytes max_count : Z) (bs : list (list str)) : Prop :=
  match bs with
  | b1 :: rest =>
      match rest with
      | b2 :: _ =>
          (exists p t, b2 = p :: t /\ ~ fits max_bytes max_count (b1 ++ [p]))
          /\ greedy max_bytes max_count rest
      | [] => True
      end
  | [] => True
  end.

(** The two ways a turn of the packing loop leaves its variables. *)
Definition keep (v : Packing) (p : str) : Packing :=
  {| total_sent := total_sent v; total_failed := total_failed v;
     nbatches := nbatches v; batch := batch v ++ [p] |}.

Definition close (v : Packing) (p : str) (sf : Z * Z) : Packing :=
  {| total_sent := total_sent v + fst sf;
     total_failed := total_failed v + snd sf;
     nbatches := nbatches v + 1; batch := [p] |}.

(** What is required of a recorded call: a non-empty batch of UTF-8 text,
    within the limits unless it is a single payload. *)
Definition well_packed (max_bytes max_count : Z) (b : list str) : Prop :=
  b <> [] /\ forallb encodable b = true /\ tidy max_bytes max_count b.

(** The buffer object once a flush has gone through. *)
Definition flushed (h : Function.HubBuffer) (s f b : Z)
  : Function.HubBuffer :=
  {| Function.max_count := Function.max_count h;
     Function.max_bytes := Function.max_bytes h;
     Function.buf := [];
     Function.sent := Function.sent h + s;
     Function.failed := Function.failed h + f;
     Function.batches := Function.batches h + b |}.

(** The bound as the limits read: within both, or one payload that is
    oversized on its own. *)
Definition within_limits (max_bytes max_count : Z) (b : list str) : Prop :=
  fits max_bytes max_count b \/ exists p, b = [p] /\ oversized max_bytes p.

(** Whether the body of an event fails to decode. *)
Definition undecodable (e : Function.EventHubEvent) : bool :=
  match decode (Function.get_body e) with
  | Raise _ => true
  | Ok _ => false
  end.

(** The payload an event contributes: its decoded body, unless decoding
    fails or the body is empty or blank. *)
Definition payload_of (e : Function.EventHubEvent) : list str :=
  match decode (Function.get_body e) with
  | Ok (c :: s) => if isspace (c :: s) then [] else [c :: s]
  | _ => []
  end.

Definition delivered (events : list Function.EventHubEvent) : list str :=
  flat_map payload_of events.

Definition decode_failures (events : list Function.EventHubEvent) : Z :=
  len (filter undecodable events).

(** * Sinks and inputs to run the model on *)

(** A sink that takes every entry. *)
Definition reliable_sink : SinkAdapter :=
  {| Sink := unit;
     put_messages := fun _ entries => (Ok (map (fun _ => false) entries), tt) |}.

(** A sink that answers but refuses every entry. *)
Definition refusing_sink : SinkAdapter :=
  {| Sink := unit;
     put_messages := fun _ entries => (Ok (map (fun _ => true) entries), tt) |}.

(** A sink that is down: every call raises. *)
Definition down_sink : SinkAdapter :=
  {| Sink := unit;
     put_messages := fun _ _ => (Raise (OtherException 503), tt) |}.

Definition world_of (SA : SinkAdapter) (k : @Sink SA) (cs : list Call) : @World SA :=
  {| sink := k; calls := cs; console := [] |}.

Definition fresh_world (SA : SinkAdapter) (k : @Sink SA) : @World SA :=
  world_of SA k [].

(** The payloads ["a"], ["b"] and ["c"]. *)
Definition pa : str := [97%N].
Definition pb : str := [98%N].
Definition pc : str := [99%N].

(** Events carrying ["a"], ["b"], ["c"], and one whose body, the single
    byte 0xFF, is not UTF-8. *)
Definition ev_a : Function.EventHubEvent := {| Function.get_body := [97%N] |}.
Definition ev_b : Function.EventHubEvent := {| Function.get_body := [98%N] |}.
Definition ev_c : Function.EventHubEvent := {| Function.get_body := [99%N] |}.
Definition ev_bad : Function.EventHubEvent := {| Function.get_body := [255%N] |}.

(** The world once a line has been printed. *)
Definition printed `{SinkAdapter} (line : Output) (w : World) : World :=
  {| sink := sink w; calls := calls w; console := console w ++ [line] |}.

(** A drainer in log-only mode holding the given buffer. *)
Definition log_only_drainer (buffer : list str) : Consumer.EventHubDrainer :=
  {| Consumer.oci_sender := None;
     Consumer.max_batch_bytes := 1048576;
     Consumer.max_batch_count := 100;
     Consumer._buffer := buffer;
     Consumer.messages_processed := len buffer;
     Consumer.messages_sent := 0;
     Consumer.messages_failed := 0;
     Consumer.batches := 0 |}.

(** A sink that refuses the first entry of each request and every second
    entry after it, and takes the others. *)
Fixpoint alternate (refuse : bool) (entries : list str) : list bool :=
  match entries with
  | [] => []
  | _ :: rest => refuse :: alternate (negb refuse) rest
  end.

Definition picky_sink : SinkAdapter :=
  {| Sink := unit;
     put_messages := fun _ entries => (Ok (alternate true entries), tt) |}.

(** A sink that answers its first call and is down from then on; its
    state is the number of calls it has taken. *)
Definition failing_sink : SinkAdapter :=
  {| Sink := nat;
     put_messages := fun k entries =>
       match k with
       | O => (Ok (map (fun _ => false) entries), S k)
       | S _ => (Raise (OtherException 503), S k)
       end |}.

(** A sink that is down for its first call and answers from then on. *)
Definition recovering_sink : SinkAdapter :=
  {| Sink := nat;
     put_messages := fun k entries =>
       match k with
       | O => (Raise (OtherException 503), S k)
       | S _ => (Ok (map (fun _ => false) entries), S k)
       end |}.

(** An event whose body is two spaces. *)
Definition ev_blank : Function.EventHubEvent := {| Function.get_body := [32%N; 32%N] |}.

Definition settings_2_1000 : Function.Settings :=
  {| Function.OCI_SDK_OK := true; Function.configure := Ok (2, 1000) |}.

(** * Vocabulary of the further properties *)

(** A sink that returns one result per entry it was handed. *)
Definition one_result_per_entry `{SinkAdapter} : Prop :=
  forall (k : Sink) (entries : list str) (flags : list bool),
    fst (put_messages k entries) = Ok flags -> length flags = length entries.

(** The call was answered. *)
Definition answered_call (c : Call) : Prop := exists flags, reply c = Ok flags.

(** The answer to the call has one result per payload of its batch. *)
Definition matched_call (c : Call) : Prop :=
  forall flags, reply c = Ok flags -> length flags = length (payloads_of c).

(** The payload was in a batch of one of the calls that were answered. *)
Definition delivered_by (cs : list Call) (x : str) : Prop :=
  exists c, In c cs /\ answered_call c /\ In x (payloads_of c).

(** The body of the event decodes to nothing or to whitespace only. *)
Definition blank (e : Function.EventHubEvent) : bool :=
  match decode (Function.get_body e) with
  | Ok [] => true
  | Ok (c :: s) => isspace (c :: s)
  | Raise _ => false
  end.

(** A drainer once a flush has gone through. *)
Definition drained (d : Consumer.EventHubDrainer) (s f b : Z) : Consumer.EventHubDrainer :=
  Consumer.add_batches b (Consumer.add_failed f (Consumer.add_sent s (Consumer.clear_buffer d))).

(** The text [needle] occurs in [hay]. *)
Definition occurs_in (needle hay : str) : Prop :=
  exists pre post, hay = pre ++ needle ++ post.

(** The setting is not set, or set to the empty string. *)
Definition unset (v : option str) : Prop := v = None \/ v = Some [].

(** The value read under a name, or under its alternative when the first
    is unset. *)
Definition read_from (getenv : Environ) (name alternative : Setting) (v : str) : Prop :=
  getenv name = Some v \/ (unset (getenv name) /\ getenv alternative = Some v).

(** No whitespace at either end. *)
Definition trimmed (s : str) : Prop :=
  (forall c t, s = c :: t -> is_whitespace c = false)
  /\ (forall t c, s = t ++ [c] -> is_whitespace c = false).

(** A name as [get_eventhub_list] returns them: not empty, no comma,
    no whitespace at either end. *)
Definition hub_name (s : str) : Prop :=
  s <> [] /\ ~ In 44%N s /\ trimmed s.

(** The names written with a comma between them. *)
Fixpoint comma_separated (names : list str) : str :=
  match names with
  | [] => []
  | [n] => n
  | n :: rest => n ++ 44%N :: comma_separated rest
  end.

(** Settings with only [EventHubNamesCsv] set. *)
Definition only_names (csv : str) : Environ :=
  fun name => match name with EventHubNamesCsv => Some csv | _ => None end.

(** Settings where [MessageEndpoint] is set to the empty string and the
    endpoint ["e"] is given under the alternative name; the stream OCID
    is ["s"], the connection string ["c"], the hubs ["a, b"]. *)
Definition settings_with_alternative : Environ :=
  fun name =>
    match name with
    | EventHubsConnectionString => Some [99%N]
    | MessageEndpoint => Some []
    | OCI_MESSAGE_ENDPOINT => Some [101%N]
    | StreamOcid => Some [115%N]
    | OCI_STREAM_OCID => None
    | EventHubNamesCsv => Some [97%N; 44%N; 32%N; 98%N]
    end.

(** The text an event hands over, if it is an event and its body is
    text. *)
Definition text_of (event : option EventData) : list str :=
  match event with
  | Some ev => match body_as_str ev with
               | Ok body => [body]
               | Raise _ => []
               end
  | None => []
  end.

(** The texts and the events among what was handed to [on_event]. *)
Definition texts (deliveries : list (Z * option EventData)) : list str :=
  flat_map (fun d => text_of (snd d)) deliveries.

Definition events_of (deliveries : list (Z * option EventData)) : list EventData :=
  flat_map (fun d => match snd d with Some ev => [ev] | None => [] end) deliveries.

(** The events of the checkpoint attempts, in order. *)
Definition checkpointed `{PartitionContext} (k : Checkpointing) : list EventData :=
  map fst (attempts k).

(** A checkpoint store that takes every checkpoint, and one that
    refuses every one. *)
Definition steady_checkpoints : PartitionContext :=
  {| Checkpoints := unit; update_checkpoint := fun _ _ => (Ok tt, tt) |}.

Definition broken_checkpoints : PartitionContext :=
  {| Checkpoints := unit;
     update_checkpoint := fun _ _ => (Raise (OtherException 500), tt) |}.

Definition checkpoints_of (PC : PartitionContext) (st : @Checkpoints PC)
           (tried : list (EventData * result unit)) : @Checkpointing PC :=
  {| store := st; attempts := tried |}.

Definition no_checkpoints (PC : PartitionContext) (st : @Checkpoints PC)
  : @Checkpointing PC :=
  checkpoints_of PC st [].

(** Events with the texts ["a"] and ["b"], and one whose body is not
    text. *)
Definition event_a : EventData := {| body_as_str := Ok pa |}.
Definition event_b : EventData := {| body_as_str := Ok pb |}.
Definition event_binary : EventData := {| body_as_str := Raise (OtherException 22) |}.

(** What a receive hands over: ["a"], a wait without event, an event
    that is not text, then ["b"]. *)
Definition four_deliveries : list (Z * option EventData) :=
  [(1, Some event_a); (2, None); (3, Some event_binary); (4, Some event_b)].

(** A hub with these deliveries whose receive ends by raising. *)
Definition interrupted_hub : Timer.Hub :=
  {| Timer.from_connection_string := Ok tt;
     Timer.started := 0;
     Timer.deliveries := four_deliveries;
     Timer.ending := Raise (OtherException 104) |}.

(** A hub with these deliveries whose receive returns. *)
Definition closed_hub : Timer.Hub :=
  {| Timer.from_connection_string := Ok tt;
     Timer.started := 0;
     Timer.deliveries := four_deliveries;
     Timer.ending := Ok tt |}.

(** A run of the timer-driven function over the hubs ["a"] and ["b"]
    with limits of two messages and 1000 bytes. *)
Definition runtime_a_b : Timer.Runtime :=
  {| Timer.EH_SDK_OK := true;
     Timer.OCI_SDK_OK := true;
     Timer.getenv := settings_with_alternative;
     Timer.configure := fun _ _ => Ok (2, 1000);
     Timer.hub_named := fun _ => closed_hub |}.

(** The session of a drainer once a line has been printed, and once a
    checkpoint has been attempted for an event. *)
Definition noticed `{PartitionContext} (line : Consumer.Notice) (x : Consumer.Session)
  : Consumer.Session :=
  {| Consumer._last_event_ts := Consumer._last_event_ts x;
     Consumer.notices := Consumer.notices x ++ [line];
     Consumer.partition_context := Consumer.partition_context x |}.

Definition checkpoint_tried `{PartitionContext} (event : EventData) (x : Consumer.Session)
  : Consumer.Session :=
  {| Consumer._last_event_ts := Consumer._last_event_ts x;
     Consumer.notices := Consumer.notices x;
     Consumer.partition_context := snd (checkpoint event (Consumer.partition_context x)) |}.

(** The session after the [except] clause of [on_event] has run. *)
Definition after_error `{PartitionContext} (e : exn) (event : EventData)
           (x : Consumer.Session) : Consumer.Session :=
  checkpoint_tried event (noticed (Consumer.ErrorProcessing e) x).

(** The progress line, when the count of processed messages calls for it. *)
Definition progress_of (d : Consumer.EventHubDrainer) : list Consumer.Notice :=
  if Consumer.messages_processed d mod 100 =? 0
  then [Consumer.Progress (Consumer.messages_processed d) (Consumer.messages_sent d)
          (Consumer.messages_failed d)]
  else [].

Definition session_of (PC : PartitionContext) (ts : Z) (lines : list Consumer.Notice)
           (k : @Checkpointing PC) : @Consumer.Session PC :=
  {| Consumer._last_event_ts := ts; Consumer.notices := lines;
     Consumer.partition_context := k |}.

(** A drainer with a sender and limits of two messages and 1000 bytes,
    holding the given buffer. *)
Definition sending_drainer (buffer : list str) : Consumer.EventHubDrainer :=
  {| Consumer.oci_sender := Some Consumer.StreamSender;
     Consumer.max_batch_bytes := 1000;
     Consumer.max_batch_count := 2;
     Consumer._buffer := buffer;
     Consumer.messages_processed := len buffer;
     Consumer.messages_sent := 0;
     Consumer.messages_failed := 0;
     Consumer.batches := 0 |}.

(** A receive of the drain script with the four deliveries, ended by the
    watchdog closing the client, resp. by an exception. *)
Definition closed_reception : Consumer.Reception :=
  {| Consumer.deliveries := four_deliveries; Consumer.ending := Ok tt |}.

Definition interrupted_reception : Consumer.Reception :=
  {| Consumer.deliveries := four_deliveries;
     Consumer.ending := Raise (OtherException 104) |}.

(** * The encoders *)

Lemma list_ind3 {A : Type} (P : list A -> Prop) :
  P [] -> (forall a, P [a]) -> (forall a b, P [a; b]) ->
  (forall a b c l, P l -> P (a :: b :: c :: l)) ->
  forall l, P l.
Proof.
  intros H0 H1 H2 H3.
  fix IH 1.
  intros [|a [|b [|c l]]];
    [apply H0 | apply H1 | apply H2 | apply H3, IH].
Qed.

Lemma len_nil {A : Type} : len (@nil A) = 0.
Proof. reflexivity. Qed.

Lemma len_cons {A : Type} (x : A) (l : list A) : len (x :: l) = len l + 1.
Proof. unfold len. simpl length. lia. Qed.

Lemma len_app {A : Type} (l1 l2 : list A) : len (l1 ++ l2) = len l1 + len l2.
Proof. unfold len. rewrite length_app. lia. Qed.

Lemma len_nonneg {A : Type} (l : list A) : 0 <= len l.
Proof. unfold len. lia. Qed.

Lemma b64encode_length (bs : bytes) : len (b64encode bs) = 4 * ceil3 (len bs).
Proof.
  induction bs as [|a|a b|a b c l IH] using list_ind3.
  - reflexivity.
  - reflexivity.
  - reflexivity.
  - cbn [b64encode]. rewrite !len_cons, IH. unfold ceil3.
    replace (len l + 1 + 1 + 1 + 2) with (len l + 2 + 1 * 3) by lia.
    rewrite Z.div_add by lia. lia.
Qed.

Lemma b64char_ascii (i : N) : (b64char i < 0x80)%N.
Proof.
  unfold b64char.
  destruct (N.ltb_spec i 26); [lia|].
  destruct (N.ltb_spec i 52); [lia|].
  destruct (N.ltb_spec i 62); [lia|].
  destruct (N.eqb_spec i 62); lia.
Qed.

Lemma b64encode_ascii (bs : bytes) : Forall (fun c => (c < 0x80)%N) (b64encode bs).
Proof.
  induction bs as [|a|a b|a b c l IH] using list_ind3; cbn [b64encode];
    repeat (constructor; try apply b64char_ascii); try (unfold b64pad; lia); auto.
Qed.

Lemma decode_ascii (l : bytes) : Forall (fun c => (c < 0x80)%N) l -> decode l = Ok l.
Proof.
  induction 1 as [|c l Hc _ IH]; [reflexivity|].
  cbn [decode]. apply N.ltb_lt in Hc. rewrite Hc, IH. reflexivity.
Qed.

Lemma entry_value_eq (p : str) :
  entry_value p = Exc.bind (encode p) (fun b => Ok (b64encode b)).
Proof.
  unfold entry_value. destruct (encode p) as [b|e]; cbn [Exc.bind]; [|reflexivity].
  apply decode_ascii, b64encode_ascii.
Qed.

Lemma encode_char_ok (c : N) :
  is_surrogate c = false -> exists b, encode_char c = Ok b.
Proof.
  intros Hc. unfold encode_char. rewrite Hc.
  destruct (c <? 0x80)%N; [eauto|].
  destruct (c <? 0x800)%N; [eauto|].
  destruct (c <? 0x10000)%N; eauto.
Qed.

Lemma encode_ok (s : str) : encodable s = true -> exists b, encode s = Ok b.
Proof.
  unfold encode, encodable.
  induction s as [|c s IH]; intros Hs; [cbn; eauto|].
  cbn [forallb] in Hs. apply andb_true_iff in Hs as [Hc Hs].
  apply negb_true_iff in Hc.
  destruct (encode_char_ok c Hc) as [b Hb].
  destruct (IH Hs) as [b' Hb'].
  cbn [Exc.mapM]. rewrite Hb. cbn [Exc.bind].
  destruct (Exc.mapM encode_char s) as [chunks|e]; cbn [Exc.bind] in *; [eauto|discriminate].
Qed.

Lemma encodable_of_encode (s : str) (b : bytes) : encode s = Ok b -> encodable s = true.
Proof.
  unfold encode, encodable. revert b.
  induction s as [|c s IH]; intros b Hb; [reflexivity|].
  cbn [Exc.mapM] in Hb. cbn [forallb].
  destruct (encode_char c) as [x|e] eqn:Hc; cbn [Exc.bind] in Hb; [|discriminate].
  destruct (Exc.mapM encode_char s) as [chunks|e]; cbn [Exc.bind] in *; [|discriminate].
  rewrite (IH _ eq_refl), andb_true_r.
  unfold encode_char in Hc.
  destruct (is_surrogate c) eqn:Hs; [|reflexivity].
  unfold is_surrogate, in_range in Hs.
  apply andb_true_iff in Hs as [H1 H2].
  apply N.leb_le in H1. apply N.leb_le in H2.
  destruct (N.ltb_spec c 0x80); [lia|].
  destruct (N.ltb_spec c 0x800); [lia|].
  destruct (N.ltb_spec c 0x10000); [discriminate|lia].
Qed.

Ltac nbool :=
  repeat match goal with
    | H : (_ && _) = true |- _ => apply andb_true_iff in H; destruct H
    | H : (_ <=? _)%N = true |- _ => apply N.leb_le in H
    | H : (_ <=? _)%N = false |- _ => apply N.leb_gt in H
    | H : (_ <? _)%N = true |- _ => apply N.ltb_lt in H
    | H : (_ <? _)%N = false |- _ => apply N.ltb_ge in H
    | H : (_ =? _)%N = true |- _ => apply N.eqb_eq in H
    | H : (_ =? _)%N = false |- _ => apply N.eqb_neq in H
    end.

Lemma bind_cons_inv (r : result str) (c : N) (s : str) :
  Exc.bind r (fun s0 => Ok (c :: s0)) = Ok s ->
  exists s0, r = Ok s0 /\ s = c :: s0.
Proof.
  destruct r as [s0|e]; cbn [Exc.bind]; intros Hs; [|discriminate].
  injection Hs as <-. eauto.
Qed.

Lemma encodable_cons (c : N) (s : str) :
  is_surrogate c = false -> encodable s = true -> encodable (c :: s) = true.
Proof.
  intros Hc Hs. unfold encodable in *. cbn [forallb]. rewrite Hc, Hs. reflexivity.
Qed.

Lemma decode_encodable_upto (n : nat) :
  forall bs s, (length bs <= n)%nat -> decode bs = Ok s -> encodable s = true.
Proof.
  induction n as [|n IH]; intros bs s Hlen Hd.
  { destruct bs; [|simpl in Hlen; lia]. injection Hd as <-. reflexivity. }
  destruct bs as [|b0 r0]; [injection Hd as <-; reflexivity|].
  cbn [decode] in Hd. cbn [length] in Hlen.
  destruct (b0 <? 0x80)%N eqn:H1.
  { apply bind_cons_inv in Hd as (s0 & Hd & ->).
    apply encodable_cons; [|apply (IH r0); [lia|assumption]].
    apply not_true_is_false; intros Hs. unfold is_surrogate, in_range in Hs.
    nbool. lia. }
  destruct (in_range 0xC2 0xDF b0) eqn:H2.
  { destruct r0 as [|b1 r1]; [discriminate|].
    destruct (is_cont b1) eqn:C1; [|discriminate].
    apply bind_cons_inv in Hd as (s0 & Hd & ->). cbn [length] in Hlen.
    apply encodable_cons; [|apply (IH r1); [lia|assumption]].
    apply not_true_is_false; intros Hs.
    unfold is_surrogate, is_cont, in_range in *. nbool. lia. }
  destruct (in_range 0xE0 0xEF b0) eqn:H3.
  { destruct r0 as [|b1 [|b2 r2]]; try discriminate.
    destruct (in_range (second_lo b0) (second_hi b0) b1 && is_cont b2) eqn:C; [|discriminate].
    apply bind_cons_inv in Hd as (s0 & Hd & ->). cbn [length] in Hlen.
    apply encodable_cons; [|apply (IH r2); [lia|assumption]].
    apply not_true_is_false; intros Hs.
    unfold is_surrogate, is_cont, in_range, second_lo, second_hi in *.
    destruct (N.eqb_spec b0 0xE0); destruct (N.eqb_spec b0 0xED);
      destruct (N.eqb_spec b0 0xF0); destruct (N.eqb_spec b0 0xF4);
      nbool; lia. }
  destruct (in_range 0xF0 0xF4 b0) eqn:H4; [|discriminate].
  destruct r0 as [|b1 [|b2 [|b3 r3]]]; try discriminate.
  destruct (in_range (second_lo b0) (second_hi b0) b1 && is_cont b2 && is_cont b3) eqn:C;
    [|discriminate].
  apply bind_cons_inv in Hd as (s0 & Hd & ->). cbn [length] in Hlen.
  apply encodable_cons; [|apply (IH r3); [lia|assumption]].
  apply not_true_is_false; intros Hs.
  unfold is_surrogate, is_cont, in_range, second_lo, second_hi in *.
  destruct (N.eqb_spec b0 0xE0); destruct (N.eqb_spec b0 0xED);
    destruct (N.eqb_spec b0 0xF0); destruct (N.eqb_spec b0 0xF4);
    nbool; lia.
Qed.

Lemma decode_encodable (bs : bytes) (s : str) : decode bs = Ok s -> encodable s = true.
Proof. apply (decode_encodable_upto (length bs)). lia. Qed.

(** [sum] over a non-empty list. *)
Lemma fold_add_shift (xs : list Z) (a : Z) : fold_left Z.add xs a = a + fold_left Z.add xs 0.
Proof.
  revert a. induction xs as [|x xs IH]; intros a; cbn [fold_left]; [lia|].
  rewrite (IH (a + x)), (IH (0 + x)). lia.
Qed.

Lemma sum_cons (x : Z) (xs : list Z) : sum (x :: xs) = x + sum xs.
Proof. unfold sum. cbn [fold_left]. rewrite fold_add_shift. lia. Qed.

Lemma mapM_encoded_len (messages : list str) (encoded : list bytes) :
  Exc.mapM encode messages = Ok encoded ->
  Exc.mapM encoded_len messages = Ok (map (fun b => len (b64encode b)) encoded).
Proof.
  revert encoded. induction messages as [|m ms IH]; intros encoded He.
  - injection He as <-. reflexivity.
  - cbn [Exc.mapM] in *. unfold encoded_len at 1.
    destruct (encode m) as [b|e]; cbn [Exc.bind] in *; [|discriminate].
    destruct (Exc.mapM encode ms) as [bs|e]; cbn [Exc.bind] in *; [|discriminate].
    injection He as <-. rewrite (IH bs eq_refl). reflexivity.
Qed.

Lemma mapM_encode_total (messages : list str) :
  forallb encodable messages = true -> exists encoded, Exc.mapM encode messages = Ok encoded.
Proof.
  induction messages as [|m ms IH]; intros Hm; [cbn; eauto|].
  cbn [forallb] in Hm. apply andb_true_iff in Hm as [H1 H2].
  destruct (encode_ok m H1) as [b Hb]. destruct (IH H2) as [bs Hbs].
  cbn [Exc.mapM]. rewrite Hb, Hbs. cbn. eauto.
Qed.

Lemma estimate_total (messages : list str) :
  forallb encodable messages = true -> exists n, estimate_batch_bytes messages = Ok n.
Proof.
  intros Hm. destruct (mapM_encode_total messages Hm) as [bs Hbs].
  unfold estimate_batch_bytes. rewrite (mapM_encoded_len _ _ Hbs). cbn. eauto.
Qed.

Lemma mapM_entry_value_total (payloads : list str) :
  forallb encodable payloads = true -> exists es, Exc.mapM entry_value payloads = Ok es.
Proof.
  induction payloads as [|p ps IH]; intros Hp; [cbn; eauto|].
  cbn [forallb] in Hp. apply andb_true_iff in Hp as [H1 H2].
  destruct (encode_ok p H1) as [b Hb]. destruct (IH H2) as [es Hes].
  cbn [Exc.mapM]. rewrite entry_value_eq, Hb, Hes. cbn. eauto.
Qed.

Lemma mapM_entry_value_encodable (payloads es : list str) :
  Exc.mapM entry_value payloads = Ok es -> forallb encodable payloads = true.
Proof.
  revert es. induction payloads as [|p ps IH]; intros es He; [reflexivity|].
  cbn [Exc.mapM] in He. rewrite entry_value_eq in He.
  destruct (encode p) as [b|e] eqn:Hb; cbn [Exc.bind] in He; [|discriminate].
  destruct (Exc.mapM entry_value ps) as [es'|e]; cbn [Exc.bind] in He; [|discriminate].
  cbn [forallb]. rewrite (encodable_of_encode _ _ Hb), (IH _ eq_refl). reflexivity.
Qed.

Lemma estimate_encodable (messages : list str) (n : Z) :
  estimate_batch_bytes messages = Ok n -> forallb encodable messages = true.
Proof.
  unfold estimate_batch_bytes.
  destruct (Exc.mapM encoded_len messages) as [lens|e] eqn:Hl; [intros _|discriminate].
  revert lens Hl. induction messages as [|m ms IH]; intros lens Hl; [reflexivity|].
  cbn [Exc.mapM] in Hl. unfold encoded_len at 1 in Hl.
  destruct (encode m) as [b|e] eqn:Hb; cbn [Exc.bind] in Hl; [|discriminate].
  destruct (Exc.mapM encoded_len ms) as [ls|e]; cbn [Exc.bind] in Hl; [|discriminate].
  cbn [forallb]. rewrite (encodable_of_encode _ _ Hb), (IH _ eq_refl). reflexivity.
Qed.

(** * The sender *)

Section Sender.
Context `{SinkAdapter}.

Lemma Trace_refl (w : World) : Trace w w [].
Proof. split; [rewrite app_nil_r|]; reflexivity. Qed.

Lemma Trace_trans (w1 w2 w3 : World) (cs1 cs2 : list Call) :
  Trace w1 w2 cs1 -> Trace w2 w3 cs2 -> Trace w1 w3 (cs1 ++ cs2).
Proof.
  intros [A1 B1] [A2 B2]. split.
  - rewrite A2, A1, app_assoc. reflexivity.
  - congruence.
Qed.

Lemma Trace_dispatched (w w' : World) (cs : list Call) :
  Trace w w' cs -> dispatched w' = dispatched w ++ map payloads_of cs.
Proof. intros [A _]. unfold dispatched. rewrite A, map_app. reflexivity. Qed.

Lemma count_entries_from (flags : list bool) (s f : Z) :
  fold_left
    (fun sf (error : bool) =>
       if error then (fst sf, snd sf + 1) else (fst sf + 1, snd sf))
    flags (s, f)
  = (s + len (filter negb flags), f + len (filter (fun e : bool => e) flags)).
Proof.
  revert s f. induction flags as [|e flags IH]; intros s f.
  - cbn. f_equal; lia.
  - cbn [fold_left filter]. destruct e; cbn [negb fst snd]; rewrite IH, len_cons;
      f_equal; lia.
Qed.

Lemma count_entries_eq (flags : list bool) :
  count_entries flags
  = (len (filter negb flags), len (filter (fun e : bool => e) flags)).
Proof. unfold count_entries. rewrite count_entries_from. reflexivity. Qed.

Lemma answered_app (cs1 cs2 : list Call) :
  answered (cs1 ++ cs2) = answered cs1 ++ answered cs2.
Proof. unfold answered. apply flat_map_app. Qed.

Lemma accepted_app (cs1 cs2 : list Call) :
  accepted (cs1 ++ cs2) = accepted cs1 + accepted cs2.
Proof. unfold accepted. rewrite answered_app, filter_app, len_app. reflexivity. Qed.

Lemma rejected_app (cs1 cs2 : list Call) :
  rejected (cs1 ++ cs2) = rejected cs1 + rejected cs2.
Proof. unfold rejected. rewrite answered_app, filter_app, len_app. reflexivity. Qed.

Lemma accepted_nonneg (cs : list Call) : 0 <= accepted cs.
Proof. apply len_nonneg. Qed.

Lemma rejected_nonneg (cs : list Call) : 0 <= rejected cs.
Proof. apply len_nonneg. Qed.

(** What one call of [send_batch] does. *)
Lemma send_batch_spec (b : list str) (w : World) (r : result (Z * Z)) (w' : World) :
  Function.send_batch b w = (r, w') ->
  (b = [] /\ r = Ok (0, 0) /\ w' = w)
  \/ (b <> [] /\ w' = w /\ exists e, Exc.mapM entry_value b = Raise e /\ r = Raise e)
  \/ (b <> [] /\ forallb encodable b = true /\
      exists c, Trace w w' [c] /\ payloads_of c = b /\
        match reply c with
        | Ok flags =>
            r = Ok (accepted [c], rejected [c])
        | Raise e => r = Raise e
        end /\
        (never_raises -> exists flags, reply c = Ok flags)).
Proof.
  destruct b as [|p b].
  { cbn. intros E. injection E as <- <-. auto. }
  unfold Function.send_batch, St.bind, St.lift.
  destruct (Exc.mapM entry_value (p :: b)) as [es|e] eqn:Hes.
  2:{ intros E. injection E as <- <-. right; left.
      split; [discriminate|]. eauto. }
  unfold client_put_messages.
  destruct (put_messages (sink w) es) as [rp k] eqn:Hput.
  intros E. right; right. split; [discriminate|].
  split; [eapply mapM_entry_value_encodable; eassumption|].
  exists {| payloads_of := p :: b; reply := rp |}.
  destruct rp as [flags|e]; cbn in E; injection E as <- <-.
  - split; [split; reflexivity|]. split; [reflexivity|]. cbn [reply]. split.
    + unfold accepted, rejected, answered. cbn [flat_map reply].
      rewrite app_nil_r, count_entries_eq. reflexivity.
    + intros _. eauto.
  - split; [split; reflexivity|]. split; [reflexivity|]. cbn [reply].
    split; [reflexivity|].
    intros Hnr. destruct (Hnr (sink w) es) as [flags Hf].
    rewrite Hput in Hf. discriminate.
Qed.

Section Packing.
Variables max_bytes max_count : Z.

(** What one turn of the packing loop does. *)
Lemma pack_step_spec (v : Packing) (p : str) (w : World)
      (r : result Packing) (w' : World) :
  Function.pack_step max_bytes max_count v p w = (r, w') ->
  (fits max_bytes max_count (batch v ++ [p]) /\ r = Ok (keep v p) /\ w' = w)
  \/ (len (batch v ++ [p]) <= max_count /\ w' = w /\
      exists e, estimate_batch_bytes (batch v ++ [p]) = Raise e /\ r = Raise e)
  \/ (~ fits max_bytes max_count (batch v ++ [p]) /\
      (max_count < len (batch v ++ [p]) \/
       forallb encodable (batch v ++ [p]) = true) /\
      exists r0, Function.send_batch (batch v) w = (r0, w') /\
                 r = Exc.bind r0 (fun sf => Ok (close v p sf))).
Proof.
  unfold Function.pack_step.
  unfold St.bind at 1.
  destruct (len (batch v ++ [p]) >? max_count) eqn:Hc.
  - (* the count alone closes the batch *)
    unfold St.ret at 1. unfold St.bind.
    destruct (Function.send_batch (batch v) w) as [r0 w0] eqn:Hs.
    intros E. right; right. split; [|split].
    + intros [Hle _]. apply Z.gtb_lt in Hc. lia.
    + left. apply Z.gtb_lt in Hc. lia.
    + exists r0. destruct r0 as [sf|e]; injection E as <- <-; auto.
  - assert (Hle : len (batch v ++ [p]) <= max_count).
    { destruct (Z.gtb_spec (len (batch v ++ [p])) max_count); [discriminate|lia]. }
    unfold St.bind at 1, St.lift.
    destruct (estimate_batch_bytes (batch v ++ [p])) as [n|e] eqn:He.
    2:{ intros E. injection E as <- <-. right; left. eauto. }
    unfold St.ret at 1.
    destruct (n >? max_bytes) eqn:Hn.
    + unfold St.bind.
      destruct (Function.send_batch (batch v) w) as [r0 w0] eqn:Hs.
      intros E. right; right. split; [|split].
      * intros [_ (n' & Hn' & Hle')]. rewrite He in Hn'. injection Hn' as <-.
        apply Z.gtb_lt in Hn. lia.
      * right. eapply estimate_encodable; eassumption.
      * exists r0. destruct r0 as [sf|e]; injection E as <- <-; auto.
    + unfold St.ret. intros E. injection E as <- <-. left.
      repeat split; auto. exists n. split; [assumption|].
      destruct (Z.gtb_spec n max_bytes); [discriminate|lia].
Qed.
End Packing.
End Sender.

Section PackingLoop.
Context `{SinkAdapter}.
Variables max_bytes max_count : Z.

Lemma greedy_cons (b : list str) (L : list (list str)) (p : str) (ps : list str) :
  L <> [] -> Forall (fun x => x <> []) L -> concat L = p :: ps ->
  ~ fits max_bytes max_count (b ++ [p]) ->
  greedy max_bytes max_count L -> greedy max_bytes max_count (b :: L).
Proof.
  intros HL Hne Hc Hfit Hg.
  destruct L as [|b2 rest]; [contradiction|].
  cbn [greedy]. split; [|assumption].
  inversion Hne as [|? ? Hb2 _]; subst.
  destruct b2 as [|p0 t]; [contradiction|].
  cbn in Hc. injection Hc as -> _. eauto.
Qed.

Lemma forallb_encodable_snoc (b : list str) (p : str) (ps : list str) :
  forallb encodable (b ++ p :: ps) = true ->
  forallb encodable (b ++ [p]) = true.
Proof.
  rewrite !forallb_app. cbn [forallb]. intros Henc.
  apply andb_true_iff in Henc as [-> Henc].
  apply andb_true_iff in Henc as [-> _]. reflexivity.
Qed.

(** The packing loop from any point of its run: what was recorded, and
    what the loop variables hold when the loop comes to its end. *)
Lemma pack_loop_spec (ps : list str) :
  forall (v : Packing) (w : World) (r : result Packing) (w' : World),
    St.for_each (Function.pack_step max_bytes max_count) ps v w = (r, w') ->
    exists cs,
      Trace w w' cs
      /\ (tidy max_bytes max_count (batch v) ->
          Forall (fun c => well_packed max_bytes max_count (payloads_of c)) cs)
      /\ (forall c e, In c cs -> reply c = Raise e -> r = Raise e)
      /\ (forall v', r = Ok v' ->
            let L := map payloads_of cs ++ [batch v'] in
            concat L = batch v ++ ps
            /\ total_sent v' = total_sent v + accepted cs
            /\ total_failed v' = total_failed v + rejected cs
            /\ (tidy max_bytes max_count (batch v) ->
                tidy max_bytes max_count (batch v'))
            /\ (batch v <> [] \/ ps <> [] ->
                Forall (fun b => b <> []) L /\ greedy max_bytes max_count L)
            /\ (batch v <> [] -> nbatches v' = nbatches v + len cs)
            /\ (batch v = [] -> forall p rest, ps = p :: rest ->
                (fits max_bytes max_count [p] ->
                 nbatches v' = nbatches v + len cs)
                /\ (~ fits max_bytes max_count [p] ->
                    nbatches v' = nbatches v + len cs + 1)))
      /\ (forallb encodable (batch v ++ ps) = true ->
          (exists v', r = Ok v') \/ (exists c e, In c cs /\ reply c = Raise e))
      /\ (never_raises -> Forall (fun c => exists flags, reply c = Ok flags) cs).
Proof.
  induction ps as [|p ps IH]; intros v w r w' Hrun.
  { cbn in Hrun. injection Hrun as <- <-. exists [].
    split; [apply Trace_refl|]. split; [constructor|].
    split; [intros c e []|]. split; [|split; [eauto|constructor]].
    intros v' E. injection E as <-. cbn [map app concat].
    rewrite !app_nil_r. unfold accepted, rejected. cbn.
    split; [reflexivity|]. split; [lia|]. split; [lia|]. split; [auto|].
    split; [|split; [intros _; lia|intros _ ? ? [=]]].
    intros [Hne|Hne]; [|contradiction]. split; [|exact I].
    constructor; [assumption|constructor]. }
  cbn [St.for_each] in Hrun. unfold St.bind in Hrun.
  destruct (Function.pack_step max_bytes max_count v p w) as [r1 w1] eqn:Hstep.
  apply pack_step_spec in Hstep
    as [(Hfit & -> & ->) | [(Hle & -> & e & He & ->) | (Hnofit & Hwhy & r0 & Hsend & ->)]].
  - (* the candidate becomes the batch *)
    assert (Hne : batch v ++ [p] <> []).
    { intros E'. apply app_eq_nil in E' as [_ E']. discriminate. }
    destruct (IH _ _ _ _ Hrun) as (cs & Htr & Hwp & Hex & Hok & Htot & Hnr).
    exists cs. cbn [keep batch total_sent total_failed nbatches] in *.
    split; [assumption|]. split; [intros _; apply Hwp; left; assumption|].
    split; [assumption|]. split; [|split; [|assumption]].
    + intros v' E. destruct (Hok v' E) as (Hc & Hs & Hf & Ht & Hg & Hn & _).
      cbn zeta. split; [rewrite Hc, <- app_assoc; reflexivity|].
      split; [assumption|]. split; [assumption|].
      split; [intros _; apply Ht; left; assumption|].
      split; [intros _; apply Hg; left; assumption|].
      split; [intros _; apply Hn; assumption|].
      intros Hb p0 rest [= <- <-]. rewrite Hb in Hfit. cbn [app] in Hfit.
      split; [intros _; apply Hn; assumption|]. intros Hno. contradiction.
    + intros Henc. apply Htot. rewrite <- app_assoc. exact Henc.
  - (* the estimate of the candidate raises *)
    injection Hrun as <- <-. exists [].
    split; [apply Trace_refl|]. split; [constructor|].
    split; [intros c e' []|]. split; [intros v' E; discriminate|].
    split; [|intros _; constructor].
    intros Henc. exfalso. apply forallb_encodable_snoc in Henc.
    destruct (estimate_total _ Henc) as [n Hn]. congruence.
  - (* the batch is closed and [p] starts the next one *)
    apply send_batch_spec in Hsend
      as [(Hb & -> & ->) | [(Hb & -> & e & He & ->) | (Hb & Henc & c & Htr1 & Hpc & Hrep & Hnr1)]].
    + (* nothing to send yet *)
      cbn [Exc.bind] in Hrun.
      destruct (IH _ _ _ _ Hrun) as (cs & Htr & Hwp & Hex & Hok & Htot & Hnr).
      exists cs. cbn [close batch total_sent total_failed nbatches fst snd] in *.
      split; [assumption|].
      split; [intros _; apply Hwp; right; cbn; lia|].
      split; [assumption|]. split; [|split; [|assumption]].
      * intros v' E. destruct (Hok v' E) as (Hc & Hs & Hf & Ht & Hg & Hn & _).
        cbn zeta. rewrite Hb in *. cbn [app] in *. split; [exact Hc|].
        split; [lia|]. split; [lia|].
        split; [intros _; apply Ht; right; cbn; lia|].
        split; [intros _; apply Hg; left; discriminate|].
        split; [intros Hne; contradiction|].
        intros _ p0 rest [= <- <-].
        split; [intros Hyes; contradiction|].
        intros _. rewrite Hn by discriminate. lia.
      * intros Henc. apply Htot. rewrite Hb in Henc. exact Henc.
    + (* the batch cannot be encoded *)
      cbn [Exc.bind] in Hrun. injection Hrun as <- <-. exists [].
      split; [apply Trace_refl|]. split; [constructor|].
      split; [intros c e' []|]. split; [intros v' E; discriminate|].
      split; [|intros _; constructor].
      intros Henc. exfalso.
      rewrite forallb_app in Henc. apply andb_true_iff in Henc as [Henc _].
      destruct (mapM_entry_value_total _ Henc) as [es Hes]. congruence.
    + destruct (reply c) as [flags|e] eqn:Hrc.
      * (* the sink answered *)
        subst r0. cbn [Exc.bind] in Hrun.
        destruct (IH _ _ _ _ Hrun) as (cs & Htr & Hwp & Hex & Hok & Htot & Hnr).
        exists ([c] ++ cs).
        cbn [close batch total_sent total_failed nbatches fst snd] in *.
        split; [eapply Trace_trans; eassumption|].
        split.
        { intros Htidy. constructor.
          - rewrite Hpc. repeat split; assumption.
          - apply Hwp. right. cbn. lia. }
        split.
        { intros c' e [<-|Hin] Hr; [congruence|]. eapply Hex; eassumption. }
        split; [|split].
        { intros v' E. destruct (Hok v' E) as (Hc & Hs & Hf & Ht & Hg & Hn & _).
          destruct Hg as (Hg1 & Hg2); [left; discriminate|].
          cbn zeta in *.
          rewrite accepted_app, rejected_app, len_app.
          change (len [c]) with 1.
          cbn [map app concat]. rewrite Hpc.
          split; [rewrite Hc; reflexivity|].
          split; [lia|]. split; [lia|].
          split; [intros _; apply Ht; right; cbn; lia|].
          split.
          { intros _. split; [constructor; assumption|].
            eapply greedy_cons; try eassumption.
            intros E'. apply app_eq_nil in E' as [_ E']. discriminate. }
          split; [intros _; rewrite Hn by discriminate; lia|].
          intros Hb'. contradiction. }
        { intros Henc'.
          rewrite forallb_app in Henc'. apply andb_true_iff in Henc' as [_ Henc'].
          destruct (Htot Henc') as [Hv|(c' & e & Hin & Hr)]; [left; assumption|].
          right. exists c', e. split; [right|]; assumption. }
        { intros Hnever. constructor; [eauto|apply Hnr; assumption]. }
      * (* the sink raised *)
        subst r0. cbn [Exc.bind] in Hrun. injection Hrun as <- <-.
        exists [c]. split; [assumption|].
        split.
        { intros Htidy. constructor; [|constructor].
          rewrite Hpc. repeat split; assumption. }
        split.
        { intros c' e' [<-|[]] Hr. congruence. }
        split; [intros v' E; discriminate|].
        split.
        { intros _. right. exists c, e. split; [left; reflexivity|assumption]. }
        intros Hnever. destruct (Hnr1 Hnever) as [flags Hf]. discriminate.
Qed.
End PackingLoop.

Section SendWithLimits.
Context `{SinkAdapter}.
Variables max_bytes max_count : Z.

Lemma forallb_concat_last {A : Type} (f : A -> bool) (L : list (list A)) (b : list A) :
  forallb f (concat (L ++ [b])) = true -> forallb f b = true.
Proof.
  rewrite concat_app, forallb_app. cbn [concat]. rewrite app_nil_r.
  intros E. apply andb_true_iff in E as [_ E]. exact E.
Qed.

(** [send_with_limits], whatever the sink does. *)
Lemma send_with_limits_spec (ps : list str) (w : World)
      (r : result (Z * Z * Z)) (w' : World) :
  Function.send_with_limits ps max_bytes max_count w = (r, w') ->
  exists cs,
    Trace w w' cs
    /\ Forall (fun c => well_packed max_bytes max_count (payloads_of c)) cs
    /\ (forall c e, In c cs -> reply c = Raise e -> r = Raise e)
    /\ (forall s f b, r = Ok (s, f, b) ->
          concat (map payloads_of cs) = ps
          /\ s = accepted cs /\ f = rejected cs
          /\ greedy max_bytes max_count (map payloads_of cs)
          /\ (ps = [] -> b = 0)
          /\ (forall p rest, ps = p :: rest ->
              (fits max_bytes max_count [p] -> b = len cs)
              /\ (~ fits max_bytes max_count [p] -> b = len cs + 1)))
    /\ (forallb encodable ps = true ->
        (exists sfb, r = Ok sfb) \/ (exists c e, In c cs /\ reply c = Raise e))
    /\ (never_raises -> Forall (fun c => exists flags, reply c = Ok flags) cs)
    /\ (forallb encodable ps = true -> ps <> [] -> cs <> []).
Proof.
  destruct ps as [|p0 rest0].
  { cbn. intros E. injection E as <- <-. exists [].
    split; [apply Trace_refl|]. split; [constructor|].
    split; [intros c e []|]. split.
    - intros s f b [= <- <- <-]. cbn.
      split; [reflexivity|]. split; [reflexivity|]. split; [reflexivity|].
      split; [exact I|]. split; [reflexivity|]. intros ? ? [=].
    - split; [eauto|]. split; [constructor|]. intros _ Hne. contradiction. }
  set (ps := p0 :: rest0) in *.
  unfold Function.send_with_limits, St.bind.
  destruct (St.for_each _ ps _ w) as [r1 w1] eqn:Hloop.
  apply pack_loop_spec in Hloop as (cs & Htr & Hwp & Hex & Hok & Htot & Hnr).
  cbn [batch total_sent total_failed nbatches app] in *.
  specialize (Hwp (or_intror (Nat.le_0_l 1))).
  destruct r1 as [v'|e].
  2:{ intros E. injection E as <- <-. exists cs.
      split; [assumption|]. split; [assumption|].
      split; [intros c e' Hin Hr; injection (Hex c e' Hin Hr) as ->; reflexivity|].
      split; [intros ? ? ? [=]|]. split; [|split; [assumption|]].
      - intros Henc. destruct (Htot Henc) as [[? [=]]|Hc]. right; assumption.
      - intros Henc _ ->. destruct (Htot Henc) as [[? [=]]|(c & ? & [] & _)]. }
  destruct (Hok v' eq_refl) as (Hc & Hs & Hf & Ht & Hg & _ & Hn). cbn zeta in *.
  destruct Hg as [Hg1 Hg2]; [right; discriminate|].
  specialize (Ht (or_intror (Nat.le_0_l 1))).
  specialize (Hn eq_refl p0 rest0 eq_refl).
  assert (Hbv : batch v' <> []).
  { apply Forall_app in Hg1 as [_ Hl]. inversion Hl; assumption. }
  unfold Function.pack_finish.
  destruct (batch v') as [|q t] eqn:Hb; [contradiction|]. rewrite <- Hb in *.
  unfold St.bind.
  destruct (Function.send_batch (batch v') w1) as [r0 w0] eqn:Hsend.
  apply send_batch_spec in Hsend
    as [(Hb0 & _) | [(_ & -> & e & He & ->) | (_ & Henc & c & Htr1 & Hpc & Hrep & Hnr1)]];
    [contradiction| |].
  - (* the last batch cannot be encoded *)
    intros E. injection E as <- <-. exists cs.
    split; [assumption|]. split; [assumption|].
    split; [intros c e' Hin Hr; discriminate (Hex c e' Hin Hr)|].
    split; [intros ? ? ? [=]|].
    assert (Hno : forallb encodable ps = true -> False).
    { intros Henc. rewrite <- Hc in Henc. apply forallb_concat_last in Henc.
      destruct (mapM_entry_value_total _ Henc) as [es Hes]. congruence. }
    split; [intros Henc; destruct (Hno Henc)|].
    split; [assumption|]. intros Henc. destruct (Hno Henc).
  - (* the last batch goes to the sink *)
    assert (HL : map payloads_of (cs ++ [c]) = map payloads_of cs ++ [batch v']).
    { rewrite map_app. cbn [map]. rewrite Hpc. reflexivity. }
    assert (Hwp' : Forall (fun c0 => well_packed max_bytes max_count (payloads_of c0))
                     (cs ++ [c])).
    { apply Forall_app. split; [assumption|]. constructor; [|constructor].
      rewrite Hpc. repeat split; assumption. }
    assert (Hne' : cs ++ [c] <> []).
    { intros E'. apply app_eq_nil in E' as [_ E']. discriminate. }
    destruct (reply c) as [flags|e] eqn:Hrc; subst r0; intros E;
      injection E as <- <-; exists (cs ++ [c]).
    + split; [eapply Trace_trans; eassumption|]. split; [assumption|].
      split.
      { intros c' e Hin Hr. apply in_app_or in Hin as [Hin|[<-|[]]].
        - discriminate (Hex c' e Hin Hr).
        - congruence. }
      split.
      { intros s f b [= <- <- <-]. rewrite HL, accepted_app, rejected_app, len_app.
        cbn [fst snd]. change (len [c]) with 1.
        split; [assumption|]. split; [lia|]. split; [lia|].
        split; [assumption|]. split; [intros [=]|].
        intros p rest [= <- <-]. destruct Hn as [Hn1 Hn2].
        split; intros Hfit; [rewrite (Hn1 Hfit)|rewrite (Hn2 Hfit)]; lia. }
      split; [eauto|].
      split; [|intros _ _; assumption].
      intros Hnever. apply Forall_app. split; [apply Hnr; assumption|].
      constructor; [eauto|constructor].
    + split; [eapply Trace_trans; eassumption|]. split; [assumption|].
      split.
      { intros c' e' Hin Hr. apply in_app_or in Hin as [Hin|[<-|[]]].
        - discriminate (Hex c' e' Hin Hr).
        - congruence. }
      split; [intros ? ? ? [=]|].
      split.
      { intros _. right. exists c, e. split; [|assumption].
        apply in_or_app. right. left. reflexivity. }
      split; [|intros _ _; assumption].
      intros Hnever. destruct (Hnr1 Hnever) as [flags Hfl]. discriminate.
Qed.

(** With a sink that always answers and payloads that are UTF-8 text,
    [send_with_limits] returns. *)
Lemma send_with_limits_returns (ps : list str) (w : World) :
  never_raises -> forallb encodable ps = true ->
  exists s f b w', Function.send_with_limits ps max_bytes max_count w = (Ok (s, f, b), w').
Proof.
  intros Hnever Henc.
  destruct (Function.send_with_limits ps max_bytes max_count w) as [r w'] eqn:Hrun.
  destruct (send_with_limits_spec _ _ _ _ Hrun) as (cs & _ & _ & _ & _ & Htot & Hnr & _).
  destruct (Htot Henc) as [[[[s f] b] ->]|(c & e & Hin & Hr)]; [eauto|].
  specialize (Hnr Hnever). rewrite Forall_forall in Hnr.
  destruct (Hnr c Hin) as [flags Hf]. congruence.
Qed.
End SendWithLimits.

(** * The buffer *)

Section Buffer.
Context `{SinkAdapter}.

(** [_flush_if_needed], branch by branch. *)
Lemma flush_if_needed_run (force : bool) (h : Function.HubBuffer) (w : World) :
  Function._flush_if_needed force (h, w) =
    match Function.buf h with
    | [] => (Ok tt, (h, w))
    | _ :: _ =>
        match Function.flush_due force h with
        | Raise e => (Raise e, (h, w))
        | Ok false => (Ok tt, (h, w))
        | Ok true =>
            match Function.send_with_limits (Function.buf h) (Function.max_bytes h)
                    (Function.max_count h) w with
            | (Ok sfb, w') =>
                (Ok tt, (flushed h (fst (fst sfb)) (snd (fst sfb)) (snd sfb), w'))
            | (Raise e, w') => (Raise e, (h, w'))
            end
        end
    end.
Proof.
  unfold Function._flush_if_needed, Function.self, St.bind at 1, St.on_fst, St.get.
  cbn [fst snd].
  destruct (Function.buf h) as [|p t] eqn:Hb; [reflexivity|].
  unfold St.bind at 1, St.lift.
  destruct (Function.flush_due force h) as [[|]|e]; try reflexivity.
  unfold St.bind at 1, St.on_snd. cbn [fst snd].
  destruct (Function.send_with_limits (p :: t) _ _ w) as [[sfb|e] w']; reflexivity.
Qed.

Lemma flush_due_forced (h : Function.HubBuffer) : Function.flush_due true h = Ok true.
Proof. reflexivity. Qed.

(** The non-forced test, given the estimate. *)
Lemma flush_due_unforced (h : Function.HubBuffer) (n : Z) :
  estimate_batch_bytes (Function.buf h) = Ok n ->
  Function.flush_due false h
  = Ok ((len (Function.buf h) >=? Function.max_count h) || (n >=? Function.max_bytes h)).
Proof.
  intros He. unfold Function.flush_due. rewrite He. cbn [Exc.bind].
  destruct (len (Function.buf h) >=? Function.max_count h); reflexivity.
Qed.

Lemma flush_due_total (force : bool) (h : Function.HubBuffer) :
  forallb encodable (Function.buf h) = true ->
  exists d, Function.flush_due force h = Ok d.
Proof.
  intros Henc. destruct force; [exists true; reflexivity|].
  destruct (estimate_total _ Henc) as [n Hn].
  rewrite (flush_due_unforced _ _ Hn). eauto.
Qed.

(** [add] appends and then runs the non-forced test. *)
Lemma add_run (p : str) (h : Function.HubBuffer) (w : World) :
  Function.add p (h, w)
  = Function._flush_if_needed false
      (Function.set_buf (Function.buf h ++ [p]) h, w).
Proof. reflexivity. Qed.

(** A flush under a sink that answers, on a buffer of UTF-8 text. *)
Lemma flush_if_needed_answered (force : bool) (h : Function.HubBuffer) (w : World) :
  never_raises -> forallb encodable (Function.buf h) = true ->
  exists h' w' cs,
    Function._flush_if_needed force (h, w) = (Ok tt, (h', w'))
    /\ Trace w w' cs
    /\ concat (map payloads_of cs) ++ Function.buf h' = Function.buf h
    /\ (Function.buf h' = [] \/ (h' = h /\ w' = w))
    /\ Function.sent h' = Function.sent h + accepted cs
    /\ Function.failed h' = Function.failed h + rejected cs
    /\ Function.max_count h' = Function.max_count h
    /\ Function.max_bytes h' = Function.max_bytes h
    /\ (force = true -> Function.buf h' = []).
Proof.
  intros Hnever Henc. rewrite flush_if_needed_run.
  assert (Hsame : forall cs, cs = [] ->
             Trace w w cs
             /\ concat (map payloads_of cs) ++ Function.buf h = Function.buf h
             /\ (Function.buf h = [] \/ (h = h /\ w = w))
             /\ Function.sent h = Function.sent h + accepted cs
             /\ Function.failed h = Function.failed h + rejected cs
             /\ Function.max_count h = Function.max_count h
             /\ Function.max_bytes h = Function.max_bytes h).
  { intros cs ->. split; [apply Trace_refl|].
    unfold accepted, rejected. cbn. repeat split; auto; lia. }
  specialize (Hsame [] eq_refl).
  destruct (Function.buf h) as [|p t] eqn:Hb.
  { exists h, w, []. rewrite Hb. split; [reflexivity|].
    destruct Hsame as (A & B & C & D & F & G & I).
    repeat split; auto. apply A. }
  destruct (flush_due_total force h) as [d Hd]; [rewrite Hb; assumption|].
  rewrite Hd. destruct d.
  2:{ exists h, w, []. rewrite Hb. split; [reflexivity|].
      destruct Hsame as (A & B & C & D & F & G & I).
      repeat split; auto; try apply A.
      intros ->. discriminate Hd. }
  clear Hsame. rewrite <- Hb in *.
  destruct (send_with_limits_returns (Function.max_bytes h) (Function.max_count h)
              (Function.buf h) w Hnever Henc) as (s & f & b & w' & Hrun).
  rewrite Hrun.
  destruct (send_with_limits_spec _ _ _ _ _ _ Hrun)
    as (cs & Htr & _ & _ & Hok & _).
  destruct (Hok s f b eq_refl) as (Hc & -> & -> & _).
  exists (flushed h (accepted cs) (rejected cs) b), w', cs.
  cbn [fst snd flushed Function.buf Function.sent Function.failed
       Function.max_count Function.max_bytes].
  rewrite app_nil_r. repeat split; auto; apply Htr.
Qed.
End Buffer.

(** * The size estimator *)

(** C6. For payloads that are UTF-8 text, with [encoded] their UTF-8
    bytes, [estimate_batch_bytes] is the sum of the lengths of the base64
    encodings of those bytes plus 50 per payload; the base64 encoding of
    [n] bytes has length [4 * ceil(n / 3)]; the estimate of the empty
    list is 0. *)
Theorem estimate_batch_bytes_formula (messages : list str) (encoded : list bytes) :
  Exc.mapM encode messages = Ok encoded ->
  estimate_batch_bytes messages
  = Ok (sum (map (fun b => len (b64encode b)) encoded) + len messages * 50)
  /\ Forall (fun b => len (b64encode b) = 4 * ceil3 (len b)) encoded
  /\ estimate_batch_bytes [] = Ok 0.
Proof.
  intros He. split; [|split].
  - unfold estimate_batch_bytes. rewrite (mapM_encoded_len _ _ He). reflexivity.
  - apply Forall_forall. intros b _. apply b64encode_length.
  - reflexivity.
Qed.

Lemma estimate_batch_bytes_formula_witness :
  Exc.mapM encode [pa; [0x20AC%N; 0x41%N]] = Ok [[97%N]; [226%N; 130%N; 172%N; 65%N]]
  /\ estimate_batch_bytes [pa; [0x20AC%N; 0x41%N]] = Ok 112.
Proof.
  split; [reflexivity|].
  apply (estimate_batch_bytes_formula [pa; [0x20AC%N; 0x41%N]]
           [[97%N]; [226%N; 130%N; 172%N; 65%N]]).
  reflexivity.
Defined.

(** * The bounded sender *)

(** The script's sender is the function's, word for word. *)
Lemma send_with_size_limit_eq `{SinkAdapter} :
  Consumer.send_with_size_limit = Function.send_with_limits.
Proof. reflexivity. Qed.

(** C1. With a sink that answers and payloads that are UTF-8 text,
    [send_with_limits] (and [send_with_size_limit], which is the same
    function) returns, and the batches it hands to the sink, in the order
    of the calls, are non-empty, concatenate to the input, and are packed
    greedily: no batch could have taken the payload that opens the next.
    This holds for every [max_count], so in particular from 1 on. *)
Theorem send_bounded_preserves_sequence `{SinkAdapter}
        (payloads : list str) (max_bytes max_count : Z) (w : World) :
  never_raises -> forallb encodable payloads = true ->
  exists s f b w' sent_batches,
    Function.send_with_limits payloads max_bytes max_count w = (Ok (s, f, b), w')
    /\ Consumer.send_with_size_limit payloads max_bytes max_count w = (Ok (s, f, b), w')
    /\ dispatched w' = dispatched w ++ sent_batches
    /\ concat sent_batches = payloads
    /\ Forall (fun b => b <> []) sent_batches
    /\ greedy max_bytes max_count sent_batches.
Proof.
  intros Hnever Henc.
  destruct (send_with_limits_returns max_bytes max_count payloads w Hnever Henc)
    as (s & f & b & w' & Hrun).
  destruct (send_with_limits_spec _ _ _ _ _ _ Hrun) as (cs & Htr & Hwp & _ & Hok & _).
  destruct (Hok s f b eq_refl) as (Hc & _ & _ & Hg & _).
  exists s, f, b, w', (map payloads_of cs).
  split; [assumption|]. split; [rewrite send_with_size_limit_eq; assumption|].
  split; [apply Trace_dispatched; assumption|].
  split; [assumption|]. split; [|assumption].
  apply Forall_map. eapply Forall_impl; [|exact Hwp].
  intros c Hc'. apply Hc'.
Qed.

Lemma reliable_never_raises : @never_raises reliable_sink.
Proof. intros k entries. eexists. reflexivity. Qed.

Lemma refusing_never_raises : @never_raises refusing_sink.
Proof. intros k entries. eexists. reflexivity. Qed.

Lemma send_bounded_preserves_sequence_witness :
  exists s f b w' sent_batches,
    @Function.send_with_limits reliable_sink [pa; pb; pc] 1000 2
      (fresh_world reliable_sink tt) = (Ok (s, f, b), w')
    /\ @Consumer.send_with_size_limit reliable_sink [pa; pb; pc] 1000 2
         (fresh_world reliable_sink tt) = (Ok (s, f, b), w')
    /\ dispatched w' = dispatched (fresh_world reliable_sink tt) ++ sent_batches
    /\ concat sent_batches = [pa; pb; pc]
    /\ Forall (fun b => b <> []) sent_batches
    /\ greedy 1000 2 sent_batches.
Proof.
  apply (@send_bounded_preserves_sequence reliable_sink [pa; pb; pc] 1000 2
           (fresh_world reliable_sink tt)).
  - exact reliable_never_raises.
  - reflexivity.
Defined.

(** C2, as stated, fails when [max_count] is 0: the single payload ["a"]
    is handed to the sink as a batch of one, which is above the count
    limit although its estimate, 54, is far below the byte limit. *)
Lemma limits_violated_at_zero_count :
  let w' := snd (@Function.send_with_limits reliable_sink [pa] 1000 0
                   (fresh_world reliable_sink tt)) in
  dispatched w' = [[pa]]
  /\ [pa] <> []
  /\ ~ within_limits 1000 0 [pa].
Proof.
  split; [reflexivity|]. split; [discriminate|].
  intros [[Hle _]|(p & [= <-] & n & Hn & Hlt)].
  - vm_compute in Hle. apply Hle. reflexivity.
  - vm_compute in Hn. injection Hn as <-. lia.
Qed.

(** C2, amended. For [max_count >= 1], whatever the sink does, every
    batch [send_with_limits] hands to the sink is non-empty and either
    within both limits or a single payload whose own estimate exceeds
    [max_bytes]; and when the call returns, the batches concatenate to
    the input, so that such a payload went out whole. *)
Theorem dispatched_batches_within_limits `{SinkAdapter}
        (payloads : list str) (max_bytes max_count : Z) (w : World) :
  1 <= max_count ->
  let run := Function.send_with_limits payloads max_bytes max_count w in
  exists sent_batches,
    dispatched (snd run) = dispatched w ++ sent_batches
    /\ Forall (fun b => b <> [] /\ within_limits max_bytes max_count b)
         sent_batches
    /\ (forall sfb, fst run = Ok sfb -> concat sent_batches = payloads).
Proof.
  intros Hmc run. subst run.
  destruct (Function.send_with_limits payloads max_bytes max_count w) as [r w'] eqn:Hrun.
  destruct (send_with_limits_spec _ _ _ _ _ _ Hrun) as (cs & Htr & Hwp & _ & Hok & _).
  exists (map payloads_of cs). cbn [fst snd].
  split; [apply Trace_dispatched; assumption|]. split.
  - apply Forall_map. eapply Forall_impl; [|exact Hwp].
    intros c (Hne & Henc & [Hfit|Hshort]); (split; [assumption|]).
    + left. assumption.
    + destruct (payloads_of c) as [|p [|q t]]; [contradiction| |cbn in Hshort; lia].
      destruct (estimate_total _ Henc) as [n Hn].
      destruct (Z_le_gt_dec n max_bytes) as [Hle|Hgt].
      * left. split; [change (len [p]) with 1; lia|]. eauto.
      * right. exists p. split; [reflexivity|]. exists n. split; [assumption|lia].
  - intros [[s f] b] ->. apply (Hok s f b eq_refl).
Qed.

Lemma dispatched_batches_within_limits_witness :
  exists sent_batches,
    dispatched (snd (@Function.send_with_limits reliable_sink [pa; pb; pc] 60 2
                       (fresh_world reliable_sink tt)))
    = dispatched (fresh_world reliable_sink tt) ++ sent_batches
    /\ Forall (fun b => b <> [] /\ within_limits 60 2 b) sent_batches
    /\ (forall sfb,
          fst (@Function.send_with_limits reliable_sink [pa; pb; pc] 60 2
                 (fresh_world reliable_sink tt)) = Ok sfb ->
          concat sent_batches = [pa; pb; pc]).
Proof.
  apply (@dispatched_batches_within_limits reliable_sink [pa; pb; pc] 60 2
           (fresh_world reliable_sink tt)).
  lia.
Defined.

(** C9. When the first payload does not fit on its own (its estimate
    exceeds [max_bytes], or [max_count] is below 1), the batch count
    [send_with_limits] returns is one more than the number of calls made
    to the sink: the empty batch was closed, which is counted although
    [send_batch] on an empty batch makes no call and returns [(0, 0)]. *)
Theorem batch_count_exceeds_dispatches `{SinkAdapter}
        (p : str) (rest : list str) (max_bytes max_count : Z) (w : World) :
  never_raises -> forallb encodable (p :: rest) = true ->
  ~ fits max_bytes max_count [p] ->
  Function.send_batch [] w = (Ok (0, 0), w)
  /\ exists s f b w' cs,
       Function.send_with_limits (p :: rest) max_bytes max_count w = (Ok (s, f, b), w')
       /\ calls w' = calls w ++ cs
       /\ Forall (fun c => payloads_of c <> []) cs
       /\ b = len cs + 1.
Proof.
  intros Hnever Henc Hnofit. split; [reflexivity|].
  destruct (send_with_limits_returns max_bytes max_count (p :: rest) w Hnever Henc)
    as (s & f & b & w' & Hrun).
  destruct (send_with_limits_spec _ _ _ _ _ _ Hrun) as (cs & Htr & Hwp & _ & Hok & _).
  destruct (Hok s f b eq_refl) as (_ & _ & _ & _ & _ & Hb).
  exists s, f, b, w', cs. split; [assumption|]. split; [apply Htr|].
  split; [|apply (Hb p rest eq_refl); assumption].
  eapply Forall_impl; [|exact Hwp]. intros c Hc. apply Hc.
Qed.

Lemma batch_count_exceeds_dispatches_witness :
  @Function.send_batch reliable_sink [] (fresh_world reliable_sink tt)
  = (Ok (0, 0), fresh_world reliable_sink tt)
  /\ exists s f b w' cs,
       @Function.send_with_limits reliable_sink [pa] 10 100 (fresh_world reliable_sink tt)
       = (Ok (s, f, b), w')
       /\ calls w' = calls (fresh_world reliable_sink tt) ++ cs
       /\ Forall (fun c => payloads_of c <> []) cs
       /\ b = len cs + 1.
Proof.
  apply (@batch_count_exceeds_dispatches reliable_sink pa [] 10 100
           (fresh_world reliable_sink tt)).
  - exact reliable_never_raises.
  - reflexivity.
  - intros [_ (n & Hn & Hle)]. vm_compute in Hn. injection Hn as <-. lia.
Defined.

(** * The buffer: flushes *)

Lemma calls_unchanged `{SinkAdapter} (w : World) (cs : list Call) :
  calls w = calls w ++ cs -> cs = [].
Proof.
  intros E. apply (app_inv_head (calls w)). rewrite app_nil_r. symmetry. exact E.
Qed.

(** C3. With a sink that answers and a buffer of UTF-8 text, a forced
    flush returns with the buffer empty, whatever the thresholds and
    whatever flags the sink returned: each buffered payload went to the
    sink once, in order, the entries answered with an error are added to
    [failed] and the others to [sent]; on an empty buffer nothing changes
    and no call is made. *)
Theorem forced_flush_empties_buffer `{SinkAdapter} (h : Function.HubBuffer) (w : World) :
  never_raises -> forallb encodable (Function.buf h) = true ->
  exists h' w' cs,
    Function.flush (h, w) = (Ok tt, (h', w'))
    /\ Function.buf h' = []
    /\ calls w' = calls w ++ cs
    /\ concat (map payloads_of cs) = Function.buf h
    /\ Function.sent h' = Function.sent h + accepted cs
    /\ Function.failed h' = Function.failed h + rejected cs
    /\ (Function.buf h = [] -> h' = h /\ w' = w).
Proof.
  intros Hnever Henc. unfold Function.flush.
  destruct (Function.buf h) as [|p t] eqn:Hb.
  - exists h, w, []. rewrite flush_if_needed_run, Hb.
    unfold accepted, rejected. cbn. rewrite app_nil_r.
    repeat split; auto; lia.
  - rewrite <- Hb in *.
    destruct (flush_if_needed_answered true h w Hnever Henc)
      as (h' & w' & cs & Hrun & Htr & Hc & _ & Hs & Hf & _ & _ & Hforce).
    specialize (Hforce eq_refl). rewrite Hforce, app_nil_r in Hc.
    exists h', w', cs. split; [assumption|]. split; [assumption|].
    split; [apply Htr|]. split; [assumption|]. split; [assumption|].
    split; [assumption|]. intros E. rewrite Hb in E. discriminate.
Qed.

Lemma forced_flush_empties_buffer_witness :
  exists h' w' cs,
    @Function.flush refusing_sink
      ({| Function.max_count := 100; Function.max_bytes := 1000;
          Function.buf := [pa; pb; pc];
          Function.sent := 0; Function.failed := 0; Function.batches := 0 |},
       fresh_world refusing_sink tt) = (Ok tt, (h', w'))
    /\ Function.buf h' = []
    /\ calls w' = calls (fresh_world refusing_sink tt) ++ cs
    /\ concat (map payloads_of cs) = [pa; pb; pc]
    /\ Function.sent h' = 0 + accepted cs
    /\ Function.failed h' = 0 + rejected cs
    /\ ([pa; pb; pc] = [] ->
        h' = {| Function.max_count := 100; Function.max_bytes := 1000;
                Function.buf := [pa; pb; pc];
                Function.sent := 0; Function.failed := 0; Function.batches := 0 |}
        /\ w' = fresh_world refusing_sink tt).
Proof.
  apply (@forced_flush_empties_buffer refusing_sink
           {| Function.max_count := 100; Function.max_bytes := 1000;
              Function.buf := [pa; pb; pc];
              Function.sent := 0; Function.failed := 0; Function.batches := 0 |}
           (fresh_world refusing_sink tt)).
  - exact refusing_never_raises.
  - reflexivity.
Defined.

(** C10. When a call to the sink raised during a flush, forced or not,
    the flush raises that exception and the buffer object is as before:
    same payloads in the same order, same [sent], [failed] and [batches]. *)
Theorem flush_failure_keeps_buffer `{SinkAdapter}
        (force : bool) (h h' : Function.HubBuffer) (w w' : World)
        (r : result unit) (cs : list Call) (c : Call) (e : exn) :
  Function._flush_if_needed force (h, w) = (r, (h', w')) ->
  calls w' = calls w ++ cs ->
  In c cs -> reply c = Raise e ->
  r = Raise e /\ h' = h.
Proof.
  intros Hrun Hcalls Hin Hrep. rewrite flush_if_needed_run in Hrun.
  assert (Hidle : forall r0, (r0, (h, w)) = (r, (h', w')) -> r = Raise e /\ h' = h).
  { intros r0 [= _ _ <-]. apply calls_unchanged in Hcalls. subst cs. destruct Hin. }
  destruct (Function.buf h) as [|p t] eqn:Hb; [eauto|]. rewrite <- Hb in *.
  destruct (Function.flush_due force h) as [[|]|e0]; eauto.
  destruct (Function.send_with_limits (Function.buf h) (Function.max_bytes h)
              (Function.max_count h) w) as [r1 w1] eqn:Hsend.
  destruct (send_with_limits_spec _ _ _ _ _ _ Hsend) as (cs1 & [Htr _] & _ & Hex & _).
  assert (w1 = w') as -> by (destruct r1; injection Hrun; auto).
  assert (cs1 = cs) as ->.
  { apply (app_inv_head (calls w)). congruence. }
  rewrite (Hex c e Hin Hrep) in Hrun. injection Hrun as <- <-. auto.
Qed.

Lemma flush_failure_keeps_buffer_witness :
  let h := {| Function.max_count := 100; Function.max_bytes := 1000;
              Function.buf := [pa; pb];
              Function.sent := 7; Function.failed := 1; Function.batches := 3 |} in
  let c := {| payloads_of := [pa; pb]; reply := Raise (OtherException 503) |} in
  let run := @Function._flush_if_needed down_sink true (h, fresh_world down_sink tt) in
  calls (snd (snd run)) = calls (fresh_world down_sink tt) ++ [c]
  /\ fst run = Raise (OtherException 503)
  /\ fst (snd run) = h.
Proof.
  intros h c run. split; [reflexivity|].
  apply (@flush_failure_keeps_buffer down_sink true h (fst (snd run))
           (fresh_world down_sink tt) (snd (snd run)) (fst run) [c] c
           (OtherException 503)).
  - reflexivity.
  - reflexivity.
  - left. reflexivity.
  - reflexivity.
Defined.

(** * The buffer: the test after each [add] *)

(** Below both thresholds the non-forced flush changes nothing. *)
Lemma flush_idle_below_thresholds `{SinkAdapter}
      (h : Function.HubBuffer) (w : World) (n : Z) :
  estimate_batch_bytes (Function.buf h) = Ok n ->
  len (Function.buf h) < Function.max_count h -> n < Function.max_bytes h ->
  Function._flush_if_needed false (h, w) = (Ok tt, (h, w)).
Proof.
  intros He Hc Hn. rewrite flush_if_needed_run.
  destruct (Function.buf h) as [|p t] eqn:Hb; [reflexivity|]. rewrite <- Hb in *.
  rewrite (flush_due_unforced _ _ He).
  destruct (Z.geb_spec (len (Function.buf h)) (Function.max_count h)); [lia|].
  destruct (Z.geb_spec n (Function.max_bytes h)); [lia|]. reflexivity.
Qed.

(** So [add] only appends while the buffer stays below both. *)
Lemma add_idle_below_thresholds `{SinkAdapter}
      (p : str) (h : Function.HubBuffer) (w : World) (n : Z) :
  estimate_batch_bytes (Function.buf h ++ [p]) = Ok n ->
  len (Function.buf h ++ [p]) < Function.max_count h -> n < Function.max_bytes h ->
  Function.add p (h, w) = (Ok tt, (Function.set_buf (Function.buf h ++ [p]) h, w)).
Proof.
  intros He Hc Hn. rewrite add_run.
  apply (flush_idle_below_thresholds _ _ n); assumption.
Qed.

(** C4, as stated, fails on an empty buffer whose threshold is already
    reached: with [max_count = 0] the count test holds of the empty
    buffer, yet the non-forced flush makes no call and changes nothing. *)
Lemma unforced_flush_idle_at_threshold :
  let h := Function.new_HubBuffer 0 1000 in
  let w := fresh_world reliable_sink tt in
  Function.max_count h <= len (Function.buf h)
  /\ @Function._flush_if_needed reliable_sink false (h, w) = (Ok tt, (h, w))
  /\ ~ (calls (snd (snd (@Function._flush_if_needed reliable_sink false (h, w))))
        <> calls w
        <-> (Function.max_count h <= len (Function.buf h)
             \/ exists n, estimate_batch_bytes (Function.buf h) = Ok n
                          /\ Function.max_bytes h <= n)).
Proof.
  intros h w. split; [vm_compute; discriminate|]. split; [reflexivity|].
  intros [_ Hdue]. apply Hdue; [|reflexivity].
  left. vm_compute. discriminate.
Qed.

(** C4, amended. A non-forced flush of a buffer below both thresholds
    changes nothing: same buffer, same totals, no call; so does [add]
    when the buffer is still below both once the payload is appended.  A
    non-forced flush of an empty buffer changes nothing either.  On a
    non-empty buffer of UTF-8 text it calls the sink exactly when the
    length has reached [max_count] or the estimate [max_bytes]. *)
Theorem unforced_flush_threshold `{SinkAdapter}
        (h : Function.HubBuffer) (w : World) (n : Z) :
  estimate_batch_bytes (Function.buf h) = Ok n ->
  (len (Function.buf h) < Function.max_count h -> n < Function.max_bytes h ->
   Function._flush_if_needed false (h, w) = (Ok tt, (h, w)))
  /\ (forall p h0,
        h = Function.set_buf (Function.buf h0 ++ [p]) h0 ->
        len (Function.buf h) < Function.max_count h -> n < Function.max_bytes h ->
        Function.add p (h0, w) = (Ok tt, (h, w)))
  /\ (Function.buf h = [] ->
      Function._flush_if_needed false (h, w) = (Ok tt, (h, w)))
  /\ (Function.buf h <> [] ->
      exists cs,
        calls (snd (snd (Function._flush_if_needed false (h, w)))) = calls w ++ cs
        /\ (cs <> [] <->
            (Function.max_count h <= len (Function.buf h)
             \/ Function.max_bytes h <= n))).
Proof.
  intros He.
  assert (Hbelow := flush_idle_below_thresholds h w n He).
  split; [exact Hbelow|]. split; [|split].
  - intros p h0 -> Hc Hn. rewrite add_run. apply Hbelow; assumption.
  - intros Hb. rewrite flush_if_needed_run, Hb. reflexivity.
  - intros Hne. rewrite flush_if_needed_run.
    destruct (Function.buf h) as [|p t] eqn:Hb; [contradiction|]. rewrite <- Hb in *.
    rewrite (flush_due_unforced _ _ He).
    destruct (Z.geb_spec (len (Function.buf h)) (Function.max_count h)) as [Hc|Hc];
      [|destruct (Z.geb_spec n (Function.max_bytes h)) as [Hn|Hn]]; cbn [orb].
    3:{ exists []. cbn [snd]. rewrite app_nil_r. split; [reflexivity|].
        split; [intros E; contradiction|lia]. }
    all: destruct (Function.send_with_limits (Function.buf h) (Function.max_bytes h)
                     (Function.max_count h) w) as [r w'] eqn:Hsend;
      destruct (send_with_limits_spec _ _ _ _ _ _ Hsend)
        as (cs & [Htr _] & _ & _ & _ & _ & _ & Hcalled);
      exists cs; (split; [destruct r; exact Htr|]);
      (split; [intros _; lia|intros _]);
      apply Hcalled; [eapply estimate_encodable; eassumption|assumption].
Qed.

Lemma unforced_flush_threshold_witness :
  let h := {| Function.max_count := 2; Function.max_bytes := 1000;
              Function.buf := [pa];
              Function.sent := 0; Function.failed := 0; Function.batches := 0 |} in
  let w := fresh_world reliable_sink tt in
  estimate_batch_bytes (Function.buf h) = Ok 54
  /\ @Function._flush_if_needed reliable_sink false (h, w) = (Ok tt, (h, w)).
Proof.
  intros h w. split; [reflexivity|].
  apply (proj1 (@unforced_flush_threshold reliable_sink h w 54 eq_refl));
    vm_compute; reflexivity.
Defined.

(** The packing loop keeps a candidate that fits. *)
Lemma pack_step_keep `{SinkAdapter} (max_bytes max_count : Z)
      (v : Packing) (p : str) (w : World) :
  fits max_bytes max_count (batch v ++ [p]) ->
  Function.pack_step max_bytes max_count v p w = (Ok (keep v p), w).
Proof.
  intros Hfit.
  destruct (Function.pack_step max_bytes max_count v p w) as [r w'] eqn:Hstep.
  apply pack_step_spec in Hstep
    as [(_ & -> & ->) | [(_ & _ & e & He & _) | (Hno & _)]];
    [reflexivity| |contradiction].
  destruct Hfit as [_ (n & Hn & _)]. congruence.
Qed.

(** C5. With [max_count = 2], a byte limit above 108, which is the
    estimate of [["a"; "b"]], and a sink that answers, adding ["a"],
    ["b"], ["c"] in turn makes no call during the first and the third
    [add] and exactly one during the second, for the batch [["a"; "b"]];
    afterwards the buffer holds ["c"] alone and one batch has been
    counted. *)
Theorem three_adds_one_flush `{SinkAdapter} (max_bytes : Z) (w : World) :
  never_raises -> 108 < max_bytes ->
  exists h1 h2 h3 w2,
    Function.add pa (Function.new_HubBuffer 2 max_bytes, w) = (Ok tt, (h1, w))
    /\ Function.buf h1 = [pa]
    /\ Function.add pb (h1, w) = (Ok tt, (h2, w2))
    /\ dispatched w2 = dispatched w ++ [[pa; pb]]
    /\ Function.buf h2 = []
    /\ Function.add pc (h2, w2) = (Ok tt, (h3, w2))
    /\ Function.buf h3 = [pc]
    /\ Function.batches h3 = 1.
Proof.
  intros Hnever Hmb.
  set (h0 := Function.new_HubBuffer 2 max_bytes).
  set (h1 := Function.set_buf [pa] h0).
  assert (Ha : estimate_batch_bytes [pa] = Ok 54) by reflexivity.
  assert (Hab : estimate_batch_bytes [pa; pb] = Ok 108) by reflexivity.
  assert (Hc : estimate_batch_bytes [pc] = Ok 54) by reflexivity.
  (* the second add: one batch of two *)
  destruct (Function.send_batch [pa; pb] w) as [r0 w2] eqn:Hsend.
  destruct (send_batch_spec _ _ _ _ Hsend)
    as [([=] & _) | [(_ & _ & e & He & _) | (_ & _ & c & Htr & Hpc & Hrep & Hans)]];
    [vm_compute in He; discriminate|].
  destruct (Hans Hnever) as [flags Hflags]. rewrite Hflags in Hrep. subst r0.
  set (h2 := flushed (Function.set_buf [pa; pb] h1) (accepted [c]) (rejected [c]) 1).
  exists h1, h2, (Function.set_buf [pc] h2), w2.
  split.
  { apply (add_idle_below_thresholds pa h0 w 54 Ha); cbn; lia. }
  split; [reflexivity|]. split.
  { rewrite add_run, flush_if_needed_run. cbn [Function.buf Function.set_buf app h1 h0
      Function.new_HubBuffer Function.max_count Function.max_bytes].
    unfold Function.flush_due. cbn [Function.buf Function.max_count].
    change (len [pa; pb] >=? 2) with true. cbv iota.
    unfold Function.send_with_limits. cbn [St.for_each]. unfold St.bind at 1 2.
    rewrite pack_step_keep
      by (split; [cbn; lia|exists 54; split; [exact Ha|lia]]).
    unfold St.bind at 1. rewrite pack_step_keep
      by (split; [cbn; lia|exists 108; split; [exact Hab|lia]]).
    unfold St.ret at 1. unfold Function.pack_finish. cbn [keep batch app].
    unfold St.bind at 1. rewrite Hsend. reflexivity. }
  split.
  { rewrite (Trace_dispatched _ _ _ Htr). cbn [map]. rewrite Hpc. reflexivity. }
  split; [reflexivity|]. split; [|split; reflexivity].
  apply (add_idle_below_thresholds pc h2 w2 54 Hc); cbn; lia.
Qed.

Lemma three_adds_one_flush_witness :
  exists h1 h2 h3 w2,
    @Function.add reliable_sink pa
      (Function.new_HubBuffer 2 1048576, fresh_world reliable_sink tt)
    = (Ok tt, (h1, fresh_world reliable_sink tt))
    /\ Function.buf h1 = [pa]
    /\ @Function.add reliable_sink pb (h1, fresh_world reliable_sink tt)
       = (Ok tt, (h2, w2))
    /\ dispatched w2 = dispatched (fresh_world reliable_sink tt) ++ [[pa; pb]]
    /\ Function.buf h2 = []
    /\ @Function.add reliable_sink pc (h2, w2) = (Ok tt, (h3, w2))
    /\ Function.buf h3 = [pc]
    /\ Function.batches h3 = 1.
Proof.
  apply (@three_adds_one_flush reliable_sink 1048576 (fresh_world reliable_sink tt)).
  - exact reliable_never_raises.
  - lia.
Defined.

(** * The invocation *)

Section Invocation.
Context `{SinkAdapter}.

(** One turn of the loop over the events, branch by branch. *)
Lemma process_event_run (e : Function.EventHubEvent) (c : Function.Counters)
      (h : Function.HubBuffer) (w : World) :
  Function.process_event e (c, (h, w)) =
    match decode (Function.get_body e) with
    | Raise _ => (Ok tt, (Function.incr_error c, (h, w)))
    | Ok [] => (Ok tt, (c, (h, w)))
    | Ok (x :: s) =>
        if isspace (x :: s) then (Ok tt, (c, (h, w)))
        else
          match Function.add (x :: s) (h, w) with
          | (Ok _, o) => (Ok tt, (Function.incr_processed c, o))
          | (Raise _, o) => (Ok tt, (Function.incr_error c, o))
          end
    end.
Proof.
  unfold Function.process_event, St.try_except, St.bind at 1, St.lift.
  destruct (decode (Function.get_body e)) as [[|x s]|err]; try reflexivity.
  destruct (isspace (x :: s)); [reflexivity|].
  unfold St.bind, St.on_snd. cbn [fst snd].
  destruct (Function.add (x :: s) (h, w)) as [[[]|err] o]; reflexivity.
Qed.

Lemma payload_of_encodable (e : Function.EventHubEvent) :
  forallb encodable (payload_of e) = true.
Proof.
  unfold payload_of.
  destruct (decode (Function.get_body e)) as [[|x s]|err] eqn:Hd; try reflexivity.
  destruct (isspace (x :: s)); [reflexivity|].
  cbn [forallb]. rewrite (decode_encodable _ _ Hd). reflexivity.
Qed.

(** [add] under a sink that answers. *)
Lemma add_answered (p : str) (h : Function.HubBuffer) (w : World) :
  never_raises -> forallb encodable (Function.buf h ++ [p]) = true ->
  exists h' w' cs,
    Function.add p (h, w) = (Ok tt, (h', w'))
    /\ Trace w w' cs
    /\ concat (map payloads_of cs) ++ Function.buf h' = Function.buf h ++ [p]
    /\ Function.sent h' = Function.sent h + accepted cs
    /\ Function.failed h' = Function.failed h + rejected cs
    /\ Function.max_count h' = Function.max_count h
    /\ Function.max_bytes h' = Function.max_bytes h.
Proof.
  intros Hnever Henc. rewrite add_run.
  destruct (flush_if_needed_answered false
              (Function.set_buf (Function.buf h ++ [p]) h) w Hnever Henc)
    as (h' & w' & cs & Hrun & Htr & Hc & _ & Hs & Hf & Hmc & Hmb & _).
  exists h', w', cs. repeat split; auto; apply Htr.
Qed.

Lemma forallb_app_r {A : Type} (f : A -> bool) (l1 l2 : list A) :
  forallb f (l1 ++ l2) = true -> forallb f l2 = true.
Proof. rewrite forallb_app. intros E. apply andb_true_iff in E as [_ E]. exact E. Qed.

(** The loop over the events under a sink that answers. *)
Lemma event_loop_answered (events : list Function.EventHubEvent) :
  never_raises ->
  forall (c : Function.Counters) (h : Function.HubBuffer) (w : World),
    forallb encodable (Function.buf h) = true ->
    exists c' h' w' cs,
      St.for_each (fun _ e => Function.process_event e) events tt (c, (h, w))
      = (Ok tt, (c', (h', w')))
      /\ Trace w w' cs
      /\ concat (map payloads_of cs) ++ Function.buf h'
         = Function.buf h ++ delivered events
      /\ Function.processed_count c'
         = Function.processed_count c + len (delivered events)
      /\ Function.error_count c'
         = Function.error_count c + decode_failures events
      /\ Function.sent h' = Function.sent h + accepted cs
      /\ Function.failed h' = Function.failed h + rejected cs
      /\ Function.max_count h' = Function.max_count h
      /\ Function.max_bytes h' = Function.max_bytes h.
Proof.
  intros Hnever. induction events as [|e events IH]; intros c h w Henc.
  { exists c, h, w, []. split; [reflexivity|]. split; [apply Trace_refl|].
    unfold delivered, decode_failures, accepted, rejected. cbn.
    rewrite app_nil_r. repeat split; lia. }
  cbn [St.for_each]. unfold St.bind.
  assert (Hstep : exists c1 h1 w1 cs1,
             Function.process_event e (c, (h, w)) = (Ok tt, (c1, (h1, w1)))
             /\ Trace w w1 cs1
             /\ concat (map payloads_of cs1) ++ Function.buf h1
                = Function.buf h ++ payload_of e
             /\ Function.processed_count c1
                = Function.processed_count c + len (payload_of e)
             /\ Function.error_count c1
                = Function.error_count c + (if undecodable e then 1 else 0)
             /\ Function.sent h1 = Function.sent h + accepted cs1
             /\ Function.failed h1 = Function.failed h + rejected cs1
             /\ Function.max_count h1 = Function.max_count h
             /\ Function.max_bytes h1 = Function.max_bytes h).
  { rewrite process_event_run.
    pose proof (payload_of_encodable e) as Hpe.
    unfold payload_of, undecodable in *.
    assert (Hidle : forall c1,
               Function.processed_count c1 = Function.processed_count c + 0 ->
               exists c2 h1 w1 cs1,
                 (Ok tt, (c1, (h, w))) = (Ok tt, (c2, (h1, w1)))
                 /\ Trace w w1 cs1
                 /\ concat (map payloads_of cs1) ++ Function.buf h1
                    = Function.buf h ++ []
                 /\ Function.processed_count c2 = Function.processed_count c + len (@nil str)
                 /\ Function.error_count c2 = Function.error_count c1
                 /\ Function.sent h1 = Function.sent h + accepted cs1
                 /\ Function.failed h1 = Function.failed h + rejected cs1
                 /\ Function.max_count h1 = Function.max_count h
                 /\ Function.max_bytes h1 = Function.max_bytes h).
    { intros c1 Hc1. exists c1, h, w, []. split; [reflexivity|].
      split; [apply Trace_refl|]. unfold accepted, rejected. cbn.
      rewrite app_nil_r. repeat split; lia. }
    destruct (decode (Function.get_body e)) as [[|x s]|err].
    - destruct (Hidle c) as (c2 & h1 & w1 & cs1 & E & A & B & C & D & F);
        [lia|].
      exists c2, h1, w1, cs1. repeat split; try tauto; try apply A. lia.
    - destruct (isspace (x :: s)).
      + destruct (Hidle c) as (c2 & h1 & w1 & cs1 & E & A & B & C & D & F);
          [lia|].
        exists c2, h1, w1, cs1. repeat split; try tauto; try apply A. lia.
      + assert (Henc' : forallb encodable (Function.buf h ++ [x :: s]) = true).
        { rewrite forallb_app, Henc, Hpe. reflexivity. }
        destruct (add_answered (x :: s) h w Hnever Henc')
          as (h1 & w1 & cs1 & Hrun & Htr & Hc & Hs & Hf & Hmc & Hmb).
        rewrite Hrun.
        exists (Function.incr_processed c), h1, w1, cs1.
        cbn [Function.incr_processed Function.processed_count Function.error_count].
        change (len [x :: s]) with 1.
        repeat split; auto; try apply Htr; lia.
    - destruct (Hidle (Function.incr_error c)) as (c2 & h1 & w1 & cs1 & E & A & B & C & D & F);
        [cbn; lia|].
      exists c2, h1, w1, cs1. repeat split; try tauto; try apply A. }
  destruct Hstep as (c1 & h1 & w1 & cs1 & Hrun1 & Htr1 & Hc1 & Hp1 & He1 & Hs1 & Hf1
                     & Hmc1 & Hmb1).
  rewrite Hrun1.
  assert (Henc1 : forallb encodable (Function.buf h1) = true).
  { apply (forallb_app_r _ (concat (map payloads_of cs1))). rewrite Hc1.
    rewrite forallb_app, Henc, payload_of_encodable. reflexivity. }
  destruct (IH c1 h1 w1 Henc1)
    as (c' & h' & w' & cs & Hrun & Htr & Hc & Hp & He & Hs & Hf & Hmc & Hmb).
  exists c', h', w', (cs1 ++ cs). split; [assumption|].
  split; [eapply Trace_trans; eassumption|].
  rewrite map_app, concat_app, accepted_app, rejected_app.
  unfold delivered, decode_failures in *. cbn [flat_map filter].
  split.
  { rewrite <- app_assoc, Hc, app_assoc, Hc1, <- app_assoc. reflexivity. }
  rewrite len_app.
  replace (len (if undecodable e then e :: filter undecodable events
                else filter undecodable events))
    with ((if undecodable e then 1 else 0) + len (filter undecodable events))
    by (destruct (undecodable e); [rewrite len_cons|]; lia).
  repeat split; lia.
Qed.
End Invocation.

(** Whatever the sink does, an undecodable event only adds one to the
    error count: the rest of the invocation runs as if the event had not
    been delivered. *)
Section UndecodableEvent.
Context `{SinkAdapter}.

Lemma process_event_shift (e : Function.EventHubEvent) (c : Function.Counters)
      (o : Function.Obj) :
  Function.process_event e (Function.incr_error c, o)
  = (fst (Function.process_event e (c, o)),
     (Function.incr_error (fst (snd (Function.process_event e (c, o)))),
      snd (snd (Function.process_event e (c, o))))).
Proof.
  unfold Function.Obj in *. destruct o as [h w]. rewrite !process_event_run.
  destruct (decode (Function.get_body e)) as [[|x s]|err]; try reflexivity.
  destruct (isspace (x :: s)); [reflexivity|].
  destruct (Function.add (x :: s) (h, w)) as [[[]|err] o]; reflexivity.
Qed.

Lemma process_event_returns (e : Function.EventHubEvent) (c : Function.Counters)
      (o : Function.Obj) :
  fst (Function.process_event e (c, o)) = Ok tt.
Proof.
  unfold Function.Obj in *. destruct o as [h w]. rewrite process_event_run.
  destruct (decode (Function.get_body e)) as [[|x s]|err]; try reflexivity.
  destruct (isspace (x :: s)); [reflexivity|].
  destruct (Function.add (x :: s) (h, w)) as [[[]|err] o]; reflexivity.
Qed.

Lemma event_loop_shift (events : list Function.EventHubEvent) :
  forall (c : Function.Counters) (o : Function.Obj),
    St.for_each (fun _ e => Function.process_event e) events tt
      (Function.incr_error c, o)
    = (fst (St.for_each (fun _ e => Function.process_event e) events tt (c, o)),
       (Function.incr_error
          (fst (snd (St.for_each (fun _ e => Function.process_event e) events tt (c, o)))),
        snd (snd (St.for_each (fun _ e => Function.process_event e) events tt (c, o))))).
Proof.
  induction events as [|e events IH]; intros c o; [reflexivity|].
  cbn [St.for_each]. unfold St.bind. rewrite process_event_shift.
  pose proof (process_event_returns e c o) as Hret.
  destruct (Function.process_event e (c, o)) as [[[]|err] [c1 o1]]; cbn [fst snd] in *;
    [apply IH|discriminate].
Qed.

Lemma event_loop_skips (before after : list Function.EventHubEvent)
      (bad : Function.EventHubEvent) :
  undecodable bad = true ->
  forall (c : Function.Counters) (o : Function.Obj),
    St.for_each (fun _ e => Function.process_event e) (before ++ bad :: after) tt (c, o)
    = (fst (St.for_each (fun _ e => Function.process_event e) (before ++ after) tt (c, o)),
       (Function.incr_error
          (fst (snd (St.for_each (fun _ e => Function.process_event e)
                       (before ++ after) tt (c, o)))),
        snd (snd (St.for_each (fun _ e => Function.process_event e)
                    (before ++ after) tt (c, o))))).
Proof.
  intros Hbad. induction before as [|e before IH]; intros c o.
  - cbn [app St.for_each]. unfold St.bind at 1.
    unfold Function.Obj in *. destruct o as [h w]. rewrite process_event_run.
    unfold undecodable in Hbad.
    destruct (decode (Function.get_body bad)); [discriminate|].
    apply event_loop_shift.
  - cbn [app St.for_each]. unfold St.bind.
    pose proof (process_event_returns e c o) as Hret.
    destruct (Function.process_event e (c, o)) as [[[]|err] [c1 o1]]; cbn [fst snd] in *;
      [apply IH|discriminate].
Qed.

Lemma main_skips_undecodable (env : Function.Settings)
      (before after : list Function.EventHubEvent) (bad : Function.EventHubEvent)
      (w : World) :
  undecodable bad = true -> before ++ after <> [] ->
  Function.main env (before ++ bad :: after) w =
    match Function.main env (before ++ after) w with
    | (Ok (Function.Complete p s f b), w') => (Ok (Function.Complete p s (f + 1) b), w')
    | other => other
    end.
Proof.
  intros Hbad Hne. unfold Function.main.
  assert (H1 : (len (before ++ bad :: after) =? 0) = false).
  { rewrite len_app, len_cons. pose proof (len_nonneg before).
    pose proof (len_nonneg after). apply Z.eqb_neq. lia. }
  assert (H2 : (len (before ++ after) =? 0) = false).
  { destruct (before ++ after); [contradiction|]. rewrite len_cons.
    pose proof (len_nonneg l). apply Z.eqb_neq. lia. }
  rewrite H1, H2.
  destruct (negb (Function.OCI_SDK_OK env)); [reflexivity|].
  unfold St.bind at 1 3, St.lift.
  destruct (Function.configure env) as [limits|err]; [|reflexivity].
  unfold St.bind at 1 3, St.with_local, St.bind.
  match goal with
  | |- context [@St.for_each ?S ?A ?V ?f (before ++ bad :: after) tt ?s] =>
      replace (@St.for_each S A V f (before ++ bad :: after) tt s)
        with (fst (@St.for_each S A V f (before ++ after) tt s),
              (Function.incr_error (fst (snd (@St.for_each S A V f (before ++ after) tt s))),
               snd (snd (@St.for_each S A V f (before ++ after) tt s))))
        by (symmetry; apply (event_loop_skips before after bad Hbad));
      destruct (@St.for_each S A V f (before ++ after) tt s) as [[[]|err] [c1 o1]]
  end; cbn [fst snd]; [|destruct o1; reflexivity].
  unfold St.on_snd. cbn [fst snd].
  destruct (Function.flush o1) as [[[]|err] [h2 w2]]; cbn [fst snd]; [|reflexivity].
  unfold St.ret. cbn [Function.incr_error Function.processed_count Function.error_count].
  rewrite Z.add_assoc. reflexivity.
Qed.
End UndecodableEvent.

Section InvocationResult.
Context `{SinkAdapter}.

Lemma delivered_encodable (events : list Function.EventHubEvent) :
  forallb encodable (delivered events) = true.
Proof.
  unfold delivered. induction events as [|e events IH]; [reflexivity|].
  cbn [flat_map]. rewrite forallb_app, payload_of_encodable, IH. reflexivity.
Qed.

Lemma delivered_app (es1 es2 : list Function.EventHubEvent) :
  delivered (es1 ++ es2) = delivered es1 ++ delivered es2.
Proof. apply flat_map_app. Qed.

Lemma decode_failures_app (es1 es2 : list Function.EventHubEvent) :
  decode_failures (es1 ++ es2) = decode_failures es1 + decode_failures es2.
Proof. unfold decode_failures. rewrite filter_app, len_app. reflexivity. Qed.

(** A whole invocation under a sink that answers. *)
Lemma main_answered (env : Function.Settings) (events : list Function.EventHubEvent)
      (max_batch_count max_batch_bytes : Z) (w : World) :
  never_raises -> events <> [] ->
  Function.OCI_SDK_OK env = true ->
  Function.configure env = Ok (max_batch_count, max_batch_bytes) ->
  exists batches w' cs,
    Function.main env events w
    = (Ok (Function.Complete (len (delivered events)) (accepted cs)
             (rejected cs + decode_failures events) batches), w')
    /\ Trace w w' cs
    /\ concat (map payloads_of cs) = delivered events.
Proof.
  intros Hnever Hne Hsdk Hcfg. unfold Function.main.
  assert (Hlen : (len events =? 0) = false).
  { destruct events; [contradiction|]. rewrite len_cons.
    pose proof (len_nonneg events). apply Z.eqb_neq. lia. }
  rewrite Hlen, Hsdk. cbn [negb].
  unfold St.bind at 1, St.lift. rewrite Hcfg. cbv beta iota. cbn [fst snd].
  unfold St.bind at 1, St.with_local, St.bind.
  set (h0 := Function.new_HubBuffer max_batch_count max_batch_bytes).
  set (c0 := {| Function.processed_count := 0; Function.error_count := 0 |}).
  destruct (event_loop_answered events Hnever c0 h0 w eq_refl)
    as (c1 & h1 & w1 & cs1 & Hloop & Htr1 & Hc1 & Hp & He & Hs1 & Hf1 & _ & _).
  match goal with
  | |- context [@St.for_each ?S ?A ?V ?f events tt ?s] =>
      replace (@St.for_each S A V f events tt s) with (Ok tt, (c1, (h1, w1)))
        by (symmetry; exact Hloop)
  end.
  cbn [Function.buf h0 Function.new_HubBuffer app] in Hc1.
  assert (Henc1 : forallb encodable (Function.buf h1) = true).
  { apply (forallb_app_r _ (concat (map payloads_of cs1))). rewrite Hc1.
    apply delivered_encodable. }
  destruct (flush_if_needed_answered true h1 w1 Hnever Henc1)
    as (h2 & w2 & cs2 & Hflush & Htr2 & Hc2 & _ & Hs2 & Hf2 & _ & _ & Hempty).
  unfold St.on_snd, Function.flush. cbn [fst snd]. rewrite Hflush.
  cbn [fst snd]. unfold St.ret.
  exists (Function.batches h2), w2, (cs1 ++ cs2).
  split.
  { rewrite accepted_app, rejected_app, Hs2, Hf2, Hs1, Hf1, Hp, He.
    cbn [c0 h0 Function.new_HubBuffer Function.processed_count Function.error_count
         Function.sent Function.failed].
    repeat f_equal; lia. }
  split; [eapply Trace_trans; eassumption|].
  rewrite map_app, concat_app, <- Hc1, <- Hc2, (Hempty eq_refl), app_nil_r.
  reflexivity.
Qed.
End InvocationResult.

(** C7. In an invocation under a sink that answers, an event whose body
    fails to decode does not stop the loop: the payloads of the events
    before it and of the events after it all reach the sink, in order;
    [processed] counts those payloads and not the failed event; [failed]
    is the number of entries the sink refused plus the decode failures,
    the failed event among them. *)
Theorem decode_error_is_skipped_and_counted `{SinkAdapter}
        (env : Function.Settings)
        (before after : list Function.EventHubEvent) (bad : Function.EventHubEvent)
        (max_batch_count max_batch_bytes : Z) (w : World) :
  never_raises ->
  Function.OCI_SDK_OK env = true ->
  Function.configure env = Ok (max_batch_count, max_batch_bytes) ->
  decode (Function.get_body bad) = Raise UnicodeDecodeError ->
  exists batches w' cs,
    Function.main env (before ++ bad :: after) w
    = (Ok (Function.Complete
             (len (delivered before) + len (delivered after))
             (accepted cs)
             (rejected cs + (decode_failures before + 1 + decode_failures after))
             batches), w')
    /\ calls w' = calls w ++ cs
    /\ concat (map payloads_of cs) = delivered before ++ delivered after.
Proof.
  intros Hnever Hsdk Hcfg Hbad.
  assert (Hne : before ++ bad :: after <> []).
  { intros E. apply app_eq_nil in E as [_ E]. discriminate. }
  destruct (main_answered env _ max_batch_count max_batch_bytes w Hnever Hne Hsdk Hcfg)
    as (batches & w' & cs & Hrun & Htr & Hc).
  assert (Hd : delivered (before ++ bad :: after) = delivered before ++ delivered after).
  { rewrite delivered_app. unfold delivered at 2. cbn [flat_map].
    unfold payload_of at 1. rewrite Hbad. reflexivity. }
  assert (Hf : decode_failures (before ++ bad :: after)
               = decode_failures before + 1 + decode_failures after).
  { rewrite decode_failures_app. unfold decode_failures at 2. cbn [filter].
    unfold undecodable at 1. rewrite Hbad, len_cons. fold (decode_failures after). lia. }
  rewrite Hd, Hf, len_app in Hrun. rewrite Hd in Hc.
  exists batches, w', cs. split; [assumption|]. split; [apply Htr|assumption].
Qed.

Lemma decode_error_is_skipped_and_counted_witness :
  exists batches w' cs,
    @Function.main reliable_sink
      {| Function.OCI_SDK_OK := true; Function.configure := Ok (2, 1000) |}
      ([ev_a] ++ ev_bad :: [ev_b; ev_c]) (fresh_world reliable_sink tt)
    = (Ok (Function.Complete
             (len (delivered [ev_a]) + len (delivered [ev_b; ev_c]))
             (accepted cs)
             (rejected cs
              + (decode_failures [ev_a] + 1 + decode_failures [ev_b; ev_c]))
             batches), w')
    /\ calls w' = calls (fresh_world reliable_sink tt) ++ cs
    /\ concat (map payloads_of cs) = delivered [ev_a] ++ delivered [ev_b; ev_c].
Proof.
  apply (@decode_error_is_skipped_and_counted reliable_sink
           {| Function.OCI_SDK_OK := true; Function.configure := Ok (2, 1000) |}
           [ev_a] [ev_b; ev_c] ev_bad 2 1000 (fresh_world reliable_sink tt)).
  - exact reliable_never_raises.
  - reflexivity.
  - reflexivity.
  - reflexivity.
Defined.

(** * The drain script in log-only mode *)

(** C8, as stated, fails twice over.  A non-forced flush in log-only
    mode, which is what every received event triggers, neither clears
    the buffer nor prints; and a forced flush of an empty buffer prints
    nothing. *)
Lemma log_only_flush_may_keep_or_stay_silent :
  let w := fresh_world reliable_sink tt in
  (let run := @Consumer._flush_if_needed reliable_sink false (log_only_drainer [pa], w) in
   Consumer._buffer (fst (snd run)) = [pa] /\ console (snd (snd run)) = [])
  /\ (let run := @Consumer._flush_if_needed reliable_sink true (log_only_drainer [], w) in
      fst run = Ok tt /\ console (snd (snd run)) = []).
Proof. repeat split; reflexivity. Qed.

(** The log-only branch of [_flush_if_needed]. *)
Lemma log_only_run `{SinkAdapter} (force : bool) (d : Consumer.EventHubDrainer)
      (w : World) :
  Consumer.oci_sender d = None ->
  Consumer._flush_if_needed force (d, w) =
    match force, Consumer._buffer d with
    | true, _ :: _ =>
        (Ok tt, (Consumer.clear_buffer d,
                 printed (WouldSend (len (Consumer._buffer d))) w))
    | _, _ => (Ok tt, (d, w))
    end.
Proof.
  intros Hnone.
  unfold Consumer._flush_if_needed, Consumer.self, St.bind at 1, St.on_fst, St.get.
  cbn [fst snd]. rewrite Hnone.
  destruct force; destruct (Consumer._buffer d) as [|p t]; reflexivity.
Qed.

(** C8, amended. In log-only mode a forced flush of a non-empty buffer
    clears it and prints one notice giving the number of payloads
    dropped; a non-forced flush, or a flush of an empty buffer, leaves
    the drainer and the console as they were; in all cases no call is
    made to the sink and the totals are unchanged. *)
Theorem log_only_flush_discards_when_forced `{SinkAdapter}
        (force : bool) (d : Consumer.EventHubDrainer) (w : World) :
  Consumer.oci_sender d = None ->
  (force = true -> Consumer._buffer d <> [] ->
   Consumer._flush_if_needed force (d, w)
   = (Ok tt, (Consumer.clear_buffer d,
              printed (WouldSend (len (Consumer._buffer d))) w)))
  /\ (force = false \/ Consumer._buffer d = [] ->
      Consumer._flush_if_needed force (d, w) = (Ok tt, (d, w)))
  /\ calls (snd (snd (Consumer._flush_if_needed force (d, w)))) = calls w
  /\ sink (snd (snd (Consumer._flush_if_needed force (d, w)))) = sink w
  /\ Consumer.messages_sent (fst (snd (Consumer._flush_if_needed force (d, w))))
     = Consumer.messages_sent d
  /\ Consumer.messages_failed (fst (snd (Consumer._flush_if_needed force (d, w))))
     = Consumer.messages_failed d
  /\ Consumer.batches (fst (snd (Consumer._flush_if_needed force (d, w))))
     = Consumer.batches d.
Proof.
  intros Hnone. rewrite (log_only_run force d w Hnone).
  split; [|split].
  - intros -> Hne. destruct (Consumer._buffer d); [contradiction|reflexivity].
  - intros [-> | ->]; [reflexivity|]. destruct force; reflexivity.
  - destruct force; destruct (Consumer._buffer d); repeat split; reflexivity.
Qed.

Lemma log_only_flush_discards_when_forced_witness :
  Consumer.oci_sender (log_only_drainer [pa; pb]) = None
  /\ @Consumer._flush_if_needed reliable_sink true
       (log_only_drainer [pa; pb], fresh_world reliable_sink tt)
     = (Ok tt, (Consumer.clear_buffer (log_only_drainer [pa; pb]),
                printed (WouldSend 2) (fresh_world reliable_sink tt))).
Proof.
  split; [reflexivity|].
  apply (proj1 (@log_only_flush_discards_when_forced reliable_sink true
                  (log_only_drainer [pa; pb]) (fresh_world reliable_sink tt)
                  eq_refl)).
  - reflexivity.
  - discriminate.
Defined.

(** * Further properties of the size estimator and of the bounded sender *)

Lemma mapM_app {A B : Type} (f : A -> result B) (xs ys : list A) :
  Exc.mapM f (xs ++ ys)
  = Exc.bind (Exc.mapM f xs)
      (fun a => Exc.bind (Exc.mapM f ys) (fun b => Ok (a ++ b))).
Proof.
  induction xs as [|x xs IH]; cbn [app Exc.mapM].
  - cbn [Exc.bind]. destruct (Exc.mapM f ys); reflexivity.
  - destruct (f x) as [y|e]; cbn [Exc.bind]; [|reflexivity].
    rewrite IH. destruct (Exc.mapM f xs) as [a|e]; cbn [Exc.bind]; [|reflexivity].
    destruct (Exc.mapM f ys); reflexivity.
Qed.

Lemma sum_app (xs ys : list Z) : sum (xs ++ ys) = sum xs + sum ys.
Proof.
  induction xs as [|x xs IH]; [reflexivity|].
  cbn [app]. rewrite !sum_cons, IH. lia.
Qed.

Lemma sum_encoded_nonneg (messages : list str) (lens : list Z) :
  Exc.mapM encoded_len messages = Ok lens -> 0 <= sum lens.
Proof.
  revert lens. induction messages as [|m ms IH]; intros lens Hl.
  - injection Hl as <-. reflexivity.
  - cbn [Exc.mapM] in Hl. unfold encoded_len at 1 in Hl.
    destruct (encode m) as [b|e]; cbn [Exc.bind] in Hl; [|discriminate].
    destruct (Exc.mapM encoded_len ms) as [ls|e]; cbn [Exc.bind] in Hl; [|discriminate].
    injection Hl as <-. rewrite sum_cons.
    pose proof (IH ls eq_refl). pose proof (len_nonneg (b64encode b)). lia.
Qed.

Lemma estimate_app (xs ys : list str) (n : Z) :
  estimate_batch_bytes (xs ++ ys) = Ok n <->
  exists a b, estimate_batch_bytes xs = Ok a /\ estimate_batch_bytes ys = Ok b
              /\ n = a + b.
Proof.
  unfold estimate_batch_bytes, PER_MESSAGE_OVERHEAD. rewrite mapM_app.
  destruct (Exc.mapM encoded_len xs) as [la|e]; cbn [Exc.bind].
  2:{ split; [discriminate|]. intros (a & b & [=] & _). }
  destruct (Exc.mapM encoded_len ys) as [lb|e]; cbn [Exc.bind].
  2:{ split; [discriminate|]. intros (a & b & _ & [=] & _). }
  rewrite sum_app, len_app. split.
  - intros [= <-]. eexists _, _. split; [reflexivity|]. split; [reflexivity|]. lia.
  - intros (a & b & [= <-] & [= <-] & ->). f_equal. lia.
Qed.

Lemma estimate_at_least_overhead (xs : list str) (n : Z) :
  estimate_batch_bytes xs = Ok n -> 50 * len xs <= n.
Proof.
  unfold estimate_batch_bytes, PER_MESSAGE_OVERHEAD.
  destruct (Exc.mapM encoded_len xs) as [la|e] eqn:Hl; cbn [Exc.bind]; [|discriminate].
  intros [= <-]. pose proof (sum_encoded_nonneg _ _ Hl). lia.
Qed.

(** X1. The estimate of a concatenation exists exactly when the
    estimates of both parts do, and is their sum; an estimate is never
    below 50 per payload. *)
Theorem estimate_batch_bytes_additive (xs ys : list str) (n : Z) :
  (estimate_batch_bytes (xs ++ ys) = Ok n <->
   exists a b, estimate_batch_bytes xs = Ok a /\ estimate_batch_bytes ys = Ok b
               /\ n = a + b)
  /\ (estimate_batch_bytes xs = Ok n -> 50 * len xs <= n).
Proof.
  split; [apply estimate_app|apply estimate_at_least_overhead].
Qed.

Lemma estimate_batch_bytes_additive_witness :
  estimate_batch_bytes ([pa] ++ [pb; pc]) = Ok 162
  /\ 50 * len [pa; pb; pc] <= 162.
Proof.
  split.
  - apply (proj1 (estimate_batch_bytes_additive [pa] [pb; pc] 162)).
    exists 54, 108. repeat split; reflexivity.
  - apply (proj2 (estimate_batch_bytes_additive [pa; pb; pc] [] 162)). reflexivity.
Defined.

Lemma estimate_nonneg (xs : list str) (n : Z) : estimate_batch_bytes xs = Ok n -> 0 <= n.
Proof.
  intros He. pose proof (estimate_at_least_overhead xs n He).
  pose proof (len_nonneg xs). lia.
Qed.

(** A batch that fits still fits when payloads are taken off its end. *)
Lemma fits_prefix (max_bytes max_count : Z) (xs ys : list str) :
  fits max_bytes max_count (xs ++ ys) -> fits max_bytes max_count xs.
Proof.
  intros [Hlen (n & Hn & Hle)]. rewrite len_app in Hlen.
  apply (proj1 (estimate_app xs ys n)) in Hn
    as (a & b & Ha & Hb & ->).
  pose proof (estimate_nonneg _ _ Hb). pose proof (len_nonneg ys).
  split; [lia|]. exists a. split; [assumption|lia].
Qed.

Lemma fits_suffix (max_bytes max_count : Z) (xs ys : list str) :
  fits max_bytes max_count (xs ++ ys) -> fits max_bytes max_count ys.
Proof.
  intros [Hlen (n & Hn & Hle)]. rewrite len_app in Hlen.
  apply (proj1 (estimate_app xs ys n)) in Hn
    as (a & b & Ha & Hb & ->).
  pose proof (estimate_nonneg _ _ Ha). pose proof (len_nonneg xs).
  split; [lia|]. exists b. split; [assumption|lia].
Qed.

(** While everything fits the loop only extends the batch. *)
Lemma pack_loop_all_fit `{SinkAdapter} (max_bytes max_count : Z) (ps : list str) :
  forall (v : Packing) (w : World),
    fits max_bytes max_count (batch v ++ ps) ->
    exists v',
      St.for_each (Function.pack_step max_bytes max_count) ps v w = (Ok v', w)
      /\ batch v' = batch v ++ ps
      /\ total_sent v' = total_sent v
      /\ total_failed v' = total_failed v
      /\ nbatches v' = nbatches v.
Proof.
  induction ps as [|p ps IH]; intros v w Hfit.
  - exists v. rewrite app_nil_r. repeat split; reflexivity.
  - cbn [St.for_each]. unfold St.bind.
    assert (Hfit1 : fits max_bytes max_count (batch v ++ [p])).
    { apply (fits_prefix _ _ _ ps). rewrite <- app_assoc. exact Hfit. }
    rewrite (pack_step_keep _ _ _ _ _ Hfit1).
    destruct (IH (keep v p) w) as (v' & Hrun & Hb & Hs & Hf & Hn).
    { cbn [keep batch]. rewrite <- app_assoc. exact Hfit. }
    exists v'. cbn [keep batch total_sent total_failed nbatches] in *.
    rewrite <- app_assoc in Hb. repeat split; assumption.
Qed.

(** X2. A non-empty list that is within both limits as a whole goes out
    in exactly one call, for the whole list; when the sink answers,
    [send_with_limits] returns its counts and one batch, and when it
    raises, so does [send_with_limits]. *)
Theorem send_with_limits_single_batch `{SinkAdapter}
        (payloads : list str) (max_bytes max_count : Z) (w : World) :
  payloads <> [] -> fits max_bytes max_count payloads ->
  exists c,
    calls (snd (Function.send_with_limits payloads max_bytes max_count w))
    = calls w ++ [c]
    /\ payloads_of c = payloads
    /\ fst (Function.send_with_limits payloads max_bytes max_count w)
       = match reply c with
         | Ok _ => Ok (accepted [c], rejected [c], 1)
         | Raise e => Raise e
         end.
Proof.
  intros Hne Hfit. unfold Function.send_with_limits, St.bind.
  destruct (pack_loop_all_fit max_bytes max_count payloads
              {| total_sent := 0; total_failed := 0; nbatches := 0; batch := [] |} w Hfit)
    as (v' & Hrun & Hb & Hs & Hf & Hn).
  rewrite Hrun. cbn [batch total_sent total_failed nbatches app] in *.
  unfold Function.pack_finish. rewrite Hb, Hs, Hf, Hn.
  destruct payloads as [|p t] eqn:Hp; [contradiction|]. rewrite <- Hp in *.
  unfold St.bind.
  destruct (Function.send_batch payloads w) as [r0 w0] eqn:Hsend.
  destruct (send_batch_spec _ _ _ _ Hsend)
    as [(E & _) | [(_ & _ & e & He & _) | (_ & _ & c & Htr & Hpc & Hrep & _)]].
  - rewrite Hp in E. discriminate.
  - exfalso. destruct Hfit as [_ (n & Hn' & _)].
    apply estimate_encodable in Hn'.
    destruct (mapM_entry_value_total _ Hn') as [es Hes]. congruence.
  - exists c. destruct (reply c) as [flags|e]; subst r0; cbn [fst snd];
      (split; [apply Htr|]); (split; [assumption|]); reflexivity.
Qed.

Lemma send_with_limits_single_batch_witness :
  exists c,
    calls (snd (@Function.send_with_limits refusing_sink [pa; pb] 1000 2
                  (fresh_world refusing_sink tt)))
    = calls (fresh_world refusing_sink tt) ++ [c]
    /\ payloads_of c = [pa; pb]
    /\ fst (@Function.send_with_limits refusing_sink [pa; pb] 1000 2
              (fresh_world refusing_sink tt))
       = match reply c with
         | Ok _ => Ok (accepted [c], rejected [c], 1)
         | Raise e => Raise e
         end.
Proof.
  apply (@send_with_limits_single_batch refusing_sink [pa; pb] 1000 2
           (fresh_world refusing_sink tt)).
  - discriminate.
  - split; [vm_compute; discriminate|]. exists 108. split; [reflexivity|lia].
Defined.

(** Estimate of a contiguous part of a list that has one. *)
Lemma estimate_infix (pre mid post : list str) (n : Z) :
  estimate_batch_bytes (pre ++ mid ++ post) = Ok n ->
  exists m, estimate_batch_bytes mid = Ok m /\ m <= n.
Proof.
  intros Hn.
  apply (proj1 (estimate_app pre (mid ++ post) n)) in Hn
    as (a & b & Ha & Hb & ->).
  apply (proj1 (estimate_app mid post b)) in Hb
    as (m & c & Hm & Hc & ->).
  pose proof (estimate_nonneg _ _ Ha). pose proof (estimate_nonneg _ _ Hc).
  exists m. split; [assumption|lia].
Qed.

(** Under a byte limit the whole input is within, greedy batches are
    full: each batch that has a successor holds [max_count] payloads. *)
Lemma greedy_full_batches (max_bytes max_count : Z) (bs : list (list str)) :
  1 <= max_count ->
  forall (pre : list str) (n : Z),
    estimate_batch_bytes (pre ++ concat bs) = Ok n -> n <= max_bytes ->
    Forall (well_packed max_bytes max_count) bs ->
    greedy max_bytes max_count bs ->
    Forall (fun b => len b = max_count) (removelast bs).
Proof.
  intros Hmc. induction bs as [|b1 rest IH]; intros pre n Hn Hle Hwp Hg; [constructor|].
  destruct rest as [|b2 rest]; [constructor|].
  change (removelast (b1 :: b2 :: rest)) with (b1 :: removelast (b2 :: rest)).
  cbn [greedy] in Hg. destruct Hg as [(p & t & -> & Hnofit) Hg].
  inversion Hwp as [|? ? Hwp1 Hwp2]; subst.
  constructor.
  - destruct Hwp1 as (Hne & _ & Htidy).
    assert (Hlen1 : len b1 <= max_count).
    { destruct Htidy as [[Hl _]|Hl]; [exact Hl|]. unfold len. lia. }
    assert (Hest : exists m, estimate_batch_bytes (b1 ++ [p]) = Ok m /\ m <= n).
    { apply (estimate_infix pre (b1 ++ [p]) (t ++ concat rest)).
      cbn [concat] in Hn. rewrite <- Hn. f_equal.
      rewrite <- !app_assoc. reflexivity. }
    destruct Hest as (m & Hm & Hmn).
    destruct (Z_le_gt_dec (len (b1 ++ [p])) max_count) as [Hfits|Hover].
    + exfalso. apply Hnofit. split; [assumption|]. exists m. split; [assumption|lia].
    + rewrite len_app in Hover. change (len [p]) with 1 in Hover. lia.
  - apply (IH (pre ++ b1) n); try assumption.
    rewrite <- app_assoc. exact Hn.
Qed.

(** X3. When the byte limit does not bind (the estimate of the whole
    input is within [max_bytes]), [max_count >= 1] and the sink answers,
    the payloads go out in order in batches of exactly [max_count], the
    last batch alone being possibly shorter. *)
Theorem send_with_limits_chunks_by_count `{SinkAdapter}
        (payloads : list str) (max_bytes max_count n : Z) (w : World) :
  never_raises -> 1 <= max_count ->
  estimate_batch_bytes payloads = Ok n -> n <= max_bytes ->
  exists s f b w' sent_batches,
    Function.send_with_limits payloads max_bytes max_count w = (Ok (s, f, b), w')
    /\ dispatched w' = dispatched w ++ sent_batches
    /\ concat sent_batches = payloads
    /\ Forall (fun x => len x = max_count) (removelast sent_batches)
    /\ Forall (fun x => 1 <= len x <= max_count) sent_batches
    /\ b = len sent_batches.
Proof.
  intros Hnever Hmc Hn Hle.
  pose proof (estimate_encodable _ _ Hn) as Henc.
  destruct (send_with_limits_returns max_bytes max_count payloads w Hnever Henc)
    as (s & f & b & w' & Hrun).
  destruct (send_with_limits_spec _ _ _ _ _ _ Hrun) as (cs & Htr & Hwp & _ & Hok & _).
  destruct (Hok s f b eq_refl) as (Hc & _ & _ & Hg & Hb0 & Hb).
  assert (Hwp' : Forall (well_packed max_bytes max_count) (map payloads_of cs)).
  { apply Forall_map. exact Hwp. }
  exists s, f, b, w', (map payloads_of cs).
  split; [assumption|]. split; [apply Trace_dispatched; assumption|].
  split; [assumption|]. split; [|split].
  - apply (greedy_full_batches max_bytes max_count _ Hmc [] n); try assumption.
    cbn [app]. rewrite Hc. exact Hn.
  - eapply Forall_impl; [|exact Hwp'].
    intros x (Hne & _ & Htidy). split.
    + destruct x; [contradiction|]. rewrite len_cons. pose proof (len_nonneg x). lia.
    + destruct Htidy as [[Hl _]|Hl]; [exact Hl|]. unfold len. lia.
  - unfold len at 1. rewrite length_map. fold (len cs).
    destruct payloads as [|p rest].
    + rewrite (Hb0 eq_refl). destruct cs as [|c cs']; [reflexivity|].
      exfalso. inversion Hwp as [|? ? (Hne & _) _]; subst.
      cbn [map concat] in Hc. apply app_eq_nil in Hc as [Hc _]. contradiction.
    + apply (Hb p rest eq_refl).
      destruct (estimate_infix [] [p] rest n Hn) as (m & Hm & Hmn).
      split; [change (len [p]) with 1; lia|].
      exists m. split; [assumption|lia].
Qed.

Lemma send_with_limits_chunks_by_count_witness :
  exists s f b w' sent_batches,
    @Function.send_with_limits reliable_sink [pa; pb; pc; pa; pb] 1000 2
      (fresh_world reliable_sink tt) = (Ok (s, f, b), w')
    /\ dispatched w' = dispatched (fresh_world reliable_sink tt) ++ sent_batches
    /\ concat sent_batches = [pa; pb; pc; pa; pb]
    /\ Forall (fun x => len x = 2) (removelast sent_batches)
    /\ Forall (fun x => 1 <= len x <= 2) sent_batches
    /\ b = len sent_batches.
Proof.
  apply (@send_with_limits_chunks_by_count reliable_sink [pa; pb; pc; pa; pb]
           1000 2 270 (fresh_world reliable_sink tt)).
  - exact reliable_never_raises.
  - lia.
  - reflexivity.
  - lia.
Defined.

Lemma singletons_of_concat {A : Type} (bs : list (list A)) :
  Forall (fun b => exists x, b = [x]) bs -> bs = map (fun x => [x]) (concat bs).
Proof.
  induction 1 as [|b bs (x & ->) _ IH]; [reflexivity|].
  cbn [concat app map]. rewrite <- IH. reflexivity.
Qed.

(** X4. When no two neighbouring payloads fit in one batch together and
    the sink answers, every payload goes out in a batch of its own, in
    the order of the input. *)
Theorem send_with_limits_singletons `{SinkAdapter}
        (payloads : list str) (max_bytes max_count : Z) (w : World) :
  never_raises -> forallb encodable payloads = true ->
  (forall pre p q post, payloads = pre ++ p :: q :: post ->
                        ~ fits max_bytes max_count [p; q]) ->
  exists s f b w',
    Function.send_with_limits payloads max_bytes max_count w = (Ok (s, f, b), w')
    /\ dispatched w' = dispatched w ++ map (fun p => [p]) payloads.
Proof.
  intros Hnever Henc Hpairs.
  destruct (send_with_limits_returns max_bytes max_count payloads w Hnever Henc)
    as (s & f & b & w' & Hrun).
  destruct (send_with_limits_spec _ _ _ _ _ _ Hrun) as (cs & Htr & Hwp & _ & Hok & _).
  destruct (Hok s f b eq_refl) as (Hc & _).
  exists s, f, b, w'. split; [assumption|].
  rewrite (Trace_dispatched _ _ _ Htr). f_equal.
  rewrite <- Hc. apply singletons_of_concat.
  apply Forall_forall. intros x Hin.
  apply in_split in Hin as (l1 & l2 & Hsplit).
  assert (Hx : well_packed max_bytes max_count x).
  { apply Forall_map in Hwp. rewrite Forall_forall in Hwp. apply Hwp.
    rewrite Hsplit. apply in_elt. }
  destruct Hx as (Hne & _ & Htidy).
  destruct x as [|p [|q t]]; [contradiction|eauto|]. exfalso.
  destruct Htidy as [Hfit|Hshort]; [|cbn in Hshort; lia].
  apply (Hpairs (concat l1) p q (t ++ concat l2)).
  - rewrite <- Hc, Hsplit, concat_app. reflexivity.
  - apply (fits_prefix _ _ [p; q] t). exact Hfit.
Qed.

Lemma send_with_limits_singletons_witness :
  exists s f b w',
    @Function.send_with_limits reliable_sink [pa; pb; pc] 100 10
      (fresh_world reliable_sink tt) = (Ok (s, f, b), w')
    /\ dispatched w'
       = dispatched (fresh_world reliable_sink tt) ++ map (fun p => [p]) [pa; pb; pc].
Proof.
  apply (@send_with_limits_singletons reliable_sink [pa; pb; pc] 100 10
           (fresh_world reliable_sink tt)).
  - exact reliable_never_raises.
  - reflexivity.
  - intros pre p q post Hsplit [_ (n & Hn & Hle)].
    destruct pre as [|x [|y pre]]; cbn in Hsplit; inversion Hsplit; subst.
    1, 2: vm_compute in Hn; injection Hn as <-; lia.
    match goal with
    | E : [_] = _ ++ _ :: _ :: _ |- _ => destruct pre as [|z [|z' pre]]; discriminate E
    end.
Defined.

(** * What the recorded calls are *)

Section RecordedCalls.
Context `{SinkAdapter}.

Lemma mapM_length {A B : Type} (f : A -> result B) (xs : list A) (ys : list B) :
  Exc.mapM f xs = Ok ys -> length ys = length xs.
Proof.
  revert ys. induction xs as [|x xs IH]; intros ys Hm.
  - injection Hm as <-. reflexivity.
  - cbn [Exc.mapM] in Hm. destruct (f x); cbn [Exc.bind] in Hm; [|discriminate].
    destruct (Exc.mapM f xs) as [zs|]; cbn [Exc.bind] in Hm; [|discriminate].
    injection Hm as <-. cbn [length]. rewrite (IH zs eq_refl). reflexivity.
Qed.

(** The call [send_batch] records is what the client answered on the
    entries of that batch. *)
Lemma send_batch_reply (b : list str) (w : World) (r : result (Z * Z)) (w' : World)
      (c : Call) :
  Function.send_batch b w = (r, w') -> calls w' = calls w ++ [c] ->
  exists es, Exc.mapM entry_value (payloads_of c) = Ok es
             /\ reply c = fst (put_messages (sink w) es).
Proof.
  destruct b as [|p b].
  { cbn. intros [= _ <-] Hc. apply calls_unchanged in Hc. discriminate. }
  unfold Function.send_batch, St.bind, St.lift.
  destruct (Exc.mapM entry_value (p :: b)) as [es|e] eqn:Hes.
  2:{ intros [= _ <-] Hc. apply calls_unchanged in Hc. discriminate. }
  unfold client_put_messages.
  destruct (put_messages (sink w) es) as [rp k] eqn:Hput.
  intros Hrun Hc. exists es.
  assert (Hw : calls w' = calls w ++ [{| payloads_of := p :: b; reply := rp |}]).
  { destruct rp; cbn in Hrun; injection Hrun as _ <-; reflexivity. }
  rewrite Hw in Hc. apply app_inv_head in Hc. injection Hc as <-.
  cbn [payloads_of reply]. rewrite Hput. split; [assumption|reflexivity].
Qed.

Lemma send_batch_matched (b : list str) (w : World) (r : result (Z * Z)) (w' : World)
      (c : Call) :
  one_result_per_entry ->
  Function.send_batch b w = (r, w') -> calls w' = calls w ++ [c] -> matched_call c.
Proof.
  intros Hone Hrun Hc flags Hf.
  destruct (send_batch_reply _ _ _ _ _ Hrun Hc) as (es & Hes & Hrep).
  rewrite Hrep in Hf. rewrite (Hone _ _ _ Hf). eapply mapM_length; eassumption.
Qed.

Variables max_bytes max_count : Z.

(** The calls of the packing loop: each is matched when the sink
    returns one result per entry, and a call that raised is the last. *)
Lemma pack_loop_calls (ps : list str) :
  forall (v : Packing) (w : World) (r : result Packing) (w' : World),
    St.for_each (Function.pack_step max_bytes max_count) ps v w = (r, w') ->
    exists cs,
      calls w' = calls w ++ cs
      /\ (one_result_per_entry -> Forall matched_call cs)
      /\ Forall answered_call (removelast cs)
      /\ (forall v', r = Ok v' -> Forall answered_call cs).
Proof.
  induction ps as [|p ps IH]; intros v w r w' Hrun.
  { cbn in Hrun. injection Hrun as <- <-. exists [].
    rewrite app_nil_r. split; [reflexivity|]. split; [constructor|].
    split; constructor. }
  cbn [St.for_each] in Hrun. unfold St.bind in Hrun.
  destruct (Function.pack_step max_bytes max_count v p w) as [r1 w1] eqn:Hstep.
  apply pack_step_spec in Hstep
    as [(_ & -> & ->) | [(_ & -> & e & _ & ->) | (_ & _ & r0 & Hsend & ->)]].
  - apply IH in Hrun. exact Hrun.
  - injection Hrun as <- <-. exists []. rewrite app_nil_r.
    split; [reflexivity|]. split; [constructor|]. split; [constructor|].
    intros v' [=].
  - destruct (send_batch_spec _ _ _ _ Hsend)
      as [(_ & -> & ->) | [(_ & -> & e & _ & ->) | (_ & _ & c & [Htr _] & _ & Hrep & _)]].
    + cbn [Exc.bind] in Hrun. apply IH in Hrun. exact Hrun.
    + cbn [Exc.bind] in Hrun. injection Hrun as <- <-. exists [].
      rewrite app_nil_r. split; [reflexivity|]. split; [constructor|].
      split; [constructor|]. intros v' [=].
    + assert (Hm : one_result_per_entry -> matched_call c).
      { intros Hone. eapply send_batch_matched; eassumption. }
      destruct (reply c) as [flags|e] eqn:Hrc; subst r0; cbn [Exc.bind] in Hrun.
      * destruct (IH _ _ _ _ Hrun) as (cs & Hcs & Hmatched & Hlast & Hall).
        assert (Ha : answered_call c) by (exists flags; assumption).
        exists (c :: cs). split; [rewrite Hcs, Htr, <- app_assoc; reflexivity|].
        split; [intros Hone; constructor; auto|]. split.
        -- destruct cs as [|c' cs']; [constructor|].
           change (removelast (c :: c' :: cs')) with (c :: removelast (c' :: cs')).
           constructor; assumption.
        -- intros v' Hv. constructor; [assumption|eauto].
      * injection Hrun as <- <-. exists [c]. split; [assumption|].
        split; [intros Hone; constructor; auto|]. split; [constructor|].
        intros v' [=].
Qed.

Lemma send_with_limits_calls (ps : list str) (w : World)
      (r : result (Z * Z * Z)) (w' : World) :
  Function.send_with_limits ps max_bytes max_count w = (r, w') ->
  exists cs,
    calls w' = calls w ++ cs
    /\ (one_result_per_entry -> Forall matched_call cs)
    /\ Forall answered_call (removelast cs)
    /\ (forall sfb, r = Ok sfb -> Forall answered_call cs).
Proof.
  unfold Function.send_with_limits, St.bind.
  destruct (St.for_each _ ps _ w) as [r1 w1] eqn:Hloop.
  destruct (pack_loop_calls _ _ _ _ _ Hloop) as (cs & Hcs & Hmatched & Hlast & Hall).
  destruct r1 as [v'|e].
  2:{ intros [= <- <-]. exists cs. split; [assumption|]. split; [assumption|].
      split; [assumption|]. intros sfb [=]. }
  specialize (Hall v' eq_refl).
  unfold Function.pack_finish. destruct (batch v') as [|q t] eqn:Hb.
  { intros [= <- <-]. exists cs. split; [assumption|]. split; [assumption|].
    split; [assumption|]. intros _ _. assumption. }
  rewrite <- Hb. unfold St.bind.
  destruct (Function.send_batch (batch v') w1) as [r0 w0] eqn:Hsend.
  destruct (send_batch_spec _ _ _ _ Hsend)
    as [(E & _) | [(_ & -> & e & _ & ->) | (_ & _ & c & [Htr _] & _ & Hrep & _)]].
  - rewrite Hb in E. discriminate.
  - intros [= <- <-]. exists cs. split; [assumption|]. split; [assumption|].
    split; [assumption|]. intros sfb [=].
  - assert (Hm : one_result_per_entry -> matched_call c).
    { intros Hone. eapply send_batch_matched; eassumption. }
    intros Hrun. assert (w' = w0) as -> by (destruct r0; injection Hrun; auto).
    exists (cs ++ [c]). split; [rewrite Htr, Hcs, <- app_assoc; reflexivity|].
    split; [intros Hone; apply Forall_app; split; [auto|constructor; auto]|].
    split; [rewrite removelast_last; assumption|].
    intros sfb ->. apply Forall_app. split; [assumption|]. constructor; [|constructor].
    destruct (reply c) as [flags|e] eqn:Hrc; [exists flags; exact Hrc|].
    subst r0. discriminate.
Qed.
End RecordedCalls.

Lemma answered_length (cs : list Call) :
  Forall matched_call cs -> Forall answered_call cs ->
  accepted cs + rejected cs = len (concat (map payloads_of cs)).
Proof.
  intros Hm Ha. unfold accepted, rejected, answered.
  induction cs as [|c cs IH]; [reflexivity|].
  inversion Hm as [|? ? Hm1 Hm2]; inversion Ha as [|? ? [flags Hf] Ha2]; subst.
  specialize (IH Hm2 Ha2). cbn [flat_map map concat].
  rewrite Hf, !filter_app, !len_app.
  assert (Hl : len (filter negb flags) + len (filter (fun e : bool => e) flags)
               = len (payloads_of c)).
  { unfold len. rewrite <- (Hm1 flags Hf). clear.
    induction flags as [|[|] flags IH]; cbn [filter negb length]; lia. }
  lia.
Qed.

(** X5. With a sink that returns one result per entry, when
    [send_with_limits] returns, every payload is accounted for: the
    counts of sent and failed are not negative and add up to the number
    of payloads. *)
Theorem send_with_limits_accounts_for_all `{SinkAdapter}
        (payloads : list str) (max_bytes max_count s f b : Z) (w w' : World) :
  one_result_per_entry ->
  Function.send_with_limits payloads max_bytes max_count w = (Ok (s, f, b), w') ->
  0 <= s /\ 0 <= f /\ s + f = len payloads.
Proof.
  intros Hone Hrun.
  destruct (send_with_limits_spec _ _ _ _ _ _ Hrun) as (cs & [Hcs _] & _ & _ & Hok & _).
  destruct (Hok s f b eq_refl) as (Hc & -> & -> & _).
  destruct (send_with_limits_calls _ _ _ _ _ _ Hrun) as (cs' & Hcs' & Hm & _ & Ha).
  assert (cs' = cs) as -> by (apply (app_inv_head (calls w)); congruence).
  split; [apply accepted_nonneg|]. split; [apply rejected_nonneg|].
  rewrite <- Hc. apply answered_length; eauto.
Qed.

Lemma alternate_length (refuse : bool) (entries : list str) :
  length (alternate refuse entries) = length entries.
Proof.
  revert refuse. induction entries as [|x entries IH]; intros refuse; [reflexivity|].
  cbn [alternate length]. rewrite IH. reflexivity.
Qed.

Lemma picky_one_result_per_entry : @one_result_per_entry picky_sink.
Proof. intros k entries flags [= <-]. apply alternate_length. Qed.

Lemma send_with_limits_accounts_for_all_witness :
  0 <= 1 /\ 0 <= 2 /\ 1 + 2 = len [pa; pb; pc].
Proof.
  apply (@send_with_limits_accounts_for_all picky_sink [pa; pb; pc] 1000 2 1 2 2
           (fresh_world picky_sink tt)
           (snd (@Function.send_with_limits picky_sink [pa; pb; pc] 1000 2
                   (fresh_world picky_sink tt)))).
  - exact picky_one_result_per_entry.
  - reflexivity.
Defined.

(** X6. [send_with_limits] stops at the first call that raises: in the
    calls it made, every call but the last was answered, whatever the
    sink does; and when it returns, all of them were. *)
Theorem send_with_limits_stops_at_failure `{SinkAdapter}
        (payloads : list str) (max_bytes max_count : Z) (w : World) :
  exists cs,
    calls (snd (Function.send_with_limits payloads max_bytes max_count w))
    = calls w ++ cs
    /\ Forall answered_call (removelast cs)
    /\ (forall sfb,
          fst (Function.send_with_limits payloads max_bytes max_count w) = Ok sfb ->
          Forall answered_call cs)
    /\ (forall c e, In c cs -> reply c = Raise e ->
          fst (Function.send_with_limits payloads max_bytes max_count w) = Raise e).
Proof.
  destruct (Function.send_with_limits payloads max_bytes max_count w) as [r w'] eqn:Hrun.
  destruct (send_with_limits_calls _ _ _ _ _ _ Hrun) as (cs & Hcs & _ & Hlast & Ha).
  destruct (send_with_limits_spec _ _ _ _ _ _ Hrun) as (cs' & [Hcs' _] & _ & Hex & _).
  assert (cs' = cs) as -> by (apply (app_inv_head (calls w)); congruence).
  exists cs. cbn [fst snd]. repeat split; assumption.
Qed.

(** * Further properties of the buffer *)

(** X7. Whatever the sink does, when [add] returns the buffer is either
    empty or strictly below both thresholds; the limits are unchanged. *)
Theorem add_leaves_buffer_below_thresholds `{SinkAdapter}
        (p : str) (h h' : Function.HubBuffer) (w w' : World) :
  Function.add p (h, w) = (Ok tt, (h', w')) ->
  Function.max_count h' = Function.max_count h
  /\ Function.max_bytes h' = Function.max_bytes h
  /\ (Function.buf h' = []
      \/ (len (Function.buf h') < Function.max_count h'
          /\ exists n, estimate_batch_bytes (Function.buf h') = Ok n
                       /\ n < Function.max_bytes h')).
Proof.
  rewrite add_run, flush_if_needed_run.
  set (h1 := Function.set_buf (Function.buf h ++ [p]) h).
  destruct (Function.buf h1) as [|q t] eqn:Hb.
  { intros [= <- <-]. repeat split; try reflexivity. left. exact Hb. }
  rewrite <- Hb. unfold Function.flush_due.
  destruct (Z.geb_spec (len (Function.buf h1)) (Function.max_count h1)) as [Hc|Hc].
  2: destruct (estimate_batch_bytes (Function.buf h1)) as [n|e] eqn:He;
    cbn [Exc.bind]; [|discriminate].
  2: destruct (Z.geb_spec n (Function.max_bytes h1)) as [Hn|Hn].
  3:{ intros [= <- <-]. repeat split; try reflexivity. right.
      split; [assumption|]. exists n. split; assumption. }
  all: destruct (Function.send_with_limits (Function.buf h1) (Function.max_bytes h1)
                   (Function.max_count h1) w) as [[sfb|e] w1]; [|discriminate];
    intros [= <- <-]; repeat split; try reflexivity; left; reflexivity.
Qed.

Lemma add_leaves_buffer_below_thresholds_witness :
  let h := Function.new_HubBuffer 2 1000 in
  let run := @Function.add failing_sink pa (h, fresh_world failing_sink O) in
  Function.max_count (fst (snd run)) = Function.max_count h
  /\ Function.max_bytes (fst (snd run)) = Function.max_bytes h
  /\ (Function.buf (fst (snd run)) = []
      \/ (len (Function.buf (fst (snd run))) < Function.max_count (fst (snd run))
          /\ exists n, estimate_batch_bytes (Function.buf (fst (snd run))) = Ok n
                       /\ n < Function.max_bytes (fst (snd run)))).
Proof.
  intros h run.
  apply (@add_leaves_buffer_below_thresholds failing_sink pa h (fst (snd run))
           (fresh_world failing_sink O) (snd (snd run))).
  reflexivity.
Defined.

Lemma for_each_app {S A V : Type} (body : V -> A -> M S V) (xs ys : list A) (v : V)
      (s : S) :
  St.for_each body (xs ++ ys) v s
  = St.bind (St.for_each body xs v) (St.for_each body ys) s.
Proof.
  revert v s. induction xs as [|x xs IH]; intros v s; cbn [app St.for_each].
  - reflexivity.
  - unfold St.bind. destruct (body v x s) as [[v1|e] s1]; [|reflexivity].
    rewrite IH. reflexivity.
Qed.

Lemma send_batch_at_most_one `{SinkAdapter} (b : list str) (w : World) :
  exists cs, calls (snd (Function.send_batch b w)) = calls w ++ cs
             /\ (length cs <= 1)%nat.
Proof.
  destruct (Function.send_batch b w) as [r w'] eqn:Hsend. cbn [snd].
  destruct (send_batch_spec _ _ _ _ Hsend)
    as [(_ & _ & ->) | [(_ & -> & _) | (_ & _ & c & [Htr _] & _)]].
  - exists []. rewrite app_nil_r. split; [reflexivity|cbn; lia].
  - exists []. rewrite app_nil_r. split; [reflexivity|cbn; lia].
  - exists [c]. split; [assumption|cbn; lia].
Qed.

(** X8. When the buffer is empty or within both limits, one [add] makes
    at most two calls to the sink, whatever the sink does. *)
Theorem add_makes_at_most_two_calls `{SinkAdapter}
        (p : str) (h : Function.HubBuffer) (w : World) :
  Function.buf h = []
  \/ fits (Function.max_bytes h) (Function.max_count h) (Function.buf h) ->
  exists cs,
    calls (snd (snd (Function.add p (h, w)))) = calls w ++ cs
    /\ (length cs <= 2)%nat.
Proof.
  intros Hbuf. rewrite add_run, flush_if_needed_run.
  set (h1 := Function.set_buf (Function.buf h ++ [p]) h).
  assert (Hidle : exists cs, calls w = calls w ++ cs /\ (length cs <= 2)%nat).
  { exists []. rewrite app_nil_r. split; [reflexivity|cbn; lia]. }
  destruct (Function.buf h1) as [|q0 t1] eqn:Hb; [exact Hidle|]. rewrite <- Hb. clear Hb q0 t1.
  destruct (Function.flush_due false h1) as [[|]|e]; try exact Hidle.
  change (Function.buf h1) with (Function.buf h ++ [p]).
  change (Function.max_bytes h1) with (Function.max_bytes h).
  change (Function.max_count h1) with (Function.max_count h).
  set (mb := Function.max_bytes h) in *. set (mc := Function.max_count h) in *.
  assert (Hsend : exists cs,
             calls (snd (Function.send_with_limits (Function.buf h ++ [p]) mb mc w))
             = calls w ++ cs /\ (length cs <= 2)%nat).
  { unfold Function.send_with_limits. unfold St.bind at 1. rewrite for_each_app.
    unfold St.bind at 1.
    assert (Hpre : exists v1,
               St.for_each (Function.pack_step mb mc) (Function.buf h)
                 {| total_sent := 0; total_failed := 0; nbatches := 0; batch := [] |} w
               = (Ok v1, w) /\ batch v1 = Function.buf h).
    { destruct Hbuf as [->|Hfit].
      - eexists. split; reflexivity.
      - destruct (pack_loop_all_fit mb mc (Function.buf h)
                    {| total_sent := 0; total_failed := 0; nbatches := 0; batch := [] |}
                    w Hfit) as (v1 & Hrun & Hb1 & _).
        exists v1. split; assumption. }
    destruct Hpre as (v1 & -> & Hb1).
    cbn [St.for_each]. unfold St.bind at 1.
    destruct (Function.pack_step mb mc v1 p w) as [r2 w2] eqn:Hstep.
    destruct (pack_step_spec _ _ _ _ _ _ _ Hstep)
      as [(_ & -> & ->) | [(_ & -> & e & _ & ->) | (_ & _ & r0 & Hs0 & ->)]].
    - unfold St.ret at 1. unfold Function.pack_finish.
      destruct (batch (keep v1 p)) as [|x0 t0]; [exact Hidle|].
      unfold St.bind.
      destruct (send_batch_at_most_one (x0 :: t0) w) as (cs & Hcs & Hl).
      destruct (Function.send_batch (x0 :: t0) w) as [[sf|e] w3]; cbn [snd] in *;
        exists cs; (split; [assumption|lia]).
    - exact Hidle.
    - destruct (send_batch_at_most_one (batch v1) w) as (cs1 & Hcs1 & Hl1).
      rewrite Hs0 in Hcs1. cbn [snd] in Hcs1.
      destruct r0 as [sf|e]; cbn [Exc.bind].
      2:{ exists cs1. split; [assumption|lia]. }
      unfold St.ret at 1. unfold Function.pack_finish. cbn [close batch].
      unfold St.bind.
      destruct (send_batch_at_most_one [p] w2) as (cs2 & Hcs2 & Hl2).
      destruct (Function.send_batch [p] w2) as [[sf2|e] w3]; cbn [snd] in *;
        exists (cs1 ++ cs2); rewrite length_app;
        (split; [unfold St.ret; cbn [snd]; rewrite Hcs2, Hcs1, <- app_assoc; reflexivity|lia]). }
  destruct Hsend as (cs & Hcs & Hl).
  destruct (Function.send_with_limits (Function.buf h ++ [p]) mb mc w) as [[sfb|e] w1];
    cbn [snd] in *; exists cs; split; assumption.
Qed.

Lemma add_makes_at_most_two_calls_witness :
  let h := {| Function.max_count := 5; Function.max_bytes := 120;
              Function.buf := [pa; pb];
              Function.sent := 0; Function.failed := 0; Function.batches := 0 |} in
  exists cs,
    calls (snd (snd (@Function.add reliable_sink pc (h, fresh_world reliable_sink tt))))
    = calls (fresh_world reliable_sink tt) ++ cs
    /\ (length cs <= 2)%nat.
Proof.
  intros h.
  apply (@add_makes_at_most_two_calls reliable_sink pc h (fresh_world reliable_sink tt)).
  right. split; [vm_compute; discriminate|].
  exists 108. split; [reflexivity|vm_compute; discriminate].
Defined.

Section AddsThenFlush.
Context `{SinkAdapter}.

Lemma add_loop_answered (ps : list str) :
  never_raises ->
  forall (h : Function.HubBuffer) (w : World),
    forallb encodable (Function.buf h ++ ps) = true ->
    exists h' w' cs,
      St.for_each (fun _ p => Function.add p) ps tt (h, w) = (Ok tt, (h', w'))
      /\ Trace w w' cs
      /\ concat (map payloads_of cs) ++ Function.buf h' = Function.buf h ++ ps
      /\ Function.sent h' = Function.sent h + accepted cs
      /\ Function.failed h' = Function.failed h + rejected cs.
Proof.
  intros Hnever. induction ps as [|p ps IH]; intros h w Henc.
  { exists h, w, []. split; [reflexivity|]. split; [apply Trace_refl|].
    unfold accepted, rejected. cbn. rewrite app_nil_r. repeat split; lia. }
  cbn [St.for_each]. unfold St.bind.
  assert (Henc1 : forallb encodable (Function.buf h ++ [p]) = true).
  { apply (forallb_encodable_snoc _ _ ps). exact Henc. }
  destruct (add_answered p h w Hnever Henc1)
    as (h1 & w1 & cs1 & Hrun1 & Htr1 & Hc1 & Hs1 & Hf1 & _ & _).
  rewrite Hrun1.
  assert (Henc2 : forallb encodable (Function.buf h1 ++ ps) = true).
  { rewrite forallb_app. apply andb_true_iff. split.
    - apply (forallb_app_r _ (concat (map payloads_of cs1))). rewrite Hc1. exact Henc1.
    - apply (forallb_app_r _ (Function.buf h ++ [p])). rewrite <- app_assoc. exact Henc. }
  destruct (IH h1 w1 Henc2) as (h' & w' & cs & Hrun & Htr & Hc & Hs & Hf).
  exists h', w', (cs1 ++ cs). split; [assumption|].
  split; [eapply Trace_trans; eassumption|].
  rewrite map_app, concat_app, accepted_app, rejected_app. split.
  - rewrite <- app_assoc, Hc, app_assoc, Hc1, <- app_assoc. reflexivity.
  - split; lia.
Qed.
End AddsThenFlush.

(** X9. With a sink that answers, adding payloads (UTF-8 text) one at a
    time and then flushing hands each payload that was buffered or added
    to the sink exactly once, in order, and leaves the buffer empty;
    [sent] and [failed] grow by the numbers of entries the sink took and
    refused. *)
Theorem adds_then_flush_dispatch_all `{SinkAdapter}
        (ps : list str) (h : Function.HubBuffer) (w : World) :
  never_raises -> forallb encodable (Function.buf h ++ ps) = true ->
  exists h' w' cs,
    St.bind (St.for_each (fun _ p => Function.add p) ps tt) (fun _ => Function.flush)
      (h, w) = (Ok tt, (h', w'))
    /\ Function.buf h' = []
    /\ calls w' = calls w ++ cs
    /\ concat (map payloads_of cs) = Function.buf h ++ ps
    /\ Function.sent h' = Function.sent h + accepted cs
    /\ Function.failed h' = Function.failed h + rejected cs.
Proof.
  intros Hnever Henc.
  destruct (add_loop_answered ps Hnever h w Henc)
    as (h1 & w1 & cs1 & Hrun1 & Htr1 & Hc1 & Hs1 & Hf1).
  unfold St.bind. rewrite Hrun1.
  assert (Henc1 : forallb encodable (Function.buf h1) = true).
  { apply (forallb_app_r _ (concat (map payloads_of cs1))). rewrite Hc1. exact Henc. }
  destruct (flush_if_needed_answered true h1 w1 Hnever Henc1)
    as (h2 & w2 & cs2 & Hrun2 & Htr2 & Hc2 & _ & Hs2 & Hf2 & _ & _ & Hempty).
  unfold Function.flush. rewrite Hrun2.
  exists h2, w2, (cs1 ++ cs2). split; [reflexivity|].
  split; [apply Hempty; reflexivity|].
  split; [apply (Trace_trans _ _ _ _ _ Htr1 Htr2)|].
  rewrite map_app, concat_app, accepted_app, rejected_app.
  rewrite (Hempty eq_refl), app_nil_r in Hc2.
  split; [rewrite Hc2; exact Hc1|]. split; lia.
Qed.

Lemma adds_then_flush_dispatch_all_witness :
  exists h' w' cs,
    St.bind (St.for_each (fun _ p => @Function.add picky_sink p) [pa; pb; pc] tt)
      (fun _ => @Function.flush picky_sink)
      (Function.new_HubBuffer 2 1000, fresh_world picky_sink tt) = (Ok tt, (h', w'))
    /\ Function.buf h' = []
    /\ calls w' = calls (fresh_world picky_sink tt) ++ cs
    /\ concat (map payloads_of cs) = Function.buf (Function.new_HubBuffer 2 1000) ++ [pa; pb; pc]
    /\ Function.sent h' = Function.sent (Function.new_HubBuffer 2 1000) + accepted cs
    /\ Function.failed h' = Function.failed (Function.new_HubBuffer 2 1000) + rejected cs.
Proof.
  apply (@adds_then_flush_dispatch_all picky_sink [pa; pb; pc]
           (Function.new_HubBuffer 2 1000) (fresh_world picky_sink tt)).
  - intros k entries. eexists. reflexivity.
  - reflexivity.
Defined.

(** * Further properties of the invocation *)

Section AnySink.
Context `{SinkAdapter}.

Lemma delivered_by_app (cs1 cs2 : list Call) (x : str) :
  delivered_by cs1 x \/ delivered_by cs2 x -> delivered_by (cs1 ++ cs2) x.
Proof.
  intros [(c & Hin & Hc)|(c & Hin & Hc)]; exists c;
    (split; [apply in_or_app; auto|exact Hc]).
Qed.

Lemma delivered_by_all (cs : list Call) (x : str) :
  Forall answered_call cs -> In x (concat (map payloads_of cs)) -> delivered_by cs x.
Proof.
  intros Ha Hin. apply in_concat in Hin as (b & Hb & Hx).
  apply in_map_iff in Hb as (c & <- & Hc).
  exists c. split; [assumption|]. split; [|assumption].
  rewrite Forall_forall in Ha. apply Ha. assumption.
Qed.

(** A flush, whatever the sink does: either the buffer object is left
    as it was, or the flush returned, the buffer is empty and its
    payloads all went out in calls that were answered. *)
Lemma flush_if_needed_any (force : bool) (h h' : Function.HubBuffer) (w w' : World)
      (r : result unit) :
  Function._flush_if_needed force (h, w) = (r, (h', w')) ->
  exists cs,
    calls w' = calls w ++ cs
    /\ (h' = h
        \/ (r = Ok tt /\ Function.buf h' = []
            /\ concat (map payloads_of cs) = Function.buf h
            /\ Forall answered_call cs)).
Proof.
  rewrite flush_if_needed_run.
  assert (Hidle : forall r0, (r0, (h, w)) = (r, (h', w')) ->
             exists cs, calls w' = calls w ++ cs
               /\ (h' = h
                   \/ (r = Ok tt /\ Function.buf h' = []
                       /\ concat (map payloads_of cs) = Function.buf h
                       /\ Forall answered_call cs))).
  { intros r0 [= _ <- <-]. exists []. rewrite app_nil_r. auto. }
  destruct (Function.buf h) as [|p t] eqn:Hb; [apply Hidle|]. rewrite <- Hb in *.
  destruct (Function.flush_due force h) as [[|]|e]; try apply Hidle.
  destruct (Function.send_with_limits (Function.buf h) (Function.max_bytes h)
              (Function.max_count h) w) as [r1 w1] eqn:Hsend.
  destruct (send_with_limits_spec _ _ _ _ _ _ Hsend) as (cs & [Hcs _] & _ & _ & Hok & _).
  destruct (send_with_limits_calls _ _ _ _ _ _ Hsend) as (cs' & Hcs' & _ & _ & Ha).
  assert (cs' = cs) as -> by (apply (app_inv_head (calls w)); congruence).
  destruct r1 as [[[s f] b]|e]; intros [= <- <- <-]; exists cs;
    (split; [assumption|]); [right|left; reflexivity].
  destruct (Hok s f b eq_refl) as (Hc & _).
  split; [reflexivity|]. split; [reflexivity|]. split; [assumption|]. eauto.
Qed.

Lemma forced_flush_any (h h' : Function.HubBuffer) (w w' : World) :
  Function.flush (h, w) = (Ok tt, (h', w')) ->
  exists cs,
    calls w' = calls w ++ cs
    /\ forall x, In x (Function.buf h) -> delivered_by cs x.
Proof.
  unfold Function.flush. intros Hrun.
  destruct (flush_if_needed_any _ _ _ _ _ _ Hrun) as (cs & Hcs & [->|(_ & _ & Hc & Ha)]).
  - exists cs. split; [assumption|]. intros x Hx. exfalso.
    rewrite flush_if_needed_run in Hrun.
    destruct (Function.buf h) as [|p t] eqn:Hb; [destruct Hx|]. rewrite <- Hb in *.
    cbn [Function.flush_due] in Hrun.
    destruct (Function.send_with_limits (Function.buf h) (Function.max_bytes h)
                (Function.max_count h) w) as [[sfb|e] w1]; [|discriminate].
    injection Hrun as Hh _. apply (f_equal Function.buf) in Hh.
    cbn [flushed Function.buf] in Hh. rewrite Hb in Hh. discriminate.
  - exists cs. split; [assumption|]. intros x Hx.
    apply delivered_by_all; [assumption|]. rewrite Hc. exact Hx.
Qed.

Lemma add_any (p : str) (h h' : Function.HubBuffer) (w w' : World) (r : result unit) :
  Function.add p (h, w) = (r, (h', w')) ->
  exists cs,
    calls w' = calls w ++ cs
    /\ forall x, In x (Function.buf h ++ [p]) ->
                 In x (Function.buf h') \/ delivered_by cs x.
Proof.
  rewrite add_run. intros Hrun.
  destruct (flush_if_needed_any _ _ _ _ _ _ Hrun) as (cs & Hcs & [->|(_ & _ & Hc & Ha)]);
    exists cs; (split; [assumption|]); intros x Hx.
  - left. exact Hx.
  - right. apply delivered_by_all; [assumption|]. rewrite Hc. exact Hx.
Qed.

Lemma process_event_any (e : Function.EventHubEvent) (c c' : Function.Counters)
      (h h' : Function.HubBuffer) (w w' : World) (r : result unit) :
  Function.process_event e (c, (h, w)) = (r, (c', (h', w'))) ->
  exists cs,
    calls w' = calls w ++ cs
    /\ forall x, In x (Function.buf h ++ payload_of e) ->
                 In x (Function.buf h') \/ delivered_by cs x.
Proof.
  rewrite process_event_run. unfold payload_of.
  assert (Hidle : forall r0 c0, (r0, (c0, (h, w))) = (r, (c', (h', w'))) ->
             exists cs, calls w' = calls w ++ cs
               /\ forall x, In x (Function.buf h ++ []) ->
                            In x (Function.buf h') \/ delivered_by cs x).
  { intros r0 c0 [= _ _ <- <-]. exists []. rewrite !app_nil_r. auto. }
  destruct (decode (Function.get_body e)) as [[|x0 s]|err]; try apply Hidle.
  destruct (isspace (x0 :: s)); [apply Hidle|].
  destruct (Function.add (x0 :: s) (h, w)) as [r1 [h1 w1]] eqn:Hadd.
  destruct (add_any _ _ _ _ _ _ Hadd) as (cs & Hcs & Hcov).
  destruct r1 as [[]|err]; intros [= _ _ <- <-]; exists cs; auto.
Qed.

Lemma event_loop_any (events : list Function.EventHubEvent) :
  forall (c c' : Function.Counters) (h h' : Function.HubBuffer) (w w' : World)
         (r : result unit),
    St.for_each (fun _ e => Function.process_event e) events tt (c, (h, w))
    = (r, (c', (h', w'))) ->
    exists cs,
      calls w' = calls w ++ cs
      /\ forall x, In x (Function.buf h ++ delivered events) ->
                   In x (Function.buf h') \/ delivered_by cs x.
Proof.
  induction events as [|e events IH]; intros c c' h h' w w' r Hrun.
  { cbn in Hrun. injection Hrun as _ _ <- <-. exists [].
    unfold delivered. cbn [flat_map]. rewrite !app_nil_r. auto. }
  cbn [St.for_each] in Hrun. unfold St.bind in Hrun.
  destruct (Function.process_event e (c, (h, w))) as [r1 [c1 [h1 w1]]] eqn:Hstep.
  destruct (process_event_any _ _ _ _ _ _ _ _ Hstep) as (cs1 & Hcs1 & Hcov1).
  assert (Hret : fst (Function.process_event e (c, (h, w))) = Ok tt)
    by apply process_event_returns.
  rewrite Hstep in Hret.
  cbn [fst] in Hret. subst r1.
  destruct (IH _ _ _ _ _ _ _ Hrun) as (cs & Hcs & Hcov).
  exists (cs1 ++ cs). split; [rewrite Hcs, Hcs1, <- app_assoc; reflexivity|].
  intros x Hx. unfold delivered in Hx. cbn [flat_map] in Hx.
  rewrite app_assoc in Hx. apply in_app_or in Hx as [Hx|Hx].
  - destruct (Hcov1 x Hx) as [Hin|Hd].
    + destruct (Hcov x) as [Hin'|Hd']; [apply in_or_app; left; exact Hin| |].
      * left. exact Hin'.
      * right. apply delivered_by_app. right. exact Hd'.
    + right. apply delivered_by_app. left. exact Hd.
  - destruct (Hcov x) as [Hin'|Hd']; [apply in_or_app; right; exact Hx| |].
    + left. exact Hin'.
    + right. apply delivered_by_app. right. exact Hd'.
Qed.
End AnySink.

(** X10. Whatever the sink does (calls may raise, and a failed flush is
    tried again at the next one), when an invocation runs to its closing
    record every payload of the delivered events was in the batch of at
    least one call that the sink answered. *)
Theorem main_completes_only_after_delivering `{SinkAdapter}
        (env : Function.Settings) (events : list Function.EventHubEvent)
        (w w' : World) (processed sent failed batches : Z) :
  Function.main env events w
  = (Ok (Function.Complete processed sent failed batches), w') ->
  exists cs,
    calls w' = calls w ++ cs
    /\ forall x, In x (delivered events) -> delivered_by cs x.
Proof.
  unfold Function.main.
  destruct (len events =? 0); [discriminate|].
  destruct (negb (Function.OCI_SDK_OK env)); [discriminate|].
  unfold St.bind at 1, St.lift.
  destruct (Function.configure env) as [limits|err]; [|discriminate].
  unfold St.bind at 1, St.with_local, St.bind.
  match goal with
  | |- context [@St.for_each ?S ?A ?V ?f events tt ?s] =>
      destruct (@St.for_each S A V f events tt s) as [r1 [c1 [h1 w1]]] eqn:Hloop
  end.
  destruct (event_loop_any _ _ _ _ _ _ _ _ Hloop) as (cs1 & Hcs1 & Hcov1).
  destruct r1 as [[]|err]; [|discriminate].
  unfold St.on_snd. cbn [fst snd].
  destruct (Function.flush (h1, w1)) as [r2 [h2 w2]] eqn:Hflush.
  destruct r2 as [[]|err]; [|discriminate].
  destruct (forced_flush_any _ _ _ _ Hflush) as (cs2 & Hcs2 & Hcov2).
  unfold St.ret. intros [= _ _ _ _ <-].
  exists (cs1 ++ cs2). split; [rewrite Hcs2, Hcs1, <- app_assoc; reflexivity|].
  intros x Hx. apply delivered_by_app.
  destruct (Hcov1 x) as [Hin|Hd]; [cbn; exact Hx| |].
  - right. apply Hcov2. exact Hin.
  - left. exact Hd.
Qed.

Lemma main_completes_only_after_delivering_witness :
  let events := [ev_a; ev_b; ev_bad; ev_blank; ev_c] in
  let run := @Function.main recovering_sink settings_2_1000 events
               (fresh_world recovering_sink O) in
  fst run = Ok (Function.Complete 2 3 2 2)
  /\ exists cs,
       calls (snd run) = calls (fresh_world recovering_sink O) ++ cs
       /\ forall x, In x (delivered events) -> delivered_by cs x.
Proof.
  intros events run. split; [reflexivity|].
  apply (@main_completes_only_after_delivering recovering_sink settings_2_1000 events
           (fresh_world recovering_sink O) (snd run) 2 3 2 2).
  reflexivity.
Defined.

Section Counting.
Context `{SinkAdapter}.

(** One event moves the sum of the two counters by one, unless the
    event is blank. *)
Lemma process_event_counts (e : Function.EventHubEvent) (c : Function.Counters)
      (o : Function.Obj) :
  Function.processed_count (fst (snd (Function.process_event e (c, o))))
  + Function.error_count (fst (snd (Function.process_event e (c, o))))
  = Function.processed_count c + Function.error_count c
    + (if blank e then 0 else 1).
Proof.
  unfold Function.Obj in *. destruct o as [h w]. rewrite process_event_run.
  unfold blank.
  destruct (decode (Function.get_body e)) as [[|x s]|err]; cbn [fst snd]; try lia.
  - destruct (isspace (x :: s)); cbn [fst snd]; [lia|].
    destruct (Function.add (x :: s) (h, w)) as [[[]|err] o]; cbn; lia.
  - cbn. lia.
Qed.
End Counting.

(** X11. Whatever the sink does, the loop over the events never raises
    and counts every event that is not blank exactly once, as processed
    or as an error: afterwards the two counters have grown, together, by
    the number of events less the blank ones. *)
Theorem event_loop_counts_every_event `{SinkAdapter}
        (events : list Function.EventHubEvent) (c : Function.Counters)
        (o : Function.Obj) :
  let run := St.for_each (fun _ e => Function.process_event e) events tt (c, o) in
  fst run = Ok tt
  /\ Function.processed_count (fst (snd run)) + Function.error_count (fst (snd run))
     = Function.processed_count c + Function.error_count c
       + (len events - len (filter blank events)).
Proof.
  revert c o. induction events as [|e events IH]; intros c o.
  - cbn. split; [reflexivity|lia].
  - cbn zeta in *. cbn [St.for_each filter]. unfold St.bind.
    pose proof (process_event_counts e c o) as Hstep.
    pose proof (process_event_returns e c o) as Hret.
    destruct (Function.process_event e (c, o)) as [r1 [c1 o1]].
    cbn [fst snd] in Hstep, Hret. subst r1.
    destruct (IH c1 o1) as [Hok Hsum]. split; [exact Hok|].
    rewrite Hsum, len_cons.
    destruct (blank e); [rewrite len_cons|]; lia.
Qed.

(** X12. Whatever the sink does, an event whose body is empty or
    whitespace changes nothing: the invocation ends as it does without
    the event, with the same figures and the same calls. *)
Theorem main_ignores_blank_event `{SinkAdapter}
        (env : Function.Settings)
        (before after : list Function.EventHubEvent) (e : Function.EventHubEvent)
        (w : World) :
  blank e = true -> before ++ after <> [] ->
  Function.main env (before ++ e :: after) w = Function.main env (before ++ after) w.
Proof.
  intros Hblank Hne. unfold Function.main.
  assert (H1 : (len (before ++ e :: after) =? 0) = false).
  { rewrite len_app, len_cons. pose proof (len_nonneg before).
    pose proof (len_nonneg after). apply Z.eqb_neq. lia. }
  assert (H2 : (len (before ++ after) =? 0) = false).
  { destruct (before ++ after); [contradiction|]. rewrite len_cons.
    pose proof (len_nonneg l). apply Z.eqb_neq. lia. }
  rewrite H1, H2.
  destruct (negb (Function.OCI_SDK_OK env)); [reflexivity|].
  unfold St.bind at 1 3, St.lift.
  destruct (Function.configure env) as [limits|err]; [|reflexivity].
  unfold St.bind at 1 3, St.with_local, St.bind.
  assert (Hloop : forall s,
             St.for_each (fun _ e0 => Function.process_event e0) (before ++ e :: after) tt s
             = St.for_each (fun _ e0 => Function.process_event e0) (before ++ after) tt s).
  { clear - Hblank. induction before as [|e0 before IH]; intros s.
    - cbn [app St.for_each]. unfold St.bind at 1.
      destruct s as [c o]. unfold Function.Obj in *. destruct o as [h w].
      rewrite process_event_run. unfold blank in Hblank.
      destruct (decode (Function.get_body e)) as [[|x t]|err];
        [reflexivity| |discriminate].
      rewrite Hblank. reflexivity.
    - cbn [app St.for_each]. unfold St.bind.
      destruct (Function.process_event e0 s) as [[[]|err] s1]; [apply IH|reflexivity]. }
  match goal with
  | |- context [@St.for_each ?S ?A ?V ?f (before ++ e :: after) tt ?s] =>
      replace (@St.for_each S A V f (before ++ e :: after) tt s)
        with (@St.for_each S A V f (before ++ after) tt s)
        by (symmetry; apply Hloop)
  end.
  reflexivity.
Qed.

Lemma main_ignores_blank_event_witness :
  @Function.main recovering_sink settings_2_1000 ([ev_a; ev_b] ++ ev_blank :: [ev_c])
    (fresh_world recovering_sink O)
  = @Function.main recovering_sink settings_2_1000 ([ev_a; ev_b] ++ [ev_c])
      (fresh_world recovering_sink O).
Proof.
  apply (@main_ignores_blank_event recovering_sink settings_2_1000 [ev_a; ev_b] [ev_c]
           ev_blank (fresh_world recovering_sink O)).
  - reflexivity.
  - discriminate.
Defined.

(** * The drain script with a sender *)

Section DrainerFlush.
Context `{SinkAdapter}.

(** The block that sends the buffer, by outcome of the sender. *)
Lemma send_buffer_run (d : Consumer.EventHubDrainer) (w : World) :
  Consumer.send_buffer (d, w) =
    match Consumer.send_with_size_limit (Consumer._buffer d)
            (Consumer.max_batch_bytes d) (Consumer.max_batch_count d) w with
    | (Ok sfb, w1) =>
        (Ok tt, (drained d (fst (fst sfb)) (snd (fst sfb)) (snd sfb),
                 printed (Flushed (fst (fst sfb)) (snd sfb) (snd (fst sfb))) w1))
    | (Raise e, w1) => (Raise e, (Consumer.clear_buffer d, w1))
    end.
Proof.
  unfold Consumer.send_buffer, Consumer.self, Consumer.update, Consumer.print.
  unfold St.bind, St.on_fst, St.on_snd, St.get, St.modify. cbn [fst snd].
  destruct (Consumer.send_with_size_limit (Consumer._buffer d)
              (Consumer.max_batch_bytes d) (Consumer.max_batch_count d) w)
    as [[sfb|e] w1]; reflexivity.
Qed.

(** [_flush_if_needed] with a sender, branch by branch. *)
Lemma drainer_flush_run (force : bool) (d : Consumer.EventHubDrainer) (w : World)
      (sender : Consumer.OciStreamSender) :
  Consumer.oci_sender d = Some sender ->
  Consumer._flush_if_needed force (d, w) =
    match Consumer._buffer d with
    | [] => (Ok tt, (d, w))
    | _ :: _ =>
        if force then Consumer.send_buffer (d, w)
        else
          match estimate_batch_bytes (Consumer._buffer d) with
          | Raise e => (Raise e, (d, w))
          | Ok est =>
              if (len (Consumer._buffer d) >=? Consumer.max_batch_count d)
                 || (est >=? Consumer.max_batch_bytes d)
              then Consumer.send_buffer (d, w)
              else (Ok tt, (d, w))
          end
    end.
Proof.
  intros Hs.
  unfold Consumer._flush_if_needed, Consumer.self, St.bind at 1, St.on_fst, St.get.
  cbn [fst snd]. rewrite Hs.
  destruct (Consumer._buffer d) as [|p t]; [reflexivity|].
  destruct force; [reflexivity|].
  unfold St.bind at 1, St.lift.
  destruct (estimate_batch_bytes (p :: t)) as [est|e]; [|reflexivity].
  destruct ((len (p :: t) >=? Consumer.max_batch_count d)
            || (est >=? Consumer.max_batch_bytes d)); reflexivity.
Qed.
End DrainerFlush.

Section DrainerFailedCall.
Context `{SinkAdapter}.

(** A flush during which a call to the sink raised: the flush raises
    that exception and only the buffer has changed, which is empty. *)
Lemma drainer_flush_failed_call (force : bool) (d d' : Consumer.EventHubDrainer)
      (w w' : World) (r : result unit) (cs : list Call) (c : Call) (e : exn) :
  Consumer._flush_if_needed force (d, w) = (r, (d', w')) ->
  calls w' = calls w ++ cs ->
  In c cs -> reply c = Raise e ->
  r = Raise e /\ d' = Consumer.clear_buffer d.
Proof.
  intros Hrun Hcalls Hin Hrep.
  assert (Hidle : forall r0, (r0, (d, w)) = (r, (d', w')) ->
             r = Raise e /\ d' = Consumer.clear_buffer d).
  { intros r0 [= _ _ <-]. apply calls_unchanged in Hcalls. subst cs. destruct Hin. }
  destruct (Consumer.oci_sender d) as [sender|] eqn:Hs.
  2:{ rewrite (log_only_run _ _ _ Hs) in Hrun.
      destruct force; destruct (Consumer._buffer d) as [|p t]; try (apply (Hidle _ Hrun)).
      injection Hrun as _ _ <-. cbn [printed calls] in Hcalls.
      apply calls_unchanged in Hcalls. subst cs. destruct Hin. }
  rewrite (drainer_flush_run _ _ _ _ Hs) in Hrun.
  assert (Hsend : Consumer.send_buffer (d, w) = (r, (d', w')) ->
             r = Raise e /\ d' = Consumer.clear_buffer d).
  { rewrite send_buffer_run, send_with_size_limit_eq.
    destruct (Function.send_with_limits (Consumer._buffer d) (Consumer.max_batch_bytes d)
                (Consumer.max_batch_count d) w) as [r1 w1] eqn:Hsend.
    destruct (send_with_limits_spec _ _ _ _ _ _ Hsend) as (cs1 & [Htr _] & _ & Hex & _).
    intros Hrun1.
    assert (Hw : calls w' = calls w1).
    { destruct r1; injection Hrun1 as _ _ <-; reflexivity. }
    assert (cs1 = cs) as -> by (apply (app_inv_head (calls w)); congruence).
    rewrite (Hex c e Hin Hrep) in Hrun1. injection Hrun1 as <- <- _. auto. }
  destruct (Consumer._buffer d) as [|p t]; [eauto|].
  destruct force; [auto|].
  destruct (estimate_batch_bytes (p :: t)) as [est|e0]; [|eauto].
  destruct ((len (p :: t) >=? Consumer.max_batch_count d)
            || (est >=? Consumer.max_batch_bytes d)); eauto.
Qed.
End DrainerFailedCall.

(** X13. In the drain script, a flush that reaches the sink has emptied
    the buffer before sending: when a call to the sink raised during a
    flush, the flush raises that exception, the buffer is empty and the
    totals are as before, so that the buffered payloads are neither sent
    nor kept. *)
Theorem drainer_flush_failure_drops_buffer `{SinkAdapter}
        (force : bool) (d d' : Consumer.EventHubDrainer) (w w' : World)
        (sender : Consumer.OciStreamSender)
        (r : result unit) (cs : list Call) (c : Call) (e : exn) :
  Consumer.oci_sender d = Some sender ->
  Consumer._flush_if_needed force (d, w) = (r, (d', w')) ->
  calls w' = calls w ++ cs ->
  In c cs -> reply c = Raise e ->
  r = Raise e /\ d' = Consumer.clear_buffer d.
Proof.
  intros _ Hrun Hcalls Hin Hrep.
  exact (drainer_flush_failed_call _ _ _ _ _ _ _ _ _ Hrun Hcalls Hin Hrep).
Qed.

Lemma drainer_flush_failure_drops_buffer_witness :
  let d := {| Consumer.oci_sender := Some Consumer.StreamSender;
              Consumer.max_batch_bytes := 1000; Consumer.max_batch_count := 100;
              Consumer._buffer := [pa; pb];
              Consumer.messages_processed := 2; Consumer.messages_sent := 0;
              Consumer.messages_failed := 0; Consumer.batches := 0 |} in
  let c := {| payloads_of := [pa; pb]; reply := Raise (OtherException 503) |} in
  let run := @Consumer._flush_if_needed down_sink true (d, fresh_world down_sink tt) in
  calls (snd (snd run)) = calls (fresh_world down_sink tt) ++ [c]
  /\ fst run = Raise (OtherException 503)
  /\ fst (snd run) = Consumer.clear_buffer d.
Proof.
  intros d c run. split; [reflexivity|].
  apply (@drainer_flush_failure_drops_buffer down_sink true d (fst (snd run))
           (fresh_world down_sink tt) (snd (snd run)) Consumer.StreamSender
           (fst run) [c] c (OtherException 503)).
  - reflexivity.
  - reflexivity.
  - reflexivity.
  - left. reflexivity.
  - reflexivity.
Defined.

(** X14. In the drain script with a sender, a sink that answers and a
    buffer of UTF-8 text, a forced flush empties the buffer, hands every
    payload to the sink once and in order, adds the sink's counts to the
    totals and prints one line with them; on an empty buffer it does
    nothing. *)
Theorem drainer_forced_flush_sends_all `{SinkAdapter}
        (d : Consumer.EventHubDrainer) (w : World) (sender : Consumer.OciStreamSender) :
  Consumer.oci_sender d = Some sender ->
  never_raises -> forallb encodable (Consumer._buffer d) = true ->
  exists d' w' cs b,
    Consumer._flush_if_needed true (d, w) = (Ok tt, (d', w'))
    /\ Consumer._buffer d' = []
    /\ calls w' = calls w ++ cs
    /\ concat (map payloads_of cs) = Consumer._buffer d
    /\ Consumer.messages_sent d' = Consumer.messages_sent d + accepted cs
    /\ Consumer.messages_failed d' = Consumer.messages_failed d + rejected cs
    /\ Consumer.batches d' = Consumer.batches d + b
    /\ console w'
       = console w ++ match Consumer._buffer d with
                      | [] => []
                      | _ :: _ => [Flushed (accepted cs) b (rejected cs)]
                      end
    /\ (Consumer._buffer d = [] -> d' = d /\ w' = w).
Proof.
  intros Hs Hnever Henc. rewrite (drainer_flush_run _ _ _ _ Hs).
  destruct (Consumer._buffer d) as [|p t] eqn:Hb.
  { exists d, w, [], 0. unfold accepted, rejected. cbn. rewrite !app_nil_r, Hb.
    repeat split; auto; lia. }
  rewrite <- Hb in *. rewrite send_buffer_run, send_with_size_limit_eq.
  destruct (send_with_limits_returns (Consumer.max_batch_bytes d)
              (Consumer.max_batch_count d) (Consumer._buffer d) w Hnever Henc)
    as (s & f & b & w1 & Hrun).
  rewrite Hrun.
  destruct (send_with_limits_spec _ _ _ _ _ _ Hrun) as (cs & [Htr Hcon] & _ & _ & Hok & _).
  destruct (Hok s f b eq_refl) as (Hc & -> & -> & _).
  exists (drained d (accepted cs) (rejected cs) b),
    (printed (Flushed (accepted cs) b (rejected cs)) w1), cs, b.
  cbn [fst snd]. split; [reflexivity|]. split; [reflexivity|].
  split; [exact Htr|]. split; [assumption|].
  split; [reflexivity|]. split; [reflexivity|]. split; [reflexivity|].
  split; [cbn [printed console]; rewrite Hcon; reflexivity|].
  intros E. rewrite Hb in E. discriminate.
Qed.

Lemma drainer_forced_flush_sends_all_witness :
  let d := {| Consumer.oci_sender := Some Consumer.StreamSender;
              Consumer.max_batch_bytes := 1000; Consumer.max_batch_count := 2;
              Consumer._buffer := [pa; pb; pc];
              Consumer.messages_processed := 3; Consumer.messages_sent := 0;
              Consumer.messages_failed := 0; Consumer.batches := 0 |} in
  exists d' w' cs b,
    @Consumer._flush_if_needed picky_sink true (d, fresh_world picky_sink tt)
    = (Ok tt, (d', w'))
    /\ Consumer._buffer d' = []
    /\ calls w' = calls (fresh_world picky_sink tt) ++ cs
    /\ concat (map payloads_of cs) = Consumer._buffer d
    /\ Consumer.messages_sent d' = Consumer.messages_sent d + accepted cs
    /\ Consumer.messages_failed d' = Consumer.messages_failed d + rejected cs
    /\ Consumer.batches d' = Consumer.batches d + b
    /\ console w'
       = console (fresh_world picky_sink tt)
         ++ match Consumer._buffer d with
            | [] => []
            | _ :: _ => [Flushed (accepted cs) b (rejected cs)]
            end
    /\ (Consumer._buffer d = [] -> d' = d /\ w' = fresh_world picky_sink tt).
Proof.
  intros d.
  apply (@drainer_forced_flush_sends_all picky_sink d (fresh_world picky_sink tt)
           Consumer.StreamSender).
  - reflexivity.
  - intros k entries. eexists. reflexivity.
  - reflexivity.
Defined.

(** * Decoding and encoding again *)

Ltac ndivmod :=
  unfold is_cont, in_range, second_lo, second_hi in *;
  repeat match goal with
    | |- context [N.eqb ?a ?b] => destruct (N.eqb_spec a b)
    | H : context [N.eqb ?a ?b] |- _ => destruct (N.eqb_spec a b)
    end;
  nbool; zify; Z.to_euclidean_division_equations; lia.

Lemma encode_char_one (b0 : N) : (b0 <? 0x80)%N = true -> encode_char b0 = Ok [b0].
Proof. intros Hb. unfold encode_char. rewrite Hb. reflexivity. Qed.

Lemma encode_char_two (b0 b1 : N) :
  in_range 0xC2 0xDF b0 = true -> is_cont b1 = true ->
  encode_char ((b0 - 0xC0) * 64 + (b1 - 0x80)) = Ok [b0; b1].
Proof.
  intros H0 H1. unfold encode_char.
  set (c := ((b0 - 0xC0) * 64 + (b1 - 0x80))%N).
  assert (Hc : (0x80 <= c < 0x800)%N) by (subst c; ndivmod).
  destruct (N.ltb_spec c 0x80); [lia|].
  destruct (N.ltb_spec c 0x800); [|lia].
  f_equal. f_equal; [|f_equal]; subst c; clear - H0 H1; ndivmod.
Qed.

Lemma encode_char_three (b0 b1 b2 : N) :
  in_range 0xE0 0xEF b0 = true ->
  in_range (second_lo b0) (second_hi b0) b1 = true -> is_cont b2 = true ->
  encode_char ((b0 - 0xE0) * 4096 + (b1 - 0x80) * 64 + (b2 - 0x80)) = Ok [b0; b1; b2].
Proof.
  intros H0 H1 H2. unfold encode_char.
  set (c := ((b0 - 0xE0) * 4096 + (b1 - 0x80) * 64 + (b2 - 0x80))%N).
  assert (Hc : (0x800 <= c < 0x10000)%N) by (subst c; ndivmod).
  assert (Hs : is_surrogate c = false).
  { apply not_true_is_false. intros Hs. unfold is_surrogate in Hs. subst c. ndivmod. }
  rewrite Hs.
  destruct (N.ltb_spec c 0x80); [lia|].
  destruct (N.ltb_spec c 0x800); [lia|].
  destruct (N.ltb_spec c 0x10000); [|lia].
  f_equal. f_equal; [|f_equal; [|f_equal]]; subst c; clear - H0 H1 H2; ndivmod.
Qed.

Lemma encode_char_four (b0 b1 b2 b3 : N) :
  in_range 0xF0 0xF4 b0 = true ->
  in_range (second_lo b0) (second_hi b0) b1 = true ->
  is_cont b2 = true -> is_cont b3 = true ->
  encode_char ((b0 - 0xF0) * 262144 + (b1 - 0x80) * 4096 + (b2 - 0x80) * 64 + (b3 - 0x80))
  = Ok [b0; b1; b2; b3].
Proof.
  intros H0 H1 H2 H3. unfold encode_char.
  set (c := ((b0 - 0xF0) * 262144 + (b1 - 0x80) * 4096 + (b2 - 0x80) * 64
             + (b3 - 0x80))%N).
  assert (Hc : (0x10000 <= c)%N) by (subst c; ndivmod).
  destruct (N.ltb_spec c 0x80); [lia|].
  destruct (N.ltb_spec c 0x800); [lia|].
  destruct (N.ltb_spec c 0x10000); [lia|].
  f_equal. f_equal; [|f_equal; [|f_equal; [|f_equal]]]; subst c; clear - H0 H1 H2 H3;
    ndivmod.
Qed.

Lemma encode_cons (c : N) (s : str) :
  encode (c :: s)
  = Exc.bind (encode_char c) (fun b => Exc.bind (encode s) (fun bs => Ok (b ++ bs))).
Proof.
  unfold encode. cbn [Exc.mapM].
  destruct (encode_char c) as [b|e]; cbn [Exc.bind]; [|reflexivity].
  destruct (Exc.mapM encode_char s) as [chunks|e]; reflexivity.
Qed.

Lemma encode_decode_upto (n : nat) :
  forall bs s, (length bs <= n)%nat -> decode bs = Ok s -> encode s = Ok bs.
Proof.
  induction n as [|n IH]; intros bs s Hlen Hd.
  { destruct bs; [|simpl in Hlen; lia]. injection Hd as <-. reflexivity. }
  destruct bs as [|b0 r0]; [injection Hd as <-; reflexivity|].
  cbn [decode] in Hd. cbn [length] in Hlen.
  destruct (b0 <? 0x80)%N eqn:H1.
  { apply bind_cons_inv in Hd as (s0 & Hd & ->).
    rewrite encode_cons, (encode_char_one _ H1), (IH r0 s0); [reflexivity|lia|assumption]. }
  destruct (in_range 0xC2 0xDF b0) eqn:H2.
  { destruct r0 as [|b1 r1]; [discriminate|].
    destruct (is_cont b1) eqn:C1; [|discriminate].
    apply bind_cons_inv in Hd as (s0 & Hd & ->). cbn [length] in Hlen.
    rewrite encode_cons, (encode_char_two _ _ H2 C1), (IH r1 s0);
      [reflexivity|lia|assumption]. }
  destruct (in_range 0xE0 0xEF b0) eqn:H3.
  { destruct r0 as [|b1 [|b2 r2]]; try discriminate.
    destruct (in_range (second_lo b0) (second_hi b0) b1 && is_cont b2) eqn:C; [|discriminate].
    apply andb_true_iff in C as [C1 C2].
    apply bind_cons_inv in Hd as (s0 & Hd & ->). cbn [length] in Hlen.
    rewrite encode_cons, (encode_char_three _ _ _ H3 C1 C2), (IH r2 s0);
      [reflexivity|lia|assumption]. }
  destruct (in_range 0xF0 0xF4 b0) eqn:H4; [|discriminate].
  destruct r0 as [|b1 [|b2 [|b3 r3]]]; try discriminate.
  destruct (in_range (second_lo b0) (second_hi b0) b1 && is_cont b2 && is_cont b3) eqn:C;
    [|discriminate].
  apply andb_true_iff in C as [C C3]. apply andb_true_iff in C as [C1 C2].
  apply bind_cons_inv in Hd as (s0 & Hd & ->). cbn [length] in Hlen.
  rewrite encode_cons, (encode_char_four _ _ _ _ H4 C1 C2 C3), (IH r3 s0);
    [reflexivity|lia|assumption].
Qed.

(** X15. A body that decodes is forwarded unchanged: encoding the
    decoded payload gives back the bytes of the body, so that the entry
    handed to the sink is the base64 text of the body as it was received
    and the estimate of the payload is 50 plus four times the third,
    rounded up, of the length of the body. *)
Theorem decoded_body_is_forwarded_unchanged (body : bytes) (s : str) :
  decode body = Ok s ->
  encode s = Ok body
  /\ entry_value s = Ok (b64encode body)
  /\ estimate_batch_bytes [s] = Ok (4 * ceil3 (len body) + 50).
Proof.
  intros Hd.
  assert (He : encode s = Ok body) by (apply (encode_decode_upto (length body) body); auto).
  split; [exact He|]. split.
  - rewrite entry_value_eq, He. reflexivity.
  - unfold estimate_batch_bytes, encoded_len. cbn [Exc.mapM]. rewrite He.
    cbn [Exc.bind]. rewrite sum_cons, b64encode_length. f_equal.
    change (sum []) with 0. change (len [s]) with 1. unfold PER_MESSAGE_OVERHEAD. lia.
Qed.

Lemma decoded_body_is_forwarded_unchanged_witness :
  encode [0x20AC; 0x41]%N = Ok [226; 130; 172; 65]%N
  /\ entry_value [0x20AC; 0x41]%N = Ok (b64encode [226; 130; 172; 65]%N)
  /\ estimate_batch_bytes [[0x20AC; 0x41]%N] = Ok (4 * ceil3 (len [226; 130; 172; 65]%N) + 50).
Proof.
  apply (decoded_body_is_forwarded_unchanged [226; 130; 172; 65]%N [0x20AC; 0x41]%N).
  reflexivity.
Defined.

(** * The settings and the masking of secrets *)

Lemma firstn_split_len {A : Type} (n : nat) (l : list A) :
  (n < length l)%nat ->
  l = firstn n l ++ skipn n l /\ skipn n l <> [] /\ length (firstn n l) = n.
Proof.
  intros Hn. split; [symmetry; apply firstn_skipn|]. split.
  - intros Hs. pose proof (length_skipn n l) as Hl. rewrite Hs in Hl. cbn in Hl. lia.
  - rewrite length_firstn. lia.
Qed.

(** X16. [mask] of a non-empty value is either the three stars, when the
    value is no longer than [keep], or a strict prefix of the value
    followed by ["...***"]: a non-empty tail is always left out.  The
    prefix is [keep] long; a negative [keep] counts from the end, so that
    [mask(value, -1)] leaves out the last character only. *)
Theorem mask_hides_a_nonempty_tail (value : str) (keep : Z) :
  value <> [] ->
  (len value <= keep /\ Function.mask value keep = Function.STARS)
  \/ (keep < len value
      /\ exists shown hidden,
           value = shown ++ hidden /\ hidden <> []
           /\ Function.mask value keep = shown ++ Function.DOTS_STARS
           /\ len shown = if keep <? 0 then Z.max 0 (len value + keep) else keep).
Proof.
  intros Hne. unfold Function.mask.
  destruct value as [|c value]; [contradiction|]. set (v := c :: value).
  assert (Hv : (0 < length v)%nat) by (subst v; cbn; lia).
  destruct (Z.leb_spec (len v) keep) as [Hle|Hlt]; [left; split; [assumption|reflexivity]|].
  right. split; [assumption|].
  unfold slice_to. unfold len in *.
  destruct (Z.ltb_spec keep 0) as [Hneg|Hpos].
  - assert (Hn : (Z.to_nat (Z.of_nat (length v) + keep) < length v)%nat) by lia.
    destruct (firstn_split_len _ v Hn) as (Hsplit & Hhid & Hlen).
    eexists _, _. split; [exact Hsplit|]. split; [exact Hhid|].
    split; [reflexivity|]. rewrite Hlen. lia.
  - assert (Hn : (Z.to_nat keep < length v)%nat) by lia.
    destruct (firstn_split_len _ v Hn) as (Hsplit & Hhid & Hlen).
    eexists _, _. split; [exact Hsplit|]. split; [exact Hhid|].
    split; [reflexivity|]. rewrite Hlen. lia.
Qed.

Lemma mask_hides_a_nonempty_tail_witness :
  (len [111; 99; 105; 100; 49; 46; 117; 115; 101; 114]%N <= 6
   /\ Function.mask [111; 99; 105; 100; 49; 46; 117; 115; 101; 114]%N 6 = Function.STARS)
  \/ (6 < len [111; 99; 105; 100; 49; 46; 117; 115; 101; 114]%N
      /\ exists shown hidden,
           [111; 99; 105; 100; 49; 46; 117; 115; 101; 114]%N = shown ++ hidden
           /\ hidden <> []
           /\ Function.mask [111; 99; 105; 100; 49; 46; 117; 115; 101; 114]%N 6
              = shown ++ Function.DOTS_STARS
           /\ len shown = if 6 <? 0
                          then Z.max 0 (len [111; 99; 105; 100; 49; 46; 117; 115; 101; 114]%N + 6)
                          else 6).
Proof.
  apply (mask_hides_a_nonempty_tail [111; 99; 105; 100; 49; 46; 117; 115; 101; 114]%N 6).
  discriminate.
Defined.

Lemma starts_with_spec (prefix s : str) :
  starts_with prefix s = true <-> exists post, s = prefix ++ post.
Proof.
  revert s. induction prefix as [|p prefix IH]; intros s; cbn.
  - split; [intros _; exists s; reflexivity|reflexivity].
  - destruct s as [|c s].
    + split; [discriminate|intros (post & Hp); discriminate Hp].
    + rewrite andb_true_iff, N.eqb_eq, IH. split.
      * intros (-> & post & ->). exists post. reflexivity.
      * intros (post & [= -> ->]). split; [reflexivity|]. exists post. reflexivity.
Qed.

Lemma contains_spec (needle hay : str) :
  contains needle hay = true <-> occurs_in needle hay.
Proof.
  unfold occurs_in. induction hay as [|c hay IH]; cbn.
  - rewrite orb_false_r, starts_with_spec. split.
    + intros (post & Hp). exists [], post. exact Hp.
    + intros (pre & post & Hp). destruct pre as [|x pre]; [|discriminate Hp].
      exists post. exact Hp.
  - rewrite orb_true_iff, starts_with_spec, IH. split.
    + intros [(post & Hp)|(pre & post & Hp)].
      * exists [], post. exact Hp.
      * exists (c :: pre), post. rewrite Hp. reflexivity.
    + intros (pre & post & Hp). destruct pre as [|x pre].
      * left. exists post. exact Hp.
      * right. injection Hp as _ Hp. exists pre, post. exact Hp.
Qed.

Lemma py_or_read (getenv : Environ) (name alternative : Setting) (c : N) (v : str) :
  py_or (getenv name) (getenv alternative) = Some (c :: v) ->
  read_from getenv name alternative (c :: v).
Proof.
  unfold py_or, read_from, unset.
  destruct (getenv name) as [[|x t]|]; intros Hv; auto.
Qed.

(** X17. When [validate_env] returns, the endpoint and the stream OCID
    are not empty, the text ["streampool"] occurs nowhere in the stream
    OCID, and each value is the one set under the first name
    ([MessageEndpoint], [StreamOcid]), or, when that one is not set or
    set to the empty string, the one under the alternative name. *)
Theorem validate_env_returns_usable_settings (getenv : Environ) (endpoint stream_ocid : str) :
  Function.validate_env getenv = Ok (endpoint, stream_ocid) ->
  endpoint <> [] /\ stream_ocid <> []
  /\ ~ occurs_in streampool stream_ocid
  /\ read_from getenv MessageEndpoint OCI_MESSAGE_ENDPOINT endpoint
  /\ read_from getenv StreamOcid OCI_STREAM_OCID stream_ocid.
Proof.
  unfold Function.validate_env.
  destruct (py_or (getenv MessageEndpoint) (getenv OCI_MESSAGE_ENDPOINT))
    as [[|e ndpoint]|] eqn:He; try discriminate.
  destruct (py_or (getenv StreamOcid) (getenv OCI_STREAM_OCID))
    as [[|s tream]|] eqn:Hs; try discriminate.
  destruct (contains streampool (s :: tream)) eqn:Hc; [discriminate|].
  intros [= <- <-].
  split; [discriminate|]. split; [discriminate|]. split.
  - intros Hocc. apply contains_spec in Hocc. congruence.
  - split; apply py_or_read; assumption.
Qed.

Lemma validate_env_returns_usable_settings_witness :
  [101%N] <> [] /\ [115%N] <> []
  /\ ~ occurs_in streampool [115%N]
  /\ read_from settings_with_alternative MessageEndpoint OCI_MESSAGE_ENDPOINT [101%N]
  /\ read_from settings_with_alternative StreamOcid OCI_STREAM_OCID [115%N].
Proof.
  apply (validate_env_returns_usable_settings settings_with_alternative).
  reflexivity.
Defined.

(** * The list of Event Hubs *)

Lemma split_on_fields (sep : N) (s : str) :
  Forall (fun field => ~ In sep field) (split_on sep s).
Proof.
  induction s as [|c s IH]; cbn.
  - constructor; [intros []|constructor].
  - destruct (N.eqb_spec c sep) as [->|Hc].
    + constructor; [intros []|exact IH].
    + destruct (split_on sep s) as [|field fields].
      * constructor; [|constructor]. intros [Hx|[]]. congruence.
      * inversion IH as [|? ? Hf Hfs]; subst. constructor; [|exact Hfs].
        intros [Hx|Hx]; [congruence|exact (Hf Hx)].
Qed.

Lemma lstrip_suffix (s : str) : exists pre, s = pre ++ lstrip s.
Proof.
  induction s as [|c s (pre & IH)]; cbn.
  - exists []. reflexivity.
  - destruct (is_whitespace c).
    + exists (c :: pre). cbn. rewrite <- IH. reflexivity.
    + exists []. reflexivity.
Qed.

Lemma lstrip_head (s : str) (c : N) (t : str) :
  lstrip s = c :: t -> is_whitespace c = false.
Proof.
  induction s as [|x s IH]; cbn; [discriminate|].
  destruct (is_whitespace x) eqn:Hx; [exact IH|].
  intros [= <- _]. exact Hx.
Qed.

Lemma lstrip_fixed (c : N) (t : str) :
  is_whitespace c = false -> lstrip (c :: t) = c :: t.
Proof. intros Hc. cbn. rewrite Hc. reflexivity. Qed.

Lemma lstrip_In (s : str) (c : N) : In c (lstrip s) -> In c s.
Proof.
  destruct (lstrip_suffix s) as (pre & Hs). intros Hc. rewrite Hs.
  apply in_or_app. right. exact Hc.
Qed.

Lemma rstrip_In (s : str) (c : N) : In c (rstrip s) -> In c s.
Proof.
  unfold rstrip. intros Hc. apply in_rev in Hc. apply lstrip_In in Hc.
  apply in_rev in Hc. exact Hc.
Qed.

Lemma rstrip_last (s t : str) (c : N) :
  rstrip s = t ++ [c] -> is_whitespace c = false.
Proof.
  unfold rstrip. intros Hs. apply (f_equal (@rev N)) in Hs.
  rewrite rev_involutive, rev_app_distr in Hs. cbn in Hs.
  exact (lstrip_head _ _ _ Hs).
Qed.

(** Taking whitespace off the end leaves the front as it is. *)
Lemma rstrip_head (s : str) (c : N) (t : str) :
  is_whitespace c = false -> exists t', rstrip (c :: s) = c :: t'.
Proof.
  intros Hc. unfold rstrip. cbn [rev].
  destruct (lstrip_suffix (rev s ++ [c])) as (pre & Hpre).
  destruct (lstrip (rev s ++ [c])) as [|x l] eqn:Hl.
  - exfalso. rewrite app_nil_r in Hpre.
    assert (Hall : forall u, lstrip u = [] -> Forall (fun y => is_whitespace y = true) u).
    { induction u as [|y u IHu]; cbn; [constructor|].
      destruct (is_whitespace y) eqn:Hy; [|discriminate].
      intros Hu. constructor; [exact Hy|apply IHu; exact Hu]. }
    specialize (Hall _ Hl). rewrite Forall_forall in Hall.
    rewrite (Hall c) in Hc; [discriminate|]. apply in_or_app. right. left. reflexivity.
  - apply (f_equal (@rev N)) in Hpre. rewrite !rev_app_distr, rev_involutive in Hpre.
    remember (rev (x :: l)) as r eqn:Hr. change (rev [c] ++ s) with (c :: s) in Hpre.
    destruct r as [|y l'].
    + apply (f_equal (@length N)) in Hr. rewrite length_rev in Hr. discriminate Hr.
    + cbn in Hpre. injection Hpre as -> _. exists l'. reflexivity.
Qed.

Lemma strip_trimmed (s : str) : trimmed (strip s).
Proof.
  unfold strip. split.
  - intros c t Hs. destruct (lstrip s) as [|x l] eqn:Hl.
    + cbn in Hs. discriminate Hs.
    + pose proof (lstrip_head _ _ _ Hl) as Hx.
      destruct (rstrip_head l x l Hx) as (t' & Ht). rewrite Ht in Hs.
      injection Hs as <- _. exact Hx.
  - intros t c Hs. exact (rstrip_last _ _ _ Hs).
Qed.

Lemma strip_In (s : str) (c : N) : In c (strip s) -> In c s.
Proof. unfold strip. intros Hc. apply lstrip_In, rstrip_In. exact Hc. Qed.

(** X18. Every name [get_eventhub_list] returns is not empty, holds no
    comma, and has no whitespace at either end. *)
Theorem eventhub_names_are_clean (getenv : Environ) (h : str) :
  In h (Timer.get_eventhub_list getenv) -> hub_name h.
Proof.
  unfold Timer.get_eventhub_list. intros Hin.
  apply in_flat_map in Hin as (field & Hfield & Hh).
  pose proof (split_on_fields 44 (match getenv EventHubNamesCsv with
                                  | Some v => v | None => [] end)) as Hfields.
  rewrite Forall_forall in Hfields. specialize (Hfields _ Hfield).
  destruct (strip field) as [|c s] eqn:Hs; [destruct Hh|].
  destruct Hh as [<-|[]]. split; [discriminate|]. split.
  - intros Hc. apply Hfields. apply strip_In. rewrite Hs. exact Hc.
  - rewrite <- Hs. apply strip_trimmed.
Qed.

Lemma eventhub_names_are_clean_witness :
  hub_name [98%N].
Proof.
  apply (eventhub_names_are_clean settings_with_alternative [98%N]).
  right. left. reflexivity.
Defined.

Lemma strip_fixed (s : str) : trimmed s -> strip s = s.
Proof.
  intros [Hfront Hback]. unfold strip, rstrip.
  destruct s as [|c t]; [reflexivity|].
  rewrite (lstrip_fixed c t (Hfront c t eq_refl)).
  destruct (rev (c :: t)) as [|x l] eqn:Hr.
  - apply (f_equal (@length N)) in Hr. rewrite length_rev in Hr. discriminate Hr.
  - assert (Hx : is_whitespace x = false).
    { apply (Hback (rev l) x). rewrite <- (rev_involutive (c :: t)), Hr. reflexivity. }
    rewrite (lstrip_fixed x l Hx), <- Hr. apply rev_involutive.
Qed.

Lemma split_on_field (sep : N) (n rest : str) :
  ~ In sep n -> split_on sep (n ++ sep :: rest) = n :: split_on sep rest.
Proof.
  induction n as [|c n IH]; intros Hn; cbn.
  - rewrite N.eqb_refl. reflexivity.
  - destruct (N.eqb_spec c sep) as [->|Hc]; [exfalso; apply Hn; left; reflexivity|].
    rewrite IH; [reflexivity|]. intros Hin. apply Hn. right. exact Hin.
Qed.

Lemma split_on_last (sep : N) (n : str) :
  ~ In sep n -> split_on sep n = [n].
Proof.
  induction n as [|c n IH]; intros Hn; cbn; [reflexivity|].
  destruct (N.eqb_spec c sep) as [->|Hc]; [exfalso; apply Hn; left; reflexivity|].
  rewrite IH; [reflexivity|]. intros Hin. apply Hn. right. exact Hin.
Qed.

(** X19. Names that are not empty, hold no comma and have no whitespace
    at either end come back from [get_eventhub_list] as they were
    written, in order, when [EventHubNamesCsv] is set to them with a
    comma between them. *)
Theorem eventhub_list_round_trip (getenv : Environ) (names : list str) :
  Forall hub_name names ->
  getenv EventHubNamesCsv = Some (comma_separated names) ->
  Timer.get_eventhub_list getenv = names.
Proof.
  unfold Timer.get_eventhub_list. intros Hnames ->.
  induction Hnames as [|n rest (Hne & Hcomma & Htrim) Hrest IH]; [reflexivity|].
  assert (Hkeep : (match strip n with [] => [] | _ :: _ => [strip n] end) = [n]).
  { rewrite (strip_fixed n Htrim). destruct n; [contradiction|reflexivity]. }
  destruct rest as [|m rest].
  - cbn [comma_separated]. rewrite (split_on_last 44 n Hcomma). cbn [flat_map].
    rewrite Hkeep. reflexivity.
  - change (comma_separated (n :: m :: rest))
      with (n ++ 44%N :: comma_separated (m :: rest)).
    rewrite (split_on_field 44 n _ Hcomma). cbn [flat_map].
    rewrite Hkeep, IH. reflexivity.
Qed.

Lemma eventhub_list_round_trip_witness :
  Timer.get_eventhub_list (only_names (comma_separated [[97%N]; [98%N; 32%N; 99%N]]))
  = [[97%N]; [98%N; 32%N; 99%N]].
Proof.
  apply (eventhub_list_round_trip
           (only_names (comma_separated [[97%N]; [98%N; 32%N; 99%N]]))
           [[97%N]; [98%N; 32%N; 99%N]]).
  - repeat constructor; try discriminate.
    + intros [Hx|[]]. discriminate Hx.
    + intros c t [= <- _]. reflexivity.
    + intros t c Ht. destruct t as [|x [|y t]]; cbn in Ht; try discriminate Ht.
      injection Ht as <-. reflexivity.
    + intros [Hx|[Hx|[Hx|[]]]]; discriminate Hx.
    + intros c t [= <- _]. reflexivity.
    + intros t c Ht. destruct t as [|x [|y [|z [|u t]]]]; cbn in Ht; try discriminate Ht.
      injection Ht as _ _ <-. reflexivity.
  - reflexivity.
Defined.

(** * The timer-driven function *)

Section TimerRuns.
Context `{SinkAdapter} `{PartitionContext}.

Lemma try_update_checkpoint_run (event : EventData) (l : Timer.Locals) (w : World)
      (k : Checkpointing) :
  Timer.try_update_checkpoint event (l, (w, k))
  = (Ok tt, (l, (w, snd (checkpoint event k)))).
Proof.
  unfold Timer.try_update_checkpoint, St.try_except, St.on_snd, St.ret. cbn [fst snd].
  destruct (checkpoint event k) as [[[]|e] k']; reflexivity.
Qed.

(** [on_event] on an event, by what the body is and what [add] did. *)
Lemma timer_on_event_run (now : Z) (event : EventData) (l : Timer.Locals) (w : World)
      (k : Checkpointing) :
  Timer.on_event now (Some event) (l, (w, k)) =
    match body_as_str event with
    | Raise _ => (Ok tt, (l, (w, snd (checkpoint event k))))
    | Ok body =>
        match Function.add body (Timer.buffer l, w) with
        | (r, (h', w')) =>
            (Ok tt,
             ({| Timer.buffer := h';
                 Timer.last_event_ts :=
                   match r with
                   | Ok _ => now
                   | Raise _ => Timer.last_event_ts l
                   end |},
              (w', snd (checkpoint event k))))
        end
    end.
Proof.
  unfold Timer.on_event, St.try_except, St.bind at 1, St.lift.
  destruct (body_as_str event) as [body|e].
  - unfold St.bind at 1, Timer.on_buffer, zoom. cbn [fst snd].
    destruct (Function.add body (Timer.buffer l, w)) as [[[]|e] [h' w']]; cbn [fst snd].
    + unfold St.bind, Timer.set_last_event_ts, St.on_fst, St.modify. cbn [fst snd].
      rewrite try_update_checkpoint_run. reflexivity.
    + rewrite try_update_checkpoint_run. reflexivity.
  - rewrite try_update_checkpoint_run. reflexivity.
Qed.

Lemma checkpoint_attempts (event : EventData) (k : Checkpointing) :
  attempts (snd (checkpoint event k))
  = attempts k ++ [(event, fst (update_checkpoint (store k) event))].
Proof.
  unfold checkpoint. destruct (update_checkpoint (store k) event) as [r st].
  reflexivity.
Qed.

Lemma timer_on_event_returns (now : Z) (event : option EventData) (s : Timer.Frame) :
  fst (Timer.on_event now event s) = Ok tt.
Proof.
  destruct s as [l [w k]]. destruct event as [event|]; [|reflexivity].
  rewrite timer_on_event_run. destruct (body_as_str event) as [body|e]; [|reflexivity].
  destruct (Function.add body (Timer.buffer l, w)) as [r [h' w']]. reflexivity.
Qed.

Lemma timer_on_event_checkpointed (now : Z) (event : option EventData) (s : Timer.Frame) :
  checkpointed (snd (snd (snd (Timer.on_event now event s))))
  = checkpointed (snd (snd s)) ++ events_of [(now, event)].
Proof.
  destruct s as [l [w k]]. unfold checkpointed, events_of. cbn [flat_map snd].
  destruct event as [event|]; [|cbn; rewrite app_nil_r; reflexivity].
  rewrite timer_on_event_run. destruct (body_as_str event) as [body|e].
  - destruct (Function.add body (Timer.buffer l, w)) as [r [h' w']]. cbn [snd].
    rewrite checkpoint_attempts, map_app. reflexivity.
  - cbn [snd]. rewrite checkpoint_attempts, map_app. reflexivity.
Qed.

(** What [on_event] does to the buffer and the sink is what [add]
    does, whatever the sink: each text is in the buffer afterwards or
    went out in a call that was answered. *)
Lemma timer_on_event_any (now : Z) (event : option EventData) (l l' : Timer.Locals)
      (w w' : World) (k k' : Checkpointing) (r : result unit) :
  Timer.on_event now event (l, (w, k)) = (r, (l', (w', k'))) ->
  exists cs,
    calls w' = calls w ++ cs
    /\ forall x, In x (Function.buf (Timer.buffer l) ++ text_of event) ->
                 In x (Function.buf (Timer.buffer l')) \/ delivered_by cs x.
Proof.
  assert (Hidle : forall (r0 : result unit) k0, (r0, (l, (w, k0))) = (r, (l', (w', k'))) ->
             exists cs, calls w' = calls w ++ cs
               /\ forall x, In x (Function.buf (Timer.buffer l) ++ []) ->
                   In x (Function.buf (Timer.buffer l')) \/ delivered_by cs x).
  { intros r0 k0 [= _ <- <- _]. exists []. rewrite !app_nil_r. auto. }
  destruct event as [event|]; [|apply Hidle].
  rewrite timer_on_event_run. cbn [text_of].
  destruct (body_as_str event) as [body|e]; [|apply Hidle].
  destruct (Function.add body (Timer.buffer l, w)) as [r1 [h1 w1]] eqn:Hadd.
  destruct (add_any _ _ _ _ _ _ Hadd) as (cs & Hcs & Hcov).
  intros [= _ <- <- _]. exists cs. split; [exact Hcs|exact Hcov].
Qed.

Lemma timer_receive_loop_any (deliveries : list (Z * option EventData)) :
  forall (l l' : Timer.Locals) (w w' : World) (k k' : Checkpointing) (r : result unit),
    St.for_each (fun _ d => Timer.on_event (fst d) (snd d)) deliveries tt (l, (w, k))
    = (r, (l', (w', k'))) ->
    r = Ok tt
    /\ checkpointed k' = checkpointed k ++ events_of deliveries
    /\ exists cs,
         calls w' = calls w ++ cs
         /\ forall x, In x (Function.buf (Timer.buffer l) ++ texts deliveries) ->
                      In x (Function.buf (Timer.buffer l')) \/ delivered_by cs x.
Proof.
  induction deliveries as [|d deliveries IH]; intros l l' w w' k k' r Hrun.
  { cbn in Hrun. injection Hrun as <- <- <- <-. split; [reflexivity|].
    unfold events_of, texts. cbn [flat_map]. rewrite !app_nil_r.
    split; [reflexivity|]. exists []. rewrite app_nil_r. auto. }
  cbn [St.for_each] in Hrun. unfold St.bind in Hrun.
  pose proof (timer_on_event_returns (fst d) (snd d) (l, (w, k))) as Hret.
  pose proof (timer_on_event_checkpointed (fst d) (snd d) (l, (w, k))) as Hck.
  destruct (Timer.on_event (fst d) (snd d) (l, (w, k))) as [r1 [l1 [w1 k1]]] eqn:Hstep.
  cbn [fst snd] in Hret, Hck. subst r1.
  destruct (timer_on_event_any _ _ _ _ _ _ _ _ _ Hstep) as (cs1 & Hcs1 & Hcov1).
  destruct (IH _ _ _ _ _ _ _ Hrun) as (-> & Hck' & cs & Hcs & Hcov).
  split; [reflexivity|]. split.
  { rewrite Hck', Hck. unfold events_of. cbn [flat_map snd].
    rewrite app_nil_r, <- app_assoc. reflexivity. }
  exists (cs1 ++ cs). split; [rewrite Hcs, Hcs1, <- app_assoc; reflexivity|].
  intros x Hx. unfold texts in Hx. cbn [flat_map] in Hx.
  rewrite app_assoc in Hx. apply in_app_or in Hx as [Hx|Hx].
  - destruct (Hcov1 x Hx) as [Hin|Hd].
    + destruct (Hcov x) as [Hin'|Hd']; [apply in_or_app; left; exact Hin| |].
      * left. exact Hin'.
      * right. apply delivered_by_app. right. exact Hd'.
    + right. apply delivered_by_app. left. exact Hd.
  - destruct (Hcov x) as [Hin'|Hd']; [apply in_or_app; right; exact Hx| |].
    + left. exact Hin'.
    + right. apply delivered_by_app. right. exact Hd'.
Qed.

(** [process_eventhub] once the client is there: the loop, the final
    flush, and the outcome of the two. *)
Lemma process_eventhub_run (hub : Timer.Hub) (max_batch_count max_batch_bytes : Z)
      (w : World) (k : Checkpointing) :
  Timer.from_connection_string hub = Ok tt ->
  exists l1 w1 k1 r2 h2 w2,
    St.for_each (fun _ d => Timer.on_event (fst d) (snd d)) (Timer.deliveries hub) tt
      ({| Timer.buffer := Function.new_HubBuffer max_batch_count max_batch_bytes;
          Timer.last_event_ts := Timer.started hub |}, (w, k))
    = (Ok tt, (l1, (w1, k1)))
    /\ Function.flush (Timer.buffer l1, w1) = (r2, (h2, w2))
    /\ Timer.process_eventhub true hub max_batch_count max_batch_bytes (w, k)
       = (match r2 with
          | Ok _ => Timer.ending hub
          | Raise e => Raise e
          end, (w2, k1)).
Proof.
  intros Hconn.
  destruct (St.for_each (fun _ d => Timer.on_event (fst d) (snd d)) (Timer.deliveries hub) tt
              ({| Timer.buffer := Function.new_HubBuffer max_batch_count max_batch_bytes;
                  Timer.last_event_ts := Timer.started hub |}, (w, k)))
    as [r1 [l1 [w1 k1]]] eqn:Hloop.
  destruct (timer_receive_loop_any _ _ _ _ _ _ _ _ Hloop) as (-> & _).
  destruct (Function.flush (Timer.buffer l1, w1)) as [r2 [h2 w2]] eqn:Hflush.
  exists l1, w1, k1, r2, h2, w2. split; [reflexivity|]. split; [exact Hflush|].
  unfold Timer.process_eventhub. cbn [negb].
  unfold St.bind at 1, St.lift. rewrite Hconn.
  unfold St.bind at 1, St.with_local, try_finally, Timer.receive.
  unfold St.bind at 1. rewrite Hloop. unfold St.lift, Timer.on_buffer, zoom.
  cbn [fst snd]. rewrite Hflush. cbn [fst snd].
  destruct r2 as [[]|e2]; destruct (Timer.ending hub) as [[]|e1]; reflexivity.
Qed.
End TimerRuns.

(** X20. [on_event] of the timer-driven function never raises.  Handed
    [None] it changes nothing; handed an event it attempts exactly one
    checkpoint for it, whatever happened before: the body was not text,
    [add] raised, or the checkpoint itself raises. *)
Theorem timer_on_event_checkpoints_once `{SinkAdapter} `{PartitionContext}
        (now : Z) (event : option EventData) (s : Timer.Frame) :
  fst (Timer.on_event now event s) = Ok tt
  /\ match event with
     | None => snd (Timer.on_event now event s) = s
     | Some ev =>
         attempts (snd (snd (snd (Timer.on_event now event s))))
         = attempts (snd (snd s))
             ++ [(ev, fst (update_checkpoint (store (snd (snd s))) ev))]
     end.
Proof.
  split; [apply timer_on_event_returns|].
  destruct event as [ev|]; [|reflexivity].
  destruct s as [l [w k]]. rewrite timer_on_event_run.
  destruct (body_as_str ev) as [body|e].
  - destruct (Function.add body (Timer.buffer l, w)) as [r [h' w']]. cbn [snd].
    apply checkpoint_attempts.
  - cbn [snd]. apply checkpoint_attempts.
Qed.

(** X21. Whatever the sink does, when [process_eventhub] returns, every
    text that [on_event] was handed was in the batch of at least one
    call that the sink answered. *)
Theorem process_eventhub_returns_only_after_delivering `{SinkAdapter} `{PartitionContext}
        (hub : Timer.Hub) (max_batch_count max_batch_bytes : Z)
        (w w' : World) (k k' : Checkpointing) :
  Timer.process_eventhub true hub max_batch_count max_batch_bytes (w, k)
  = (Ok tt, (w', k')) ->
  exists cs,
    calls w' = calls w ++ cs
    /\ forall x, In x (texts (Timer.deliveries hub)) -> delivered_by cs x.
Proof.
  destruct (Timer.from_connection_string hub) as [[]|e] eqn:Hconn.
  2:{ unfold Timer.process_eventhub, St.bind at 1, St.lift. cbn [negb].
      rewrite Hconn. discriminate. }
  destruct (process_eventhub_run hub max_batch_count max_batch_bytes w k Hconn)
    as (l1 & w1 & k1 & r2 & h2 & w2 & Hloop & Hflush & ->).
  destruct (timer_receive_loop_any _ _ _ _ _ _ _ _ Hloop) as (_ & _ & cs1 & Hcs1 & Hcov1).
  destruct r2 as [[]|e2]; [|discriminate].
  destruct (forced_flush_any _ _ _ _ Hflush) as (cs2 & Hcs2 & Hcov2).
  intros [= _ <- _].
  exists (cs1 ++ cs2). split; [rewrite Hcs2, Hcs1, <- app_assoc; reflexivity|].
  intros x Hx. apply delivered_by_app.
  destruct (Hcov1 x) as [Hin|Hd]; [cbn; exact Hx| |].
  - right. apply Hcov2. exact Hin.
  - left. exact Hd.
Qed.

Lemma process_eventhub_returns_only_after_delivering_witness :
  exists cs,
    calls (world_of recovering_sink 2%nat
             [{| payloads_of := [pa; pb]; reply := Raise (OtherException 503) |};
              {| payloads_of := [pa; pb]; reply := Ok [false; false] |}])
    = calls (fresh_world recovering_sink 0%nat) ++ cs
    /\ forall x, In x (texts (Timer.deliveries closed_hub)) -> delivered_by cs x.
Proof.
  apply (@process_eventhub_returns_only_after_delivering recovering_sink steady_checkpoints
           closed_hub 2 1000 (fresh_world recovering_sink 0%nat)
           (world_of recovering_sink 2%nat
              [{| payloads_of := [pa; pb]; reply := Raise (OtherException 503) |};
               {| payloads_of := [pa; pb]; reply := Ok [false; false] |}])
           (no_checkpoints steady_checkpoints tt)
           (checkpoints_of steady_checkpoints tt
              [(event_a, Ok tt); (event_binary, Ok tt); (event_b, Ok tt)])).
  reflexivity.
Defined.

(** X22. Once its client is made, [process_eventhub] attempts one
    checkpoint for each event it was handed, in order, whether it
    returns or raises: also for the events whose texts the sink never
    took. *)
Theorem process_eventhub_checkpoints_every_event `{SinkAdapter} `{PartitionContext}
        (hub : Timer.Hub) (max_batch_count max_batch_bytes : Z)
        (w : World) (k : Checkpointing) :
  Timer.from_connection_string hub = Ok tt ->
  checkpointed
    (snd (snd (Timer.process_eventhub true hub max_batch_count max_batch_bytes (w, k))))
  = checkpointed k ++ events_of (Timer.deliveries hub).
Proof.
  intros Hconn.
  destruct (process_eventhub_run hub max_batch_count max_batch_bytes w k Hconn)
    as (l1 & w1 & k1 & r2 & h2 & w2 & Hloop & Hflush & ->).
  destruct (timer_receive_loop_any _ _ _ _ _ _ _ _ Hloop) as (_ & Hck & _).
  exact Hck.
Qed.

Lemma process_eventhub_checkpoints_every_event_witness :
  fst (@Timer.process_eventhub down_sink steady_checkpoints true closed_hub 2 1000
         (fresh_world down_sink tt, no_checkpoints steady_checkpoints tt))
  = Raise (OtherException 503)
  /\ checkpointed
       (snd (snd (@Timer.process_eventhub down_sink steady_checkpoints true closed_hub 2 1000
                    (fresh_world down_sink tt, no_checkpoints steady_checkpoints tt))))
     = checkpointed (no_checkpoints steady_checkpoints tt)
         ++ events_of (Timer.deliveries closed_hub).
Proof.
  split; [reflexivity|].
  apply (@process_eventhub_checkpoints_every_event down_sink steady_checkpoints
           closed_hub 2 1000 (fresh_world down_sink tt)
           (no_checkpoints steady_checkpoints tt)).
  reflexivity.
Defined.

Section TimerAnswered.
Context `{SinkAdapter} `{PartitionContext}.

Lemma timer_receive_loop_answered (deliveries : list (Z * option EventData)) :
  never_raises ->
  forall (l : Timer.Locals) (w : World) (k : Checkpointing),
    forallb encodable (Function.buf (Timer.buffer l) ++ texts deliveries) = true ->
    exists l' w' k' cs,
      St.for_each (fun _ d => Timer.on_event (fst d) (snd d)) deliveries tt (l, (w, k))
      = (Ok tt, (l', (w', k')))
      /\ calls w' = calls w ++ cs
      /\ concat (map payloads_of cs) ++ Function.buf (Timer.buffer l')
         = Function.buf (Timer.buffer l) ++ texts deliveries.
Proof.
  intros Hnever. induction deliveries as [|[now event] deliveries IH]; intros l w k Henc.
  { exists l, w, k, []. split; [reflexivity|]. unfold texts. cbn.
    rewrite !app_nil_r. split; reflexivity. }
  cbn [St.for_each fst snd]. unfold St.bind.
  unfold texts in *. cbn [flat_map snd] in *.
  assert (Hskip : forall k1,
             text_of event = [] ->
             Timer.on_event now event (l, (w, k)) = (Ok tt, (l, (w, k1))) ->
             exists l' w' k' cs,
               match Timer.on_event now event (l, (w, k)) with
               | (Ok a, s') =>
                   St.for_each (fun _ d => Timer.on_event (fst d) (snd d)) deliveries a s'
               | (Raise e, s') => (Raise e, s')
               end = (Ok tt, (l', (w', k')))
               /\ calls w' = calls w ++ cs
               /\ concat (map payloads_of cs) ++ Function.buf (Timer.buffer l')
                  = Function.buf (Timer.buffer l)
                      ++ text_of event ++ flat_map (fun d => text_of (snd d)) deliveries).
  { intros k1 Ht Hrun. rewrite Hrun. rewrite Ht in *. cbn [app] in *.
    destruct (IH l w k1 Henc) as (l' & w' & k' & cs & Hloop & Hcs & Hc).
    exists l', w', k', cs. auto. }
  destruct event as [event|]; [|apply (Hskip k); reflexivity].
  pose proof (timer_on_event_run now event l w k) as Hrun. cbn [text_of] in *.
  destruct (body_as_str event) as [body|e]; [|apply (Hskip _ eq_refl Hrun)].
  assert (Henc1 : forallb encodable (Function.buf (Timer.buffer l) ++ [body]) = true).
  { rewrite app_assoc in Henc. rewrite forallb_app in Henc.
    apply andb_true_iff in Henc as [Henc _]. exact Henc. }
  destruct (add_answered body (Timer.buffer l) w Hnever Henc1)
    as (h1 & w1 & cs1 & Hadd & [Hcs1 _] & Hc1 & _).
  rewrite Hadd in Hrun. rewrite Hrun.
  set (l1 := {| Timer.buffer := h1; Timer.last_event_ts := now |}).
  assert (Henc2 : forallb encodable
                    (Function.buf (Timer.buffer l1)
                       ++ flat_map (fun d => text_of (snd d)) deliveries) = true).
  { cbn [Timer.buffer l1]. rewrite forallb_app. apply andb_true_iff. split.
    - apply (forallb_app_r _ (concat (map payloads_of cs1))). rewrite Hc1. exact Henc1.
    - apply (forallb_app_r _ (Function.buf (Timer.buffer l) ++ [body])).
      rewrite <- app_assoc. exact Henc. }
  destruct (IH l1 w1 (snd (checkpoint event k)) Henc2)
    as (l' & w' & k' & cs & Hloop & Hcs & Hc).
  exists l', w', k', (cs1 ++ cs). split; [exact Hloop|].
  split; [rewrite Hcs, Hcs1, <- app_assoc; reflexivity|].
  rewrite map_app, concat_app, <- app_assoc, Hc. cbn [Timer.buffer l1].
  rewrite app_assoc, Hc1, <- app_assoc. reflexivity.
Qed.
End TimerAnswered.

(** X23. The final flush of [process_eventhub] runs whatever [receive]
    does.  With a sink that answers and texts that are UTF-8 text, once
    the client is made [process_eventhub] ends as [receive] ended, by
    returning or by raising the same exception, and in both cases every
    text [on_event] was handed has gone to the sink exactly once, in
    order. *)
Theorem process_eventhub_flushes_whatever_receive_does `{SinkAdapter} `{PartitionContext}
        (hub : Timer.Hub) (max_batch_count max_batch_bytes : Z)
        (w : World) (k : Checkpointing) :
  never_raises ->
  forallb encodable (texts (Timer.deliveries hub)) = true ->
  Timer.from_connection_string hub = Ok tt ->
  exists w' k' cs,
    Timer.process_eventhub true hub max_batch_count max_batch_bytes (w, k)
    = (Timer.ending hub, (w', k'))
    /\ calls w' = calls w ++ cs
    /\ concat (map payloads_of cs) = texts (Timer.deliveries hub).
Proof.
  intros Hnever Henc Hconn.
  destruct (process_eventhub_run hub max_batch_count max_batch_bytes w k Hconn)
    as (l1 & w1 & k1 & r2 & h2 & w2 & Hloop & Hflush & ->).
  destruct (timer_receive_loop_answered (Timer.deliveries hub) Hnever
              {| Timer.buffer := Function.new_HubBuffer max_batch_count max_batch_bytes;
                 Timer.last_event_ts := Timer.started hub |} w k Henc)
    as (l1' & w1' & k1' & cs1 & Hloop' & Hcs1 & Hc1).
  rewrite Hloop in Hloop'. injection Hloop' as <- <- <-.
  cbn [Timer.buffer Function.new_HubBuffer Function.buf app] in Hc1.
  assert (Henc1 : forallb encodable (Function.buf (Timer.buffer l1)) = true).
  { apply (forallb_app_r _ (concat (map payloads_of cs1))). rewrite Hc1. exact Henc. }
  destruct (flush_if_needed_answered true (Timer.buffer l1) w1 Hnever Henc1)
    as (h2' & w2' & cs2 & Hrun2 & [Hcs2 _] & Hc2 & _ & _ & _ & _ & _ & Hempty).
  unfold Function.flush in Hflush. rewrite Hrun2 in Hflush. injection Hflush as <- <- <-.
  exists w2', k1, (cs1 ++ cs2). split; [reflexivity|].
  split; [rewrite Hcs2, Hcs1, <- app_assoc; reflexivity|].
  rewrite (Hempty eq_refl), app_nil_r in Hc2.
  rewrite map_app, concat_app, Hc2. exact Hc1.
Qed.

Lemma process_eventhub_flushes_whatever_receive_does_witness :
  exists w' k' cs,
    @Timer.process_eventhub reliable_sink broken_checkpoints true interrupted_hub 5 1000
      (fresh_world reliable_sink tt, no_checkpoints broken_checkpoints tt)
    = (Timer.ending interrupted_hub, (w', k'))
    /\ calls w' = calls (fresh_world reliable_sink tt) ++ cs
    /\ concat (map payloads_of cs) = texts (Timer.deliveries interrupted_hub).
Proof.
  apply (@process_eventhub_flushes_whatever_receive_does reliable_sink broken_checkpoints
           interrupted_hub 5 1000 (fresh_world reliable_sink tt)
           (no_checkpoints broken_checkpoints tt)).
  - intros k entries. eexists. reflexivity.
  - reflexivity.
  - reflexivity.
Defined.

Section TimerMain.
Context `{SinkAdapter} `{PartitionContext}.

(** [main] once the SDKs are there, the settings valid and the sender
    built: the loop over the hubs, with its exception dropped. *)
Lemma timer_main_run (env : Timer.Runtime) (endpoint stream_ocid : str)
      (hubs : list str) (limits : Z * Z) (s : World * Checkpointing) :
  Timer.EH_SDK_OK env = true -> Timer.OCI_SDK_OK env = true ->
  Timer.validate_env (Timer.getenv env) = Ok (endpoint, stream_ocid, hubs) ->
  Timer.configure env endpoint stream_ocid = Ok limits ->
  Timer.main env s
  = (Ok tt,
     snd (St.for_each
            (fun _ hub =>
               Timer.process_eventhub true (Timer.hub_named env hub)
                 (fst limits) (snd limits))
            hubs tt s)).
Proof.
  intros Heh Hoci Hval Hconf. unfold Timer.main. rewrite Heh, Hoci. cbn [andb negb].
  unfold St.try_except, St.bind at 1, St.lift. rewrite Hval.
  unfold St.bind at 1. rewrite Hconf.
  destruct hubs as [|hub hubs]; [reflexivity|].
  match goal with
  | |- context [St.for_each ?f (hub :: hubs) tt s] =>
      destruct (St.for_each f (hub :: hubs) tt s) as [[[]|e] s']
  end; reflexivity.
Qed.
End TimerMain.

(** X24. The timer-driven [main] never raises: whatever goes wrong
    (settings, sender, a hub, the sink) is logged and the run ends
    normally.  When no hub is configured it touches neither the sink nor
    the checkpoints. *)
Theorem timer_main_never_raises `{SinkAdapter} `{PartitionContext}
        (env : Timer.Runtime) (s : World * Checkpointing) :
  fst (Timer.main env s) = Ok tt
  /\ (Timer.get_eventhub_list (Timer.getenv env) = [] -> snd (Timer.main env s) = s).
Proof.
  unfold Timer.main.
  destruct (negb (Timer.EH_SDK_OK env && Timer.OCI_SDK_OK env)); [split; reflexivity|].
  cbv beta iota delta [St.try_except St.bind St.lift].
  destruct (Timer.validate_env (Timer.getenv env)) as [[[endpoint stream_ocid] hubs]|e] eqn:Hval;
    [|split; reflexivity].
  assert (Hhubs : hubs = Timer.get_eventhub_list (Timer.getenv env)).
  { unfold Timer.validate_env in Hval.
    destruct (Timer.getenv env EventHubsConnectionString) as [[|c onn]|]; try discriminate.
    destruct (py_or (Timer.getenv env MessageEndpoint) (Timer.getenv env OCI_MESSAGE_ENDPOINT))
      as [[|x ndpoint]|]; try discriminate.
    destruct (py_or (Timer.getenv env StreamOcid) (Timer.getenv env OCI_STREAM_OCID))
      as [[|y tream]|]; try discriminate.
    injection Hval as _ _ <-. reflexivity. }
  destruct (Timer.configure env endpoint stream_ocid) as [limits|e]; [|split; reflexivity].
  destruct hubs as [|hub hubs]; [split; reflexivity|].
  match goal with
  | |- context [St.for_each ?f (hub :: hubs) tt s] =>
      destruct (St.for_each f (hub :: hubs) tt s) as [[[]|e] s'] eqn:Hloop
  end; (split; [reflexivity|]); intros Hnone; rewrite Hnone in Hhubs; discriminate Hhubs.
Qed.

(** X25. The hubs are processed one after the other until one of them
    raises: when [process_eventhub] raises for a hub, the run ends there,
    normally, and the hubs after it are not received from. *)
Theorem timer_main_abandons_hubs_after_failure `{SinkAdapter} `{PartitionContext}
        (env : Timer.Runtime) (endpoint stream_ocid : str)
        (before after : list str) (hub : str) (limits : Z * Z)
        (s s1 s2 : World * Checkpointing) (e : exn) :
  Timer.EH_SDK_OK env = true -> Timer.OCI_SDK_OK env = true ->
  Timer.validate_env (Timer.getenv env) = Ok (endpoint, stream_ocid, before ++ hub :: after) ->
  Timer.configure env endpoint stream_ocid = Ok limits ->
  St.for_each
    (fun _ name =>
       Timer.process_eventhub true (Timer.hub_named env name) (fst limits) (snd limits))
    before tt s = (Ok tt, s1) ->
  Timer.process_eventhub true (Timer.hub_named env hub) (fst limits) (snd limits) s1
  = (Raise e, s2) ->
  Timer.main env s = (Ok tt, s2).
Proof.
  intros Heh Hoci Hval Hconf Hbefore Hhub.
  rewrite (timer_main_run env endpoint stream_ocid _ limits s Heh Hoci Hval Hconf).
  rewrite for_each_app. unfold St.bind at 1. rewrite Hbefore.
  cbn [St.for_each]. unfold St.bind. rewrite Hhub. reflexivity.
Qed.

Lemma timer_main_abandons_hubs_after_failure_witness :
  @Timer.main down_sink steady_checkpoints runtime_a_b
    (fresh_world down_sink tt, no_checkpoints steady_checkpoints tt)
  = (Ok tt,
     (world_of down_sink tt
        [{| payloads_of := [pa; pb]; reply := Raise (OtherException 503) |};
         {| payloads_of := [pa; pb]; reply := Raise (OtherException 503) |}],
      checkpoints_of steady_checkpoints tt
        [(event_a, Ok tt); (event_binary, Ok tt); (event_b, Ok tt)])).
Proof.
  apply (@timer_main_abandons_hubs_after_failure down_sink steady_checkpoints runtime_a_b
           [101%N] [115%N] [] [[98%N]] [97%N] (2, 1000)
           (fresh_world down_sink tt, no_checkpoints steady_checkpoints tt)
           (fresh_world down_sink tt, no_checkpoints steady_checkpoints tt)
           (world_of down_sink tt
              [{| payloads_of := [pa; pb]; reply := Raise (OtherException 503) |};
               {| payloads_of := [pa; pb]; reply := Raise (OtherException 503) |}],
            checkpoints_of steady_checkpoints tt
              [(event_a, Ok tt); (event_binary, Ok tt); (event_b, Ok tt)])
           (OtherException 503)); reflexivity.
Defined.

(** * Receiving in the drain script *)

Section DrainerRuns.
Context `{SinkAdapter} `{PartitionContext}.

Lemma partition_update_checkpoint_run (event : EventData) (x : Consumer.Session)
      (o : Consumer.Obj) :
  Consumer.partition_update_checkpoint event (x, o)
  = (fst (checkpoint event (Consumer.partition_context x)), (checkpoint_tried event x, o)).
Proof.
  unfold Consumer.partition_update_checkpoint, St.on_fst, zoom, checkpoint_tried.
  cbn [fst snd].
  destruct (checkpoint event (Consumer.partition_context x)) as [r k']. reflexivity.
Qed.

Lemma except_clause_run (e : exn) (event : EventData) (x : Consumer.Session)
      (o : Consumer.Obj) :
  St.bind (Consumer.notice (Consumer.ErrorProcessing e))
    (fun _ => St.try_except (Consumer.partition_update_checkpoint event)
                (fun _ => St.ret tt)) (x, o)
  = (Ok tt, (after_error e event x, o)).
Proof.
  unfold St.bind, Consumer.notice, St.on_fst, St.modify, St.try_except. cbn [fst snd].
  rewrite partition_update_checkpoint_run. unfold after_error, noticed.
  destruct (fst (checkpoint event _)) as [[]|e']; reflexivity.
Qed.

(** [on_event] on an event, by what the body is, what the flush did
    and what the checkpoint did. *)
Lemma drainer_on_event_run (now : Z) (event : EventData) (x : Consumer.Session)
      (d : Consumer.EventHubDrainer) (w : World) :
  Consumer.on_event now (Some event) (x, (d, w)) =
    match body_as_str event with
    | Raise e => (Ok tt, (after_error e event x, (d, w)))
    | Ok body =>
        match Consumer._flush_if_needed false
                (Consumer.append_buffer body (Consumer.add_processed d), w) with
        | (Raise e, o) =>
            (Ok tt, (after_error e event (Consumer.set_last_event_ts now x), o))
        | (Ok _, (d', w')) =>
            match fst (checkpoint event (Consumer.partition_context x)) with
            | Raise e =>
                (Ok tt,
                 (after_error e event
                    (checkpoint_tried event (Consumer.set_last_event_ts now x)),
                  (d', w')))
            | Ok _ =>
                (Ok tt,
                 (fold_left (fun y line => noticed line y) (progress_of d')
                    (checkpoint_tried event (Consumer.set_last_event_ts now x)),
                  (d', w')))
            end
        end
    end.
Proof.
  unfold Consumer.on_event, St.try_except, St.bind at 1, St.lift.
  destruct (body_as_str event) as [body|e]; [|apply except_clause_run].
  unfold St.bind at 1, St.on_fst at 1, St.modify. cbn [fst snd].
  unfold St.bind at 1, St.on_snd at 1, Consumer.update, St.on_fst, St.modify. cbn [fst snd].
  unfold St.bind at 1, St.on_snd at 1. cbn [fst snd].
  unfold St.bind at 1, St.on_snd at 1. cbn [fst snd].
  destruct (Consumer._flush_if_needed false
              (Consumer.append_buffer body (Consumer.add_processed d), w))
    as [[[]|e] [d' w']]; [|apply except_clause_run].
  unfold St.bind at 1. rewrite partition_update_checkpoint_run.
  change (Consumer.partition_context (Consumer.set_last_event_ts now x))
    with (Consumer.partition_context x).
  destruct (fst (checkpoint event (Consumer.partition_context x))) as [[]|e];
    [|apply except_clause_run].
  unfold St.bind, St.on_snd, Consumer.self, St.on_fst, St.get. cbn [fst snd].
  unfold progress_of.
  destruct (Consumer.messages_processed d' mod 100 =? 0); reflexivity.
Qed.
End DrainerRuns.

Section DrainerLoop.
Context `{SinkAdapter} `{PartitionContext}.

(** A flush leaves the settings and the count of processed messages
    as they are. *)
Lemma drainer_flush_keeps_settings (force : bool) (d d' : Consumer.EventHubDrainer)
      (w w' : World) (r : result unit) :
  Consumer._flush_if_needed force (d, w) = (r, (d', w')) ->
  Consumer.oci_sender d' = Consumer.oci_sender d
  /\ Consumer.max_batch_bytes d' = Consumer.max_batch_bytes d
  /\ Consumer.max_batch_count d' = Consumer.max_batch_count d
  /\ Consumer.messages_processed d' = Consumer.messages_processed d.
Proof.
  assert (Hidle : forall r0, (r0, (d, w)) = (r, (d', w')) ->
             Consumer.oci_sender d' = Consumer.oci_sender d
             /\ Consumer.max_batch_bytes d' = Consumer.max_batch_bytes d
             /\ Consumer.max_batch_count d' = Consumer.max_batch_count d
             /\ Consumer.messages_processed d' = Consumer.messages_processed d).
  { intros r0 [= _ <- _]. auto. }
  assert (Hsend : Consumer.send_buffer (d, w) = (r, (d', w')) ->
             Consumer.oci_sender d' = Consumer.oci_sender d
             /\ Consumer.max_batch_bytes d' = Consumer.max_batch_bytes d
             /\ Consumer.max_batch_count d' = Consumer.max_batch_count d
             /\ Consumer.messages_processed d' = Consumer.messages_processed d).
  { rewrite send_buffer_run.
    destruct (Consumer.send_with_size_limit (Consumer._buffer d)
                (Consumer.max_batch_bytes d) (Consumer.max_batch_count d) w)
      as [[sfb|e] w1]; intros [= _ <- _]; auto. }
  destruct (Consumer.oci_sender d) as [sender|] eqn:Hs.
  - rewrite (drainer_flush_run _ _ _ _ Hs).
    destruct (Consumer._buffer d) as [|p t]; [apply Hidle|].
    destruct force; [exact Hsend|].
    destruct (estimate_batch_bytes (p :: t)) as [est|e]; [|apply Hidle].
    destruct ((len (p :: t) >=? Consumer.max_batch_count d)
              || (est >=? Consumer.max_batch_bytes d)); [exact Hsend|apply Hidle].
  - rewrite (log_only_run _ _ _ Hs).
    destruct force; destruct (Consumer._buffer d) as [|p t]; try apply Hidle.
    intros [= _ <- _]. cbn. auto.
Qed.

(** One call of [on_event], whatever the sink and the checkpoints do. *)
Lemma drainer_on_event_any (now : Z) (event : option EventData)
      (x x' : Consumer.Session) (d d' : Consumer.EventHubDrainer) (w w' : World)
      (r : result unit) :
  Consumer.on_event now event (x, (d, w)) = (r, (x', (d', w'))) ->
  r = Ok tt
  /\ Consumer.oci_sender d' = Consumer.oci_sender d
  /\ Consumer.max_batch_bytes d' = Consumer.max_batch_bytes d
  /\ Consumer.max_batch_count d' = Consumer.max_batch_count d
  /\ Consumer.messages_processed d'
     = Consumer.messages_processed d + len (text_of event).
Proof.
  assert (Hidle : forall x0, (Ok tt, (x0, (d, w))) = (r, (x', (d', w'))) ->
             r = Ok tt
             /\ Consumer.oci_sender d' = Consumer.oci_sender d
             /\ Consumer.max_batch_bytes d' = Consumer.max_batch_bytes d
             /\ Consumer.max_batch_count d' = Consumer.max_batch_count d
             /\ Consumer.messages_processed d'
                = Consumer.messages_processed d + len (@nil str)).
  { intros x0 [= <- _ <- _]. change (len (@nil str)) with 0.
    repeat split; try reflexivity. lia. }
  destruct event as [event|]; [|apply Hidle].
  rewrite drainer_on_event_run. cbn [text_of].
  destruct (body_as_str event) as [body|e]; [|apply Hidle].
  destruct (Consumer._flush_if_needed false
              (Consumer.append_buffer body (Consumer.add_processed d), w))
    as [r1 [d1 w1]] eqn:Hflush.
  destruct (drainer_flush_keeps_settings _ _ _ _ _ _ Hflush) as (Hs & Hb & Hc & Hp).
  cbn [Consumer.append_buffer Consumer.add_processed Consumer.oci_sender
         Consumer.max_batch_bytes Consumer.max_batch_count Consumer.messages_processed]
    in Hs, Hb, Hc, Hp.
  change (len [body]) with 1.
  destruct r1 as [[]|e];
    [destruct (fst (checkpoint event (Consumer.partition_context x))) as [[]|e]|];
    intros [= <- _ <- _]; auto.
Qed.


(** The loop of [receive], whatever the sink and the checkpoints do. *)
Lemma drainer_receive_loop_any (deliveries : list (Z * option EventData)) :
  forall (x x' : Consumer.Session) (d d' : Consumer.EventHubDrainer) (w w' : World)
         (r : result unit),
    St.for_each (fun _ dl => Consumer.on_event (fst dl) (snd dl)) deliveries tt (x, (d, w))
    = (r, (x', (d', w'))) ->
    r = Ok tt
    /\ Consumer.oci_sender d' = Consumer.oci_sender d
    /\ Consumer.max_batch_bytes d' = Consumer.max_batch_bytes d
    /\ Consumer.max_batch_count d' = Consumer.max_batch_count d
    /\ Consumer.messages_processed d'
       = Consumer.messages_processed d + len (texts deliveries).
Proof.
  induction deliveries as [|dl deliveries IH]; intros x x' d d' w w' r Hrun.
  { cbn in Hrun. injection Hrun as <- _ <- _. change (len (texts [])) with 0.
    repeat split; try reflexivity. lia. }
  cbn [St.for_each] in Hrun. unfold St.bind in Hrun.
  destruct (Consumer.on_event (fst dl) (snd dl) (x, (d, w))) as [r1 [x1 [d1 w1]]] eqn:Hstep.
  destruct (drainer_on_event_any _ _ _ _ _ _ _ _ _ Hstep) as (-> & Hs1 & Hb1 & Hc1 & Hp1).
  destruct (IH _ _ _ _ _ _ _ Hrun) as (-> & Hs & Hb & Hc & Hp).
  split; [reflexivity|]. split; [congruence|]. split; [congruence|]. split; [congruence|].
  unfold texts. cbn [flat_map]. rewrite len_app. fold (texts deliveries). lia.
Qed.

(** [drain]: the configuration block, the loop, the final flush, and
    the closing block unless the flush raised. *)
Lemma drain_run (rc : Consumer.Reception) (x : Consumer.Session)
      (d : Consumer.EventHubDrainer) (w : World) :
  exists x1 d1 w1 r2 d2 w2,
    St.for_each (fun _ dl => Consumer.on_event (fst dl) (snd dl)) (Consumer.deliveries rc) tt
      (noticed (Consumer.Configuration (Consumer.max_batch_count d)
                  (Consumer.max_batch_bytes d)
                  (match Consumer.oci_sender d with Some _ => true | None => false end)) x,
       (d, w))
    = (Ok tt, (x1, (d1, w1)))
    /\ Consumer._flush_if_needed true (d1, w1) = (r2, (d2, w2))
    /\ Consumer.drain rc (x, (d, w))
       = match r2 with
         | Raise e => (Raise e, (x1, (d2, w2)))
         | Ok _ =>
             (Consumer.ending rc,
              (noticed (Consumer.Summary (0 <? Consumer.messages_processed d2)
                          (Consumer.messages_processed d2)
                          (match Consumer.oci_sender d2 with
                           | Some _ => Some (Consumer.messages_sent d2,
                                             Consumer.messages_failed d2,
                                             Consumer.batches d2)
                           | None => None
                           end)) x1,
               (d2, w2)))
         end.
Proof.
  match goal with
  | |- exists x1 d1 w1 r2 d2 w2, ?loop = _ /\ _ =>
      destruct loop as [r1 [x1 [d1 w1]]] eqn:Hloop
  end.
  destruct (drainer_receive_loop_any _ _ _ _ _ _ _ _ Hloop) as (-> & _).
  destruct (Consumer._flush_if_needed true (d1, w1)) as [r2 [d2 w2]] eqn:Hflush.
  exists x1, d1, w1, r2, d2, w2. split; [reflexivity|]. split; [exact Hflush|].
  unfold Consumer.drain. unfold St.bind at 1, St.on_snd at 1, Consumer.self at 1.
  unfold St.on_fst at 1, St.get. cbn [fst snd].
  unfold St.bind at 1, Consumer.notice at 1, St.on_fst at 1, St.modify. cbn [fst snd].
  fold (noticed (Consumer.Configuration (Consumer.max_batch_count d)
                   (Consumer.max_batch_bytes d)
                   (match Consumer.oci_sender d with Some _ => true | None => false end)) x).
  unfold try_finally, Consumer.receive. unfold St.bind at 1.
  match goal with
  | |- context [@St.for_each ?S ?A ?V ?f (Consumer.deliveries rc) tt ?s] =>
      replace (@St.for_each S A V f (Consumer.deliveries rc) tt s)
        with (@Ok unit tt, (x1, (d1, w1))) by (symmetry; exact Hloop)
  end.
  unfold St.lift. unfold St.bind at 1, St.on_snd at 1. cbn [fst snd]. rewrite Hflush.
  destruct r2 as [[]|e2].
  - unfold St.bind, St.on_snd, Consumer.self, St.on_fst, St.get, Consumer.notice, St.modify.
    cbn [fst snd]. destruct (Consumer.ending rc) as [[]|e1]; reflexivity.
  - destruct (Consumer.ending rc) as [[]|e1]; reflexivity.
Qed.
End DrainerLoop.


(** X27. [messages_processed] counts the events whose body was text,
    not the messages that reached the sink: over a whole [drain] it
    grows by the number of such events, whatever the sink and the
    checkpoints did and however the drain ended. *)
Theorem drain_counts_every_text `{SinkAdapter} `{PartitionContext}
        (rc : Consumer.Reception) (x : Consumer.Session)
        (d : Consumer.EventHubDrainer) (w : World) :
  Consumer.messages_processed (fst (snd (snd (Consumer.drain rc (x, (d, w))))))
  = Consumer.messages_processed d + len (texts (Consumer.deliveries rc)).
Proof.
  destruct (drain_run rc x d w) as (x1 & d1 & w1 & r2 & d2 & w2 & Hloop & Hflush & ->).
  destruct (drainer_receive_loop_any _ _ _ _ _ _ _ _ Hloop) as (_ & _ & _ & _ & Hp1).
  destruct (drainer_flush_keeps_settings _ _ _ _ _ _ Hflush) as (_ & _ & _ & Hp2).
  destruct r2 as [[]|e]; cbn [fst snd]; congruence.
Qed.

(** X28. In the drain script an event whose flush failed is lost: when
    a call to the sink raised while [on_event] handled an event, the
    event's text had been counted as processed, the buffer, with this
    text and those waiting in it, is empty afterwards though nothing of
    it was sent, the error is printed, and the checkpoint is attempted
    for the event all the same. *)
Theorem drainer_on_event_failed_send_loses_buffer `{SinkAdapter} `{PartitionContext}
        (now : Z) (ev : EventData) (x x' : Consumer.Session)
        (d d' : Consumer.EventHubDrainer) (w w' : World) (r : result unit)
        (cs : list Call) (c : Call) (e : exn) :
  Consumer.on_event now (Some ev) (x, (d, w)) = (r, (x', (d', w'))) ->
  calls w' = calls w ++ cs ->
  In c cs -> reply c = Raise e ->
  r = Ok tt
  /\ (exists body, body_as_str ev = Ok body)
  /\ Consumer.messages_processed d' = Consumer.messages_processed d + 1
  /\ Consumer._buffer d' = []
  /\ Consumer.messages_sent d' = Consumer.messages_sent d
  /\ Consumer.notices x' = Consumer.notices x ++ [Consumer.ErrorProcessing e]
  /\ checkpointed (Consumer.partition_context x')
     = checkpointed (Consumer.partition_context x) ++ [ev].
Proof.
  rewrite drainer_on_event_run. intros Hrun Hcalls Hin Hrep.
  destruct (body_as_str ev) as [body|e0].
  2:{ injection Hrun as _ _ _ <-. apply calls_unchanged in Hcalls. subst cs. destruct Hin. }
  destruct (Consumer._flush_if_needed false
              (Consumer.append_buffer body (Consumer.add_processed d), w))
    as [r1 [d1 w1]] eqn:Hflush.
  assert (Hw : w1 = w').
  { destruct r1 as [[]|e1];
      [destruct (fst (checkpoint ev (Consumer.partition_context x))) as [[]|e1]|];
      injection Hrun as _ _ _ <-; reflexivity. }
  subst w1.
  destruct (drainer_flush_failed_call _ _ _ _ _ _ _ _ _ Hflush Hcalls Hin Hrep)
    as (-> & ->).
  injection Hrun as <- <- <-.
  split; [reflexivity|]. split; [eauto|]. split; [reflexivity|]. split; [reflexivity|].
  split; [reflexivity|]. split; [reflexivity|].
  unfold checkpointed, after_error.
  cbn [checkpoint_tried noticed Consumer.partition_context Consumer.set_last_event_ts].
  rewrite checkpoint_attempts, map_app. reflexivity.
Qed.

Lemma drainer_on_event_failed_send_loses_buffer_witness :
  fst (@Consumer.on_event down_sink steady_checkpoints 7 (Some event_b)
         (session_of steady_checkpoints 0 [] (no_checkpoints steady_checkpoints tt),
          (sending_drainer [pa], fresh_world down_sink tt)))
  = Ok tt
  /\ (exists body, body_as_str event_b = Ok body)
  /\ Consumer.messages_processed
       (fst (snd (snd (@Consumer.on_event down_sink steady_checkpoints 7 (Some event_b)
         (session_of steady_checkpoints 0 [] (no_checkpoints steady_checkpoints tt),
          (sending_drainer [pa], fresh_world down_sink tt))))))
     = Consumer.messages_processed (sending_drainer [pa]) + 1
  /\ Consumer._buffer
       (fst (snd (snd (@Consumer.on_event down_sink steady_checkpoints 7 (Some event_b)
         (session_of steady_checkpoints 0 [] (no_checkpoints steady_checkpoints tt),
          (sending_drainer [pa], fresh_world down_sink tt))))))
     = []
  /\ Consumer.messages_sent
       (fst (snd (snd (@Consumer.on_event down_sink steady_checkpoints 7 (Some event_b)
         (session_of steady_checkpoints 0 [] (no_checkpoints steady_checkpoints tt),
          (sending_drainer [pa], fresh_world down_sink tt))))))
     = Consumer.messages_sent (sending_drainer [pa])
  /\ Consumer.notices
       (fst (snd (@Consumer.on_event down_sink steady_checkpoints 7 (Some event_b)
         (session_of steady_checkpoints 0 [] (no_checkpoints steady_checkpoints tt),
          (sending_drainer [pa], fresh_world down_sink tt)))))
     = Consumer.notices
         (session_of steady_checkpoints 0 [] (no_checkpoints steady_checkpoints tt))
         ++ [Consumer.ErrorProcessing (OtherException 503)]
  /\ checkpointed
       (Consumer.partition_context
          (fst (snd (@Consumer.on_event down_sink steady_checkpoints 7 (Some event_b)
         (session_of steady_checkpoints 0 [] (no_checkpoints steady_checkpoints tt),
          (sending_drainer [pa], fresh_world down_sink tt))))))
     = checkpointed
         (Consumer.partition_context
            (session_of steady_checkpoints 0 [] (no_checkpoints steady_checkpoints tt)))
         ++ [event_b].
Proof.
  apply (@drainer_on_event_failed_send_loses_buffer down_sink steady_checkpoints
           7 event_b
           (session_of steady_checkpoints 0 [] (no_checkpoints steady_checkpoints tt))
           (fst (snd (@Consumer.on_event down_sink steady_checkpoints 7 (Some event_b)
              (session_of steady_checkpoints 0 [] (no_checkpoints steady_checkpoints tt),
               (sending_drainer [pa], fresh_world down_sink tt)))))
           (sending_drainer [pa])
           (fst (snd (snd (@Consumer.on_event down_sink steady_checkpoints 7 (Some event_b)
              (session_of steady_checkpoints 0 [] (no_checkpoints steady_checkpoints tt),
               (sending_drainer [pa], fresh_world down_sink tt))))))
           (fresh_world down_sink tt)
           (snd (snd (snd (@Consumer.on_event down_sink steady_checkpoints 7 (Some event_b)
              (session_of steady_checkpoints 0 [] (no_checkpoints steady_checkpoints tt),
               (sending_drainer [pa], fresh_world down_sink tt))))))
           (fst (@Consumer.on_event down_sink steady_checkpoints 7 (Some event_b)
              (session_of steady_checkpoints 0 [] (no_checkpoints steady_checkpoints tt),
               (sending_drainer [pa], fresh_world down_sink tt))))
           [{| payloads_of := [pa; pb]; reply := Raise (OtherException 503) |}]
           {| payloads_of := [pa; pb]; reply := Raise (OtherException 503) |}
           (OtherException 503)).
  - reflexivity.
  - reflexivity.
  - left. reflexivity.
  - reflexivity.
Defined.

Section DrainerLogOnly.
Context `{SinkAdapter} `{PartitionContext}.

(** Without a sender [on_event] only lengthens the buffer. *)
Lemma drainer_on_event_log_only (now : Z) (event : option EventData)
      (x x' : Consumer.Session) (d d' : Consumer.EventHubDrainer) (w w' : World)
      (r : result unit) :
  Consumer.oci_sender d = None ->
  Consumer.on_event now event (x, (d, w)) = (r, (x', (d', w'))) ->
  w' = w /\ Consumer._buffer d' = Consumer._buffer d ++ text_of event.
Proof.
  intros Hnone.
  assert (Hidle : forall (r0 : result unit) x0, (r0, (x0, (d, w))) = (r, (x', (d', w'))) ->
             w' = w /\ Consumer._buffer d' = Consumer._buffer d ++ []).
  { intros r0 x0 [= _ _ <- <-]. rewrite app_nil_r. auto. }
  destruct event as [event|]; [|apply Hidle].
  rewrite drainer_on_event_run. cbn [text_of].
  destruct (body_as_str event) as [body|e]; [|apply Hidle].
  rewrite (log_only_run false _ w); [|exact Hnone].
  destruct (fst (checkpoint event (Consumer.partition_context x))) as [[]|e];
    intros [= _ _ <- <-]; auto.
Qed.

Lemma drainer_receive_loop_log_only (deliveries : list (Z * option EventData)) :
  forall (x x' : Consumer.Session) (d d' : Consumer.EventHubDrainer) (w w' : World)
         (r : result unit),
    Consumer.oci_sender d = None ->
    St.for_each (fun _ dl => Consumer.on_event (fst dl) (snd dl)) deliveries tt (x, (d, w))
    = (r, (x', (d', w'))) ->
    w' = w /\ Consumer._buffer d' = Consumer._buffer d ++ texts deliveries.
Proof.
  induction deliveries as [|dl deliveries IH]; intros x x' d d' w w' r Hnone Hrun.
  { cbn in Hrun. injection Hrun as _ _ <- <-. unfold texts. cbn.
    rewrite app_nil_r. auto. }
  cbn [St.for_each] in Hrun. unfold St.bind in Hrun.
  destruct (Consumer.on_event (fst dl) (snd dl) (x, (d, w))) as [r1 [x1 [d1 w1]]] eqn:Hstep.
  destruct (drainer_on_event_any _ _ _ _ _ _ _ _ _ Hstep) as (-> & Hs1 & _).
  destruct (drainer_on_event_log_only _ _ _ _ _ _ _ _ _ Hnone Hstep) as (-> & Hb1).
  rewrite Hnone in Hs1.
  destruct (IH _ _ _ _ _ _ _ Hs1 Hrun) as (-> & Hb).
  split; [reflexivity|]. rewrite Hb, Hb1. unfold texts. cbn [flat_map].
  rewrite <- app_assoc. reflexivity.
Qed.
End DrainerLogOnly.

(** X29. Without a sender the drain script keeps every text in memory
    until the end: [drain] makes no call to the sink, ends as [receive]
    ended, and its final flush prints the one line giving how many texts
    (those buffered before and those received) it drops, if any, leaving
    the buffer empty. *)
Theorem log_only_drain_holds_texts_until_the_end `{SinkAdapter} `{PartitionContext}
        (rc : Consumer.Reception) (x : Consumer.Session)
        (d : Consumer.EventHubDrainer) (w : World) :
  Consumer.oci_sender d = None ->
  exists x' d' w',
    Consumer.drain rc (x, (d, w)) = (Consumer.ending rc, (x', (d', w')))
    /\ calls w' = calls w
    /\ Consumer._buffer d' = []
    /\ console w'
       = console w
           ++ match Consumer._buffer d ++ texts (Consumer.deliveries rc) with
              | [] => []
              | _ :: _ =>
                  [WouldSend (len (Consumer._buffer d ++ texts (Consumer.deliveries rc)))]
              end.
Proof.
  intros Hnone.
  destruct (drain_run rc x d w) as (x1 & d1 & w1 & r2 & d2 & w2 & Hloop & Hflush & ->).
  destruct (drainer_receive_loop_any _ _ _ _ _ _ _ _ Hloop) as (_ & Hs1 & _).
  destruct (drainer_receive_loop_log_only _ _ _ _ _ _ _ _ Hnone Hloop) as (-> & Hb1).
  rewrite Hnone in Hs1. rewrite (log_only_run true _ _ Hs1) in Hflush.
  rewrite <- Hb1.
  destruct (Consumer._buffer d1) as [|p t] eqn:Hb; injection Hflush as <- <- <-;
    eexists _, _, _; (split; [reflexivity|]); (split; [reflexivity|]).
  - split; [exact Hb|]. rewrite app_nil_r. reflexivity.
  - split; reflexivity.
Qed.

Lemma log_only_drain_holds_texts_until_the_end_witness :
  exists x' d' w',
    @Consumer.drain reliable_sink steady_checkpoints interrupted_reception
      (session_of steady_checkpoints 0 [] (no_checkpoints steady_checkpoints tt),
       (log_only_drainer [pc], fresh_world reliable_sink tt))
    = (Consumer.ending interrupted_reception, (x', (d', w')))
    /\ calls w' = calls (fresh_world reliable_sink tt)
    /\ Consumer._buffer d' = []
    /\ console w'
       = console (fresh_world reliable_sink tt)
           ++ match Consumer._buffer (log_only_drainer [pc])
                    ++ texts (Consumer.deliveries interrupted_reception) with
              | [] => []
              | _ :: _ =>
                  [WouldSend (len (Consumer._buffer (log_only_drainer [pc])
                                     ++ texts (Consumer.deliveries interrupted_reception)))]
              end.
Proof.
  apply (@log_only_drain_holds_texts_until_the_end reliable_sink steady_checkpoints
           interrupted_reception
           (session_of steady_checkpoints 0 [] (no_checkpoints steady_checkpoints tt))
           (log_only_drainer [pc]) (fresh_world reliable_sink tt)).
  reflexivity.
Defined.

Section DrainerAnswered.
Context `{SinkAdapter} `{PartitionContext}.

(** A flush with a sender and a sink that answers. *)
Lemma drainer_flush_answered (force : bool) (d : Consumer.EventHubDrainer) (w : World)
      (sender : Consumer.OciStreamSender) :
  Consumer.oci_sender d = Some sender ->
  never_raises -> forallb encodable (Consumer._buffer d) = true ->
  exists d' w' cs,
    Consumer._flush_if_needed force (d, w) = (Ok tt, (d', w'))
    /\ calls w' = calls w ++ cs
    /\ concat (map payloads_of cs) ++ Consumer._buffer d' = Consumer._buffer d
    /\ (force = true -> Consumer._buffer d' = [])
    /\ Consumer.messages_sent d' = Consumer.messages_sent d + accepted cs
    /\ Consumer.messages_failed d' = Consumer.messages_failed d + rejected cs.
Proof.
  intros Hs Hnever Henc. rewrite (drainer_flush_run _ _ _ _ Hs).
  assert (Hidle : (Consumer._buffer d = [] \/ force = false) ->
             exists d' w' cs,
               (@Ok unit tt, (d, w)) = (Ok tt, (d', w'))
               /\ calls w' = calls w ++ cs
               /\ concat (map payloads_of cs) ++ Consumer._buffer d' = Consumer._buffer d
               /\ (force = true -> Consumer._buffer d' = [])
               /\ Consumer.messages_sent d' = Consumer.messages_sent d + accepted cs
               /\ Consumer.messages_failed d' = Consumer.messages_failed d + rejected cs).
  { intros Hwhy. exists d, w, []. unfold accepted, rejected. cbn. rewrite app_nil_r.
    split; [reflexivity|]. split; [reflexivity|]. split; [reflexivity|].
    split; [|split; lia]. intros ->. destruct Hwhy as [Hb|Hf]; [exact Hb|discriminate]. }
  assert (Hsend : exists d' w' cs,
             Consumer.send_buffer (d, w) = (Ok tt, (d', w'))
             /\ calls w' = calls w ++ cs
             /\ concat (map payloads_of cs) ++ Consumer._buffer d' = Consumer._buffer d
             /\ (force = true -> Consumer._buffer d' = [])
             /\ Consumer.messages_sent d' = Consumer.messages_sent d + accepted cs
             /\ Consumer.messages_failed d' = Consumer.messages_failed d + rejected cs).
  { rewrite send_buffer_run, send_with_size_limit_eq.
    destruct (send_with_limits_returns (Consumer.max_batch_bytes d)
                (Consumer.max_batch_count d) (Consumer._buffer d) w Hnever Henc)
      as (s & f & b & w1 & Hrun).
    rewrite Hrun.
    destruct (send_with_limits_spec _ _ _ _ _ _ Hrun) as (cs & [Htr Hcon] & _ & _ & Hok & _).
    destruct (Hok s f b eq_refl) as (Hc & -> & -> & _).
    eexists _, _, cs. split; [reflexivity|]. cbn [fst snd printed calls].
    split; [exact Htr|]. cbn [drained Consumer.add_batches Consumer.add_failed
                               Consumer.add_sent Consumer.clear_buffer Consumer._buffer
                               Consumer.messages_sent Consumer.messages_failed].
    rewrite app_nil_r. auto. }
  destruct (Consumer._buffer d) as [|p t] eqn:Hb; [apply Hidle; left; reflexivity|].
  rewrite <- Hb in *.
  destruct force; [exact Hsend|].
  destruct (estimate_total _ Henc) as [est ->].
  destruct ((len (Consumer._buffer d) >=? Consumer.max_batch_count d)
            || (est >=? Consumer.max_batch_bytes d));
    [exact Hsend|apply Hidle; right; reflexivity].
Qed.

Lemma drainer_receive_loop_answered (deliveries : list (Z * option EventData))
      (sender : Consumer.OciStreamSender) :
  never_raises ->
  forall (x : Consumer.Session) (d : Consumer.EventHubDrainer) (w : World),
    Consumer.oci_sender d = Some sender ->
    forallb encodable (Consumer._buffer d ++ texts deliveries) = true ->
    exists x' d' w' cs,
      St.for_each (fun _ dl => Consumer.on_event (fst dl) (snd dl)) deliveries tt
        (x, (d, w))
      = (Ok tt, (x', (d', w')))
      /\ calls w' = calls w ++ cs
      /\ concat (map payloads_of cs) ++ Consumer._buffer d'
         = Consumer._buffer d ++ texts deliveries
      /\ Consumer.messages_sent d' = Consumer.messages_sent d + accepted cs
      /\ Consumer.messages_failed d' = Consumer.messages_failed d + rejected cs.
Proof.
  intros Hnever. induction deliveries as [|[now event] deliveries IH];
    intros x d w Hs Henc.
  { exists x, d, w, []. unfold texts, accepted, rejected. cbn. rewrite !app_nil_r.
    repeat split; try reflexivity; lia. }
  cbn [St.for_each fst snd]. unfold St.bind.
  destruct (Consumer.on_event now event (x, (d, w))) as [r1 [x1 [d1 w1]]] eqn:Hstep.
  destruct (drainer_on_event_any _ _ _ _ _ _ _ _ _ Hstep) as (-> & Hs1 & _).
  rewrite Hs in Hs1.
  assert (Hparts : forallb encodable (Consumer._buffer d ++ text_of event) = true
                   /\ forallb encodable (texts deliveries) = true).
  { unfold texts in Henc. cbn [flat_map snd] in Henc. fold (texts deliveries) in Henc.
    rewrite app_assoc, forallb_app in Henc. apply andb_true_iff in Henc. exact Henc. }
  destruct Hparts as [Henc1 Hrest].
  assert (Hone : exists cs1,
             calls w1 = calls w ++ cs1
             /\ concat (map payloads_of cs1) ++ Consumer._buffer d1
                = Consumer._buffer d ++ text_of event
             /\ Consumer.messages_sent d1 = Consumer.messages_sent d + accepted cs1
             /\ Consumer.messages_failed d1 = Consumer.messages_failed d + rejected cs1).
  { assert (Hidle : forall (r0 : result unit) x0,
               (r0, (x0, (d, w))) = (@Ok unit tt, (x1, (d1, w1))) ->
               exists cs1,
                 calls w1 = calls w ++ cs1
                 /\ concat (map payloads_of cs1) ++ Consumer._buffer d1
                    = Consumer._buffer d ++ []
                 /\ Consumer.messages_sent d1 = Consumer.messages_sent d + accepted cs1
                 /\ Consumer.messages_failed d1
                    = Consumer.messages_failed d + rejected cs1).
    { intros r0 x0 [= _ _ <- <-]. exists []. unfold accepted, rejected. cbn.
      rewrite !app_nil_r. repeat split; try reflexivity; lia. }
    destruct event as [event|]; [|apply (Hidle _ _ Hstep)].
    rewrite drainer_on_event_run in Hstep. cbn [text_of] in Henc1 |- *.
    destruct (body_as_str event) as [body|e]; [|apply (Hidle _ _ Hstep)].
    destruct (drainer_flush_answered false
                (Consumer.append_buffer body (Consumer.add_processed d)) w sender
                Hs Hnever Henc1)
      as (d2 & w2 & cs1 & Hflush & Hcs1 & Hc1 & _ & Hsent & Hfailed).
    rewrite Hflush in Hstep. exists cs1.
    destruct (fst (checkpoint event (Consumer.partition_context x))) as [[]|e];
      injection Hstep as _ <- <-; auto. }
  destruct Hone as (cs1 & Hcs1 & Hc1 & Hsent1 & Hfailed1).
  assert (Henc2 : forallb encodable (Consumer._buffer d1 ++ texts deliveries) = true).
  { rewrite forallb_app. apply andb_true_iff. split; [|exact Hrest].
    apply (forallb_app_r _ (concat (map payloads_of cs1))). rewrite Hc1. exact Henc1. }
  destruct (IH x1 d1 w1 Hs1 Henc2) as (x' & d' & w' & cs & Hloop & Hcs & Hc & Hsent & Hfailed).
  exists x', d', w', (cs1 ++ cs). split; [exact Hloop|].
  split; [rewrite Hcs, Hcs1, <- app_assoc; reflexivity|].
  rewrite map_app, concat_app, accepted_app, rejected_app. split.
  - rewrite <- app_assoc, Hc, app_assoc, Hc1. unfold texts. cbn [flat_map snd].
    rewrite <- !app_assoc. reflexivity.
  - split; lia.
Qed.
End DrainerAnswered.

(** X30. The final flush of [drain] runs whatever [receive] does.  With
    a sender, a sink that answers and texts that are UTF-8 text, [drain]
    ends as [receive] ended, by returning or by raising the same
    exception; the texts buffered before and those received have then
    gone to the sink exactly once, in order, the buffer is empty, and
    the totals have grown by what the sink took and refused. *)
Theorem drain_flushes_whatever_receive_does `{SinkAdapter} `{PartitionContext}
        (rc : Consumer.Reception) (x : Consumer.Session)
        (d : Consumer.EventHubDrainer) (w : World) (sender : Consumer.OciStreamSender) :
  Consumer.oci_sender d = Some sender ->
  never_raises ->
  forallb encodable (Consumer._buffer d ++ texts (Consumer.deliveries rc)) = true ->
  exists x' d' w' cs,
    Consumer.drain rc (x, (d, w)) = (Consumer.ending rc, (x', (d', w')))
    /\ calls w' = calls w ++ cs
    /\ concat (map payloads_of cs) = Consumer._buffer d ++ texts (Consumer.deliveries rc)
    /\ Consumer._buffer d' = []
    /\ Consumer.messages_sent d' = Consumer.messages_sent d + accepted cs
    /\ Consumer.messages_failed d' = Consumer.messages_failed d + rejected cs.
Proof.
  intros Hs Hnever Henc.
  destruct (drain_run rc x d w) as (x1 & d1 & w1 & r2 & d2 & w2 & Hloop & Hflush & ->).
  destruct (drainer_receive_loop_answered (Consumer.deliveries rc) sender Hnever
              (noticed (Consumer.Configuration (Consumer.max_batch_count d)
                          (Consumer.max_batch_bytes d)
                          (match Consumer.oci_sender d with
                           | Some _ => true
                           | None => false
                           end)) x)
              d w Hs Henc)
    as (x1' & d1' & w1' & cs1 & Hloop' & Hcs1 & Hc1 & Hsent1 & Hfailed1).
  rewrite Hloop in Hloop'. injection Hloop' as <- <- <-.
  destruct (drainer_receive_loop_any _ _ _ _ _ _ _ _ Hloop) as (_ & Hs1 & _).
  rewrite Hs in Hs1.
  assert (Henc1 : forallb encodable (Consumer._buffer d1) = true).
  { apply (forallb_app_r _ (concat (map payloads_of cs1))). rewrite Hc1. exact Henc. }
  destruct (drainer_flush_answered true d1 w1 sender Hs1 Hnever Henc1)
    as (d2' & w2' & cs2 & Hflush' & Hcs2 & Hc2 & Hempty & Hsent2 & Hfailed2).
  rewrite Hflush in Hflush'. injection Hflush' as -> <- <-.
  eexists _, d2, w2, (cs1 ++ cs2). split; [reflexivity|].
  split; [rewrite Hcs2, Hcs1, <- app_assoc; reflexivity|].
  rewrite (Hempty eq_refl), app_nil_r in Hc2.
  rewrite map_app, concat_app, accepted_app, rejected_app, Hc2.
  split; [exact Hc1|]. split; [apply Hempty; reflexivity|]. split; lia.
Qed.

Lemma drain_flushes_whatever_receive_does_witness :
  exists x' d' w' cs,
    @Consumer.drain picky_sink broken_checkpoints interrupted_reception
      (session_of broken_checkpoints 0 [] (no_checkpoints broken_checkpoints tt),
       (sending_drainer [pc], fresh_world picky_sink tt))
    = (Consumer.ending interrupted_reception, (x', (d', w')))
    /\ calls w' = calls (fresh_world picky_sink tt) ++ cs
    /\ concat (map payloads_of cs)
       = Consumer._buffer (sending_drainer [pc])
           ++ texts (Consumer.deliveries interrupted_reception)
    /\ Consumer._buffer d' = []
    /\ Consumer.messages_sent d' = Consumer.messages_sent (sending_drainer [pc]) + accepted cs
    /\ Consumer.messages_failed d'
       = Consumer.messages_failed (sending_drainer [pc]) + rejected cs.
Proof.
  apply (@drain_flushes_whatever_receive_does picky_sink broken_checkpoints
           interrupted_reception
           (session_of broken_checkpoints 0 [] (no_checkpoints broken_checkpoints tt))
           (sending_drainer [pc]) (fresh_world picky_sink tt) Consumer.StreamSender).
  - reflexivity.
  - intros k entries. eexists. reflexivity.
  - reflexivity.
Defined.
